(** * Electron release catalog and bisection runner

    A shallow embedding of [src/versions.ts] (the catalog of Electron
    releases: [compareVersions], [BaseVersions]) and of [src/runner.ts]
    ([Runner.run], [Runner.bisect]), and the properties of both that the
    specification states. *)

From Stdlib Require Import ZArith NArith Ascii String DecimalString DecimalN Lia Bool.
From stdpp Require Import base list gmap strings sorting.

Local Open Scope Z_scope.

(** ** Parsed versions: the [SemVer] objects of the [semver] package *)

Module SemVer.

(** A prerelease identifier.  [semver] stores an identifier made of
    digits as a JS number when its value is below [MAX_SAFE_INTEGER],
    and any other identifier as a string. *)
Inductive Identifier : Type :=
  | INum (n : N)
  | IStr (s : string).

#[global] Instance Identifier_eq_dec : EqDecision Identifier.
Proof. solve_decision. Defined.

(** The fields of a [SemVer] object that the catalog reads.  [build] is
    the build metadata, which neither the ordering nor [version] looks
    at: two objects can differ and still be the same release. *)
Record t : Type := mk {
  major : N;
  minor : N;
  patch : N;
  prerelease : list Identifier;
  build : list string
}.

(** Number to string, as JS prints a non-negative safe integer. *)
Definition dec (n : N) : string := NilEmpty.string_of_uint (N.to_uint n).

Definition ident_str (i : Identifier) : string :=
  match i with
  | INum n => dec n
  | IStr s => s
  end.

(** [Array.prototype.join] on strings. *)
Fixpoint join (sep : string) (l : list string) : string :=
  match l with
  | [] => EmptyString
  | [x] => x
  | x :: l' => x +:+ sep +:+ join sep l'
  end.

(** [SemVer.version]: the canonical string that [format()] builds,
    [major.minor.patch] followed by [-] and the dotted prerelease
    identifiers when there are any. *)
Definition version (v : t) : string :=
  dec (major v) +:+ "." +:+ dec (minor v) +:+ "." +:+ dec (patch v) +:+
  match prerelease v with
  | [] => EmptyString
  | p => "-" +:+ join "." (ident_str <$> p)
  end.

Definition is_digit (c : ascii) : bool :=
  (48 <=? N_of_ascii c)%N && (N_of_ascii c <=? 57)%N.

Fixpoint all_chars (P : ascii -> bool) (s : string) : bool :=
  match s with
  | EmptyString => true
  | String c s' => P c && all_chars P s'
  end.

Definition all_digits (s : string) : bool := all_chars is_digit s.

(** The test [/^[0-9]+$/] of [compareIdentifiers]; a JS number is
    converted to its decimal string first, which always matches. *)
Definition numeric (a : Identifier) : bool :=
  match a with
  | INum _ => true
  | IStr s => negb (String.eqb s EmptyString) && all_digits s
  end.

(** The double nearest to the integer [n], ties to the even significand:
    what JS gives for [+s] when [s] is the decimal string of [n].  An
    integer below [2^53] is its own double; one too large for a double
    gives [Infinity], which stands here as [2^1024], above every finite
    double. *)
Definition to_double (n : N) : N :=
  let bits := (N.log2 n + 1)%N in
  if (bits <=? 53)%N then n
  else
    let e := (bits - 53)%N in
    let q := N.shiftr n e in
    let r := (n mod 2 ^ e)%N in
    let half := (2 ^ (e - 1))%N in
    let q' := if (half <? r)%N || ((r =? half)%N && N.odd q) then (q + 1)%N else q in
    N.min (q' * 2 ^ e) (2 ^ 1024).

(** [+a]: the numeric value of an identifier that passed [numeric].  A
    string of digits is converted to a double, so two long strings of
    digits that differ can have the same value. *)
Definition to_number (a : Identifier) : N :=
  match a with
  | INum n => n
  | IStr s =>
      match NilEmpty.uint_of_string s with
      | Some u => to_double (N.of_uint u)
      | None => 0%N
      end
  end.

(** JS [a === b] on identifiers: same type and same value. *)
Definition strict_eq (a b : Identifier) : bool :=
  match a, b with
  | INum n, INum m => (n =? m)%N
  | IStr s, IStr u => String.eqb s u
  | _, _ => false
  end.

(** JS [a < b], reached in [compareIdentifiers] with two strings only:
    code units are compared left to right. *)
Definition js_lt (a b : Identifier) : bool :=
  match a, b with
  | INum n, INum m => (n <? m)%N
  | IStr s, IStr u => String.ltb s u
  | _, _ => false
  end.

(** Modelled from the spec: [compareIdentifiers], [compareMain] and
    [comparePre] belong to the [semver] package, which is not part of the
    repository.  Numeric identifiers compare numerically, alphanumeric
    ones lexically, a numeric one is lower than an alphanumeric one, a
    shorter identifier list sorts before a longer one with the same
    prefix, and a version without prerelease sorts after any prerelease
    of the same triple.  Two identifiers that both consist of digits are
    compared as JS numbers, whichever way they are stored. *)
Definition compareIdentifiers (a b : Identifier) : Z :=
  if numeric a && numeric b then
    let x := to_number a in
    let y := to_number b in
    if (x =? y)%N then 0 else if (x <? y)%N then -1 else 1
  else if strict_eq a b then 0
  else if numeric a && negb (numeric b) then -1
  else if numeric b && negb (numeric a) then 1
  else if js_lt a b then -1 else 1.

(** [compareIdentifiers] on two numbers (the version components). *)
Definition compareNum (x y : N) : Z :=
  if (x =? y)%N then 0 else if (x <? y)%N then -1 else 1.

(** [x || y] on JS numbers: the first one unless it is zero. *)
Definition or_else (x y : Z) : Z := if x =? 0 then y else x.

Definition compareMain (a b : t) : Z :=
  or_else (compareNum (major a) (major b))
    (or_else (compareNum (minor a) (minor b))
       (compareNum (patch a) (patch b))).

(** The numeric key of a version, and its lexicographic order. *)
Definition triple (v : t) : N * N * N := (major v, minor v, patch v).

Definition triple_lt (a b : t) : Prop :=
  (major a < major b \/
   (major a = major b /\
    (minor a < minor b \/ (minor a = minor b /\ patch a < patch b))))%N.

(** The [do ... while (++i)] loop of [comparePre], by recursion on the
    two identifier lists from index [i] on. *)
Fixpoint comparePre_from (p q : list Identifier) : Z :=
  match p, q with
  | [], [] => 0
  | _ :: _, [] => 1
  | [], _ :: _ => -1
  | a :: p', b :: q' =>
      if strict_eq a b then comparePre_from p' q' else compareIdentifiers a b
  end.

Definition is_nil {A} (l : list A) : bool :=
  match l with [] => true | _ => false end.

Definition comparePre (a b : t) : Z :=
  let p := prerelease a in
  let q := prerelease b in
  if negb (is_nil p) && is_nil q then -1
  else if is_nil p && negb (is_nil q) then 1
  else if is_nil p && is_nil q then 0
  else comparePre_from p q.

(** What [compareIdentifiers] computes on the identifiers that
    [wf_ident] accepts: numbers by value, strings by code units, a
    number before a string. *)
Definition ident_order (a b : Identifier) : Z :=
  match a, b with
  | INum n, INum m => compareNum n m
  | INum _, IStr _ => -1
  | IStr _, INum _ => 1
  | IStr s, IStr u =>
      match String.compare s u with
      | Eq => 0
      | Lt => -1
      | Gt => 1
      end
  end.

(** A string that is empty or starts with a character outside [P]. *)
Definition stops (P : ascii -> bool) (s : string) : bool :=
  match s with
  | EmptyString => true
  | String c _ => negb (P c)
  end.

Definition not_dot (c : ascii) : bool := negb (Ascii.eqb c ".").

(** The characters a prerelease identifier can have. *)
Definition ident_char (c : ascii) : bool :=
  let n := N_of_ascii c in
  is_digit c || ((65 <=? n) && (n <=? 90))%N || ((97 <=? n) && (n <=? 122))%N
  || (n =? 45)%N.

Definition all_ident_chars (s : string) : bool := all_chars ident_char s.

Definition MAX_SAFE_INTEGER : N := 9007199254740991.

(** The versions on which the ordering is exact.  [semver.parse] stores
    an identifier made of digits as a number when its value is below
    [MAX_SAFE_INTEGER] and as a string otherwise; such a string is
    compared after a lossy conversion to a double ([to_number]).  [wf]
    holds of the versions [semver.parse] returns that have no identifier
    of the second kind: each identifier is a number below
    [MAX_SAFE_INTEGER] (a JS number holds these exactly) or a non-empty
    string over [0-9A-Za-z-] that has a character other than a digit.
    It does not hold of [1.0.0-9007199254740993], which [semver.parse]
    accepts. *)
Definition wf_ident (i : Identifier) : bool :=
  match i with
  | INum n => (n <? MAX_SAFE_INTEGER)%N
  | IStr s => negb (String.eqb s EmptyString) && all_ident_chars s && negb (all_digits s)
  end.

Definition wf (v : t) : bool :=
  (major v <=? MAX_SAFE_INTEGER)%N && (minor v <=? MAX_SAFE_INTEGER)%N
  && (patch v <=? MAX_SAFE_INTEGER)%N && forallb wf_ident (prerelease v).

End SemVer.

(** ** The ordering of releases *)

Definition is_nightly (pre : option SemVer.Identifier) : bool :=
  match pre with
  | Some (SemVer.IStr s) => String.eqb s "nightly"
  | _ => false
  end.

(** [compareVersions] of versions.ts.  [head] is the destructuring
    [const [prea] = a.prerelease], [None] standing for [undefined]. *)
Definition compareVersions (a b : SemVer.t) : Z :=
  let l := SemVer.compareMain a b in
  if negb (l =? 0) then l
  else
    let prea := head (SemVer.prerelease a) in
    let preb := head (SemVer.prerelease b) in
    if is_nightly prea && negb (is_nightly preb) then -1
    else if negb (is_nightly prea) && is_nightly preb then 1
    else SemVer.comparePre a b.

(** [a] sorts strictly before [b]. *)
Definition version_lt (a b : SemVer.t) : Prop := compareVersions a b < 0.

(** [a] sorts before [b] or with it. *)
Definition version_le (a b : SemVer.t) : Prop := compareVersions a b <= 0.

(** The first prerelease identifier of [a] is the tag [nightly]. *)
Definition nightly (a : SemVer.t) : bool := is_nightly (head (SemVer.prerelease a)).

(** ** JavaScript values and arrays *)

(** The documents [setVersions] is given: the result of [JSON.parse], or
    whatever else a caller passes as [unknown].  An object lists its own
    properties; a key occurs once. *)
#[warnings="-register-all"]
Inductive JsVal : Type :=
  | JUndefined
  | JNull
  | JBool (b : bool)
  | JNum (z : Z)
  | JStr (s : string)
  | JArr (items : list JsVal)
  | JObj (fields : list (string * JsVal)).

Fixpoint get_prop (k : string) (fields : list (string * JsVal)) : option JsVal :=
  match fields with
  | [] => None
  | (k', v) :: fields' => if String.eqb k k' then Some v else get_prop k fields'
  end.

(** [Array.prototype.slice(start, end)], with its treatment of negative
    and out-of-range indices. *)
Definition js_slice {A} (l : list A) (start end_ : Z) : list A :=
  let len := Z.of_nat (length l) in
  let k := if start <? 0 then Z.max (len + start) 0 else Z.min start len in
  let final := if end_ <? 0 then Z.max (len + end_) 0 else Z.min end_ len in
  take (Z.to_nat (final - k)) (drop (Z.to_nat k) l).

(** [slice(start)]: the end defaults to the length. *)
Definition js_slice_from {A} (l : list A) (start : Z) : list A :=
  js_slice l start (Z.of_nat (length l)).

(** [Array.prototype.findIndex]: the first index whose element passes the
    test, [-1] when there is none. *)
Fixpoint findIndex {A} (p : A -> bool) (l : list A) : Z :=
  match l with
  | [] => -1
  | x :: l' =>
      if p x then 0
      else let i := findIndex p l' in if i <? 0 then -1 else i + 1
  end.

(** [x] may stand before [y] under the comparator [cmp]. *)
Definition cmp_le {A} (cmp : A -> A -> Z) (x y : A) : Prop := cmp x y <= 0.

(** [Array.prototype.sort(cmp)].  The language requires a stable sort;
    for a comparator that is a consistent ordering every conforming
    engine returns the list that this insertion sort returns.  For any
    other comparator the language leaves the order to the engine, and
    what is proved of the order is proved of this insertion sort. *)
Fixpoint sort_insert {A} (cmp : A -> A -> Z) (x : A) (l : list A) : list A :=
  match l with
  | [] => [x]
  | y :: l' => if cmp x y <=? 0 then x :: l else y :: sort_insert cmp x l'
  end.

Definition js_sort {A} (cmp : A -> A -> Z) (l : list A) : list A :=
  foldr (sort_insert cmp) [] l.

(** A JS [Map]: keys in insertion order; [set] on a key that is present
    replaces the value where the key stands. *)
Fixpoint map_set {V} (k : string) (v : V) (m : list (string * V)) : list (string * V) :=
  match m with
  | [] => [(k, v)]
  | (k', v') :: m' =>
      if String.eqb k k' then (k, v) :: m' else (k', v') :: map_set k v m'
  end.

Definition map_has {V} (k : string) (m : list (string * V)) : bool :=
  existsb (fun kv => String.eqb k kv.1) m.

Definition map_values {V} (m : list (string * V)) : list V := snd <$> m.

(** A JS [Set] of numbers: elements in insertion order. *)
Definition set_add (x : N) (s : list N) : list N :=
  if existsb (N.eqb x) s then s else s ++ [x].

Definition set_delete (x : N) (s : list N) : list N :=
  filter (fun y => y ≠ x) s.

(** ** The catalog: [BaseVersions] *)

Definition SemOrStr : Type := SemVer.t + string.

(** The private field [map] of [BaseVersions]. *)
Definition VersionMap : Type := list (string * SemVer.t).

Definition NUM_SUPPORTED_MAJORS : Z := 4.

Definition hasVersion (val : JsVal) : bool :=
  match val with
  | JObj fields => bool_decide (is_Some (get_prop "version" fields))
  | _ => false
  end.

(** [item.version] when it is a string. *)
Definition version_field (item : JsVal) : option string :=
  match item with
  | JObj fields =>
      match get_prop "version" fields with
      | Some (JStr s) => Some s
      | _ => None
      end
  | _ => None
  end.

Definition isArrayOfVersionObjects (val : JsVal) : bool :=
  match val with
  | JArr items =>
      forallb (fun item => hasVersion item && bool_decide (is_Some (version_field item))) items
  | _ => false
  end.

Definition string_item (item : JsVal) : option string :=
  match item with
  | JStr s => Some s
  | _ => None
  end.

Definition isArrayOfStrings (val : JsVal) : bool :=
  match val with
  | JArr items => forallb (fun item => bool_decide (is_Some (string_item item))) items
  | _ => false
  end.

Definition array_items (val : JsVal) : list JsVal :=
  match val with
  | JArr items => items
  | _ => []
  end.

(** One iteration of [for (const sem of semvers) this.map.set(...)], and
    the whole loop. *)
Definition store (m : VersionMap) (sem : SemVer.t) : VersionMap :=
  map_set (SemVer.version sem) sem m.

Definition store_all (m : VersionMap) (l : list SemVer.t) : VersionMap :=
  foldl store m l.

Section Catalog.

(** [semver.parse]: a [SemVer], or [null] for a string that is not a
    version.  It belongs to the [semver] package. *)
Variable semverParse : string -> option SemVer.t.

(** The array [parsed] that [setVersions] builds. *)
Definition parsed_of (val : JsVal) : list (option SemVer.t) :=
  if isArrayOfVersionObjects val then
    (fun item => version_field item ≫= semverParse) <$> array_items val
  else if isArrayOfStrings val then
    (fun item => string_item item ≫= semverParse) <$> array_items val
  else [].

(** [setVersions]: the map it leaves in [this.map], whatever was there. *)
Definition setVersions (val : JsVal) (old : VersionMap) : VersionMap :=
  let parsed := parsed_of val in
  let semvers := omap id parsed in
  let semvers := js_sort compareVersions semvers in
  let cleared : VersionMap := [] in
  store_all cleared semvers.

(** [new BaseVersions(versions)] *)
Definition BaseVersions (val : JsVal) : VersionMap := setVersions val [].

End Catalog.

(** The invariant of [this.map]: every key is the canonical string of
    its value, as [this.map.set(sem.version, sem)] makes it. *)
Definition keyed (m : VersionMap) : Prop :=
  Forall (fun kv => kv.1 = SemVer.version kv.2) m.

(** The bodies of the loops over [this.map.values()]. *)
Definition add_major (s : list N) (ver : SemVer.t) : list N :=
  set_add (SemVer.major ver) s.

Definition add_stable (s : list N) (ver : SemVer.t) : list N :=
  if SemVer.is_nil (SemVer.prerelease ver) then set_add (SemVer.major ver) s else s.

Definition drop_stable (s : list N) (ver : SemVer.t) : list N :=
  if SemVer.is_nil (SemVer.prerelease ver) then set_delete (SemVer.major ver) s else s.

Definition prereleaseMajors (m : VersionMap) : list N :=
  let majors := foldl add_major [] (map_values m) in
  foldl drop_stable majors (map_values m).

Definition stableMajors (m : VersionMap) : list N :=
  foldl add_stable [] (map_values m).

Definition supportedMajors (m : VersionMap) : list N :=
  js_slice_from (stableMajors m) (- NUM_SUPPORTED_MAJORS).

Definition obsoleteMajors (m : VersionMap) : list N :=
  js_slice (stableMajors m) 0 (- NUM_SUPPORTED_MAJORS).

Definition versions (m : VersionMap) : list SemVer.t := map_values m.

(** [this.versions.pop()] *)
Definition latest (m : VersionMap) : option SemVer.t := last (versions m).

Definition latestStable (m : VersionMap) : option SemVer.t :=
  foldl (fun stable ver =>
           if SemVer.is_nil (SemVer.prerelease ver) then Some ver else stable)
        None (map_values m).

Definition canonical (ver : SemOrStr) : string :=
  match ver with
  | inl sem => SemVer.version sem
  | inr s => s
  end.

Definition isVersion (m : VersionMap) (ver : SemOrStr) : bool :=
  map_has (canonical ver) m.

Definition inMajor (m : VersionMap) (major : N) : list SemVer.t :=
  filter (fun ver => SemVer.major ver = major) (map_values m).

(** [versions.findIndex((ver) => ver.version === s)] *)
Definition position (m : VersionMap) (s : string) : Z :=
  findIndex (fun ver => String.eqb (SemVer.version ver) s) (map_values m).

Definition inRange (m : VersionMap) (a b : SemOrStr) : list SemVer.t :=
  let a := canonical a in
  let b := canonical b in
  let versions := map_values m in
  let first := findIndex (fun ver => String.eqb (SemVer.version ver) a) versions in
  let last := findIndex (fun ver => String.eqb (SemVer.version ver) b) versions in
  let '(first, last) := if first >? last then (last, first) else (first, last) in
  js_slice versions first (last + 1).

(** ** The runner *)

Record Fiddle : Type := {
  mainPath : string;
  source : string
}.

(** [FiddleSource]: a fiddle that is already there, or the description
    of one (a gist, a git reference, a folder). *)
Inductive FiddleSource : Type :=
  | SrcFiddle (f : Fiddle)
  | SrcDescriptor (s : string).

Inductive TestStatus : Type :=
  | test_passed
  | test_failed
  | test_error
  | system_error.

#[global] Instance TestStatus_eq_dec : EqDecision TestStatus.
Proof. solve_decision. Defined.

Record TestResult : Type := { status : TestStatus }.

Inductive BisectStatus : Type :=
  | bisect_succeeded
  | bisect_test_error
  | bisect_system_error.

Record BisectResult : Type := {
  range : option (string * string);
  bisect_status : BisectStatus
}.

(** The fields of [RunnerOptions] that decide what is run.  In [spawn]
    and [run], [out] and [showConfig] only decide what is printed;
    [spawnSync] writes the output of the child to [out], which is part
    of its own options. *)
Record RunnerOptions : Type := {
  args : option (list string);
  headless : option bool
}.

Definition DefaultRunnerOpts : RunnerOptions :=
  {| args := Some []; headless := Some false |}.

(** [{ ...DefaultRunnerOpts, ...opts }] *)
Definition merge_opts (defaults opts : RunnerOptions) : RunnerOptions :=
  {| args := match args opts with Some a => Some a | None => args defaults end;
     headless := match headless opts with Some h => Some h | None => headless defaults end |}.

(** What a JS function can throw here. *)
Inductive Exn : Type :=
  | TypeError
  | InvalidFiddle
  | UnrecognizedElectron (name : string)
  | Rejected (reason : string).

(** The first event a child process emits: ['error'] when it could not
    be started, or ['exit'] with its code ([None] when a signal ended
    it). *)
Inductive ChildEvent : Type :=
  | ChildError
  | ChildExit (code : option Z).

(** The calls a session makes, in the order it makes them. *)
Inductive Call : Type :=
  | CallCreate (src : FiddleSource)
  | CallInstall (version : string)
  | CallSpawn (exec : string) (argv : list string)
  | CallRun (version : string).

(** How a computation ends: with a value, with an exception, or because
    the loop counter of the model ran out. *)
Inductive Res (A : Type) : Type :=
  | Ok (a : A)
  | Throw (e : Exn)
  | OutOfFuel.
Arguments Ok {A} a.
Arguments Throw {A} e.
Arguments OutOfFuel {A}.

Section Runner.

(** Everything outside the program: the file system, the installer's
    downloads, the processes. *)
Context {World : Type}.

(** The collaborators of a [Runner]; none of them is in the repository's
    core.  Each one reads the world and may change it. *)
Record Collaborators : Type := {
  (** [FiddleFactory.create]: a fiddle, [undefined], or a rejection *)
  factory_create : FiddleSource -> World -> (Exn + option Fiddle) * World;
  (** [fs.statSync(p).isDirectory()], [None] when [statSync] throws *)
  fs_isDirectory : string -> World -> option bool;
  fs_existsSync : string -> World -> bool;
  (** [Installer.getExecPath] *)
  getExecPath : string -> string;
  (** [Installer.install] *)
  installer_install : string -> World -> (Exn + string) * World;
  (** [child_process.spawn] and the first event of the child *)
  child_spawn : string -> list string -> World -> ChildEvent * World;
  (** [process.platform] *)
  platform : string
}.

Record Runner : Type := {
  collab : Collaborators;
  catalog : VersionMap
}.

Record St : Type := {
  world : World;
  calls : list Call
}.

Definition M (A : Type) : Type := St -> Res A * St.

Definition ret {A} (a : A) : M A := fun s => (Ok a, s).

Definition throw {A} (e : Exn) : M A := fun s => (Throw e, s).

Definition bind {A B} (c : M A) (k : A -> M B) : M B :=
  fun s =>
    match c s with
    | (Ok a, s') => k a s'
    | (Throw e, s') => (Throw e, s')
    | (OutOfFuel, s') => (OutOfFuel, s')
    end.

(** [try { c } catch { h }] *)
Definition try_catch {A} (c : M A) (h : M A) : M A :=
  fun s =>
    match c s with
    | (Throw _, s') => h s'
    | r => r
    end.

Definition record_call (c : Call) : M unit :=
  fun s => (Ok tt, {| world := world s; calls := calls s ++ [c] |}).

Definition read {A} (f : World -> A) : M A := fun s => (Ok (f (world s)), s).

(** A call to a collaborator that may reject. *)
Definition external {A} (f : World -> (Exn + A) * World) : M A :=
  fun s =>
    let '(r, w) := f (world s) in
    let s' := {| world := w; calls := calls s |} in
    match r with
    | inl e => (Throw e, s')
    | inr a => (Ok a, s')
    end.

End Runner.

Arguments Collaborators World : clear implicits.
Arguments Runner World : clear implicits.
Arguments St World : clear implicits.
Arguments M World A : clear implicits.

Declare Scope runner_scope.
Delimit Scope runner_scope with runner.
Notation "x <- c ;; k" := (bind c (fun x => k))
  (at level 100, c at next level, right associativity) : runner_scope.
Notation "c ;;; k" := (bind c (fun _ => k))
  (at level 100, right associativity) : runner_scope.

Local Open Scope runner_scope.

(** The local variables of [bisect] that its loop updates.  [results] is
    the sparse array [new Array(versions.length)]: an index that was
    never assigned reads [undefined]. *)
Module Locals.
Record t : Type := mk {
  left : Z;
  right : Z;
  result : option TestResult;
  testOrder : list Z;
  results : gmap Z TestResult
}.
End Locals.

(** [Math.round(n / 2)] for an integer [n]: a half rounds up.  The
    operands of [bisect] are array indices, on which JS arithmetic is
    exact. *)
Definition round_half (n : Z) : Z := (n + 1) / 2.

(** [Math.round(left + (right - left) / 2)] *)
Definition midpoint (left right : Z) : Z :=
  round_half (2 * left + (right - left)).

(** [versions[i]], [None] standing for [undefined]. *)
Definition nth_version (versions : list SemVer.t) (i : Z) : option SemVer.t :=
  if i <? 0 then None else versions !! Z.to_nat i.

Definition result_of_event (ev : ChildEvent) : TestResult :=
  match ev with
  | ChildError => {| status := system_error |}
  | ChildExit (Some 0) => {| status := test_passed |}
  | ChildExit (Some 1) => {| status := test_failed |}
  | ChildExit _ => {| status := test_error |}
  end.

Section RunnerMethods.

Context {World : Type}.
Variable r : Runner World.

Definition statSync (path : string) : M World bool :=
  fun s =>
    match fs_isDirectory (collab r) path (world s) with
    | Some d => (Ok d, s)
    | None => (Throw (Rejected "ENOENT"), s)
    end.

(** [getExec]: [Some] is a [return] inside the [try] or the [catch],
    [None] falls through to the [throw] at the end. *)
Definition getExec (electron : string) : M World string :=
  found <- try_catch
    (isDir <- statSync electron ;;
     if negb isDir then ret (Some electron)
     else
       let name := getExecPath (collab r) electron in
       there <- read (fs_existsSync (collab r) name) ;;
       if there then ret (Some name) else ret None)
    (if isVersion (catalog r) (inr electron) then
       record_call (CallInstall electron) ;;;
       path <- external (installer_install (collab r) electron) ;;
       ret (Some path)
     else ret None) ;;
  match found with
  | Some path => ret path
  | None => throw (UnrecognizedElectron electron)
  end.

(** [Runner.headless] *)
Definition headless_command (exec : string) (argv : list string) : string * list string :=
  if negb (String.eqb (platform (collab r)) "darwin")
     && negb (String.eqb (platform (collab r)) "win32")
  then ("xvfb-run", "--auto-servernum" :: exec :: argv)
  else (exec, argv).

(** [Runner.spawn]; the child it returns is represented by the first
    event that child emits. *)
Definition spawn (versionIn : SemOrStr) (fiddleIn : FiddleSource)
    (opts : RunnerOptions) : M World ChildEvent :=
  let opts := merge_opts DefaultRunnerOpts opts in
  let version := canonical versionIn in
  record_call (CallCreate fiddleIn) ;;;
  fiddle <- external (factory_create (collab r) fiddleIn) ;;
  match fiddle with
  | None => throw InvalidFiddle
  | Some fiddle =>
      electronExec <- getExec version ;;
      let exec := electronExec in
      let argv := default [] (args opts) ++ [mainPath fiddle] in
      let '(exec, argv) :=
        if default false (headless opts) then headless_command exec argv
        else (exec, argv) in
      record_call (CallSpawn exec argv) ;;;
      fun s =>
        let '(child, w) := child_spawn (collab r) exec argv (world s) in
        (Ok child, {| world := w; calls := calls s |})
  end.

(** [Runner.run] *)
Definition run (version : SemOrStr) (fiddle : FiddleSource)
    (opts : RunnerOptions) : M World TestResult :=
  record_call (CallRun (canonical version)) ;;;
  subprocess <- spawn version fiddle opts ;;
  ret (result_of_event subprocess).

(** The [while (left + 1 < right)] loop of [bisect].  [fuel] bounds the
    number of turns; a loop that needed more would end in [OutOfFuel]. *)
Fixpoint bisect_loop (fuel : nat) (versions : list SemVer.t) (fiddle : Fiddle)
    (opts : RunnerOptions) (l : Locals.t) : M World Locals.t :=
  if Locals.left l + 1 <? Locals.right l then
    match fuel with
    | O => fun s => (OutOfFuel, s)
    | S fuel' =>
        let mid := midpoint (Locals.left l) (Locals.right l) in
        let testOrder := Locals.testOrder l ++ [mid] in
        match nth_version versions mid with
        | None => throw TypeError
        | Some ver =>
            result <- run (inr (SemVer.version ver)) (SrcFiddle fiddle) opts ;;
            let results := <[mid := result]> (Locals.results l) in
            match status result with
            | test_passed =>
                bisect_loop fuel' versions fiddle opts
                  (Locals.mk mid (Locals.right l) (Some result) testOrder results)
            | test_failed =>
                bisect_loop fuel' versions fiddle opts
                  (Locals.mk (Locals.left l) mid (Some result) testOrder results)
            | _ =>
                ret (Locals.mk (Locals.left l) (Locals.right l) (Some result)
                       testOrder results)
            end
        end
    end
  else ret l.

(** [results[i].status]: reading [status] of [undefined] throws. *)
Definition result_status (results : gmap Z TestResult) (i : Z) : M World TestStatus :=
  match results !! i with
  | Some res => ret (status res)
  | None => throw TypeError
  end.

(** The end of [bisect], from [const success = ...] on. *)
Definition conclude (versions : list SemVer.t) (l : Locals.t) : M World BisectResult :=
  atLeft <- result_status (Locals.results l) (Locals.left l) ;;
  success <-
    (if bool_decide (atLeft = test_passed) then
       atRight <- result_status (Locals.results l) (Locals.right l) ;;
       ret (bool_decide (atRight = test_failed))
     else ret false) ;;
  if success : bool then
    match nth_version versions (Locals.left l), nth_version versions (Locals.right l) with
    | Some good, Some bad =>
        ret {| range := Some (SemVer.version good, SemVer.version bad);
               bisect_status := bisect_succeeded |}
    | _, _ => throw TypeError
    end
  else
    match status <$> Locals.result l with
    | Some test_error => ret {| range := None; bisect_status := bisect_test_error |}
    | Some system_error => ret {| range := None; bisect_status := bisect_system_error |}
    | _ => ret {| range := None; bisect_status := bisect_system_error |}
    end.

(** [bisect] up to the end of its loop: the local variables as the loop
    leaves them.  Every turn of the loop narrows the window, so the loop
    takes fewer turns than there are versions; that many are allowed. *)
Definition bisect_session (version_a version_b : SemOrStr) (fiddleIn : FiddleSource)
    (opts : RunnerOptions) : M World (list SemVer.t * Locals.t) :=
  let versions := inRange (catalog r) version_a version_b in
  record_call (CallCreate fiddleIn) ;;;
  fiddle <- external (factory_create (collab r) fiddleIn) ;;
  match fiddle with
  | None => throw InvalidFiddle
  | Some fiddle =>
      let left := 0 in
      let right := Z.of_nat (length versions) - 1 in
      l <- bisect_loop (length versions) versions fiddle opts
             (Locals.mk left right None [] ∅) ;;
      ret (versions, l)
  end.

(** [Runner.bisect] *)
Definition bisect (version_a version_b : SemOrStr) (fiddleIn : FiddleSource)
    (opts : RunnerOptions) : M World BisectResult :=
  session <- bisect_session version_a version_b fiddleIn opts ;;
  conclude session.1 session.2.

End RunnerMethods.

(** ** A small release feed, for examples *)

Definition release (major minor patch : N) (pre : list SemVer.Identifier) : SemVer.t :=
  SemVer.mk major minor patch pre [].

Definition known_releases : list SemVer.t :=
  [ release 9 0 0 []; release 10 0 0 []; release 11 0 0 [];
    release 12 0 0 [SemVer.IStr "nightly"; SemVer.INum 20200101];
    release 12 0 0 [SemVer.IStr "beta"; SemVer.INum 1];
    release 12 0 0 []; release 12 0 1 []; release 12 0 2 [];
    release 13 0 0 [];
    release 14 0 0 [SemVer.IStr "nightly"; SemVer.INum 20210101] ].

(** A parser that knows the releases above and nothing else. *)
Definition parse_known (s : string) : option SemVer.t :=
  List.find (fun v => String.eqb (SemVer.version v) s) known_releases.

Definition feed : JsVal :=
  JArr [ JStr "12.0.1"; JStr "12.0.0-beta.1"; JStr "latest"; JStr "9.0.0";
         JStr "14.0.0-nightly.20210101"; JStr "12.0.0"; JStr "10.0.0";
         JStr "12.0.0-nightly.20200101"; JStr "13.0.0"; JStr "12.0.2";
         JStr "12.0.1"; JStr "11.0.0"; JStr EmptyString ].

Definition feed_catalog : VersionMap := BaseVersions parse_known feed.

(** ** Reading the calls of a session *)

Definition is_create (c : Call) : bool :=
  match c with CallCreate _ => true | _ => false end.

Definition is_run (c : Call) : bool :=
  match c with CallRun _ => true | _ => false end.

(** The number of calls to [FiddleFactory.create] and to [Runner.run]
    in a list of calls. *)
Definition count_creates (cs : list Call) : nat := length (List.filter is_create cs).

Definition count_runs (cs : list Call) : nat := length (List.filter is_run cs).

(** Calls other than [create] and [run]. *)
Definition quiet (c : Call) : Prop := is_create c = false /\ is_run c = false.

(** What the loop of [bisect] adds to the calls: as many [create] as
    [run], each [create] on the fiddle that [bisect] resolved. *)
Definition balanced (fiddle : Fiddle) (cs : list Call) : Prop :=
  count_creates cs = count_runs cs /\
  Forall (fun c => forall src, c = CallCreate src -> src = SrcFiddle fiddle) cs.

(** The index [i] is strictly inside a slice of [len] versions. *)
Definition inside (len : Z) (i : Z) : Prop := 0 < i < len - 1.

(** Every [run] among the calls [cs] is on a version strictly inside the
    slice [versions]. *)
Definition runs_inside (versions : list SemVer.t) (cs : list Call) : Prop :=
  Forall (fun c => forall v, c = CallRun v ->
            exists i ver, inside (Z.of_nat (length versions)) i /\
                          nth_version versions i = Some ver /\
                          SemVer.version ver = v) cs.

(** What [results] holds at the two ends of the window, if anything. *)
Definition ends_recorded (l : Locals.t) : Prop :=
  (forall res, Locals.results l !! Locals.left l = Some res -> status res = test_passed) /\
  (forall res, Locals.results l !! Locals.right l = Some res -> status res = test_failed).

(** Every recorded outcome is for an index outside the open window. *)
Definition outside_window (l : Locals.t) : Prop :=
  forall i res, Locals.results l !! i = Some res ->
                i <= Locals.left l \/ Locals.right l <= i.

Definition inconclusive (res : TestResult) : Prop :=
  status res = test_error \/ status res = system_error.

(** The locals of [bisect] before its loop. *)
Definition initial (versions : list SemVer.t) : Locals.t :=
  Locals.mk 0 (Z.of_nat (length versions) - 1) None [] ∅.

(** One turn of the loop of [bisect] from the locals [l], given the
    outcome of the run. *)
Definition after_run (l : Locals.t) (res : TestResult) : Locals.t :=
  let mid := midpoint (Locals.left l) (Locals.right l) in
  let testOrder := Locals.testOrder l ++ [mid] in
  let results := <[mid := res]> (Locals.results l) in
  match status res with
  | test_passed => Locals.mk mid (Locals.right l) (Some res) testOrder results
  | test_failed => Locals.mk (Locals.left l) mid (Some res) testOrder results
  | _ => Locals.mk (Locals.left l) (Locals.right l) (Some res) testOrder results
  end.

(** The window of [l] lies in a slice of [len] versions and the
    records of [l] are consistent with it. *)
Definition window_ok (len : Z) (l : Locals.t) : Prop :=
  0 <= Locals.left l /\ Locals.right l <= len - 1 /\
  Forall (inside len) (Locals.testOrder l) /\
  ends_recorded l.

(** How the loop of [bisect] leaves its locals [l'], having started
    from [l] and made the calls [d]: the window only shrank, nothing
    recorded was lost, one index was tested per run, and the loop ended
    because the window closed or because the last run was inconclusive. *)
Definition loop_post (len : Z) (l : Locals.t) (d : list Call) (l' : Locals.t) : Prop :=
  window_ok len l' /\
  Locals.left l <= Locals.left l' /\ Locals.right l' <= Locals.right l /\
  Locals.results l ⊆ Locals.results l' /\
  (exists new, Locals.testOrder l' = Locals.testOrder l ++ new /\
               length new = count_runs d) /\
  (~ (Locals.left l' + 1 < Locals.right l') \/
   exists res mid, Locals.result l' = Some res /\ inconclusive res /\
                   last (Locals.testOrder l') = Some mid /\
                   Locals.results l' !! mid = Some res).

(** ** A runner over the example feed *)

(** Nothing is on the file system, the installer hands back the version
    as the path of its executable, and [outcome] says how the child
    started from that path ends. *)
Definition test_collab (outcome : string -> ChildEvent) : Collaborators unit :=
  {| factory_create := fun src w =>
       (inr (Some match src with
                  | SrcFiddle f => f
                  | SrcDescriptor s => {| mainPath := s +:+ "/main.js"; source := s |}
                  end), w);
     fs_isDirectory := fun _ _ => None;
     fs_existsSync := fun _ _ => false;
     getExecPath := fun p => p;
     installer_install := fun v w => (inr v, w);
     child_spawn := fun exec _ w => (outcome exec, w);
     platform := "darwin" |}.

Definition test_runner (outcome : string -> ChildEvent) : Runner unit :=
  {| collab := test_collab outcome; catalog := feed_catalog |}.

Definition start : St unit := {| world := tt; calls := [] |}.

(** The child started from [exec] exits with the code listed for it. *)
Definition exits (codes : list (string * Z)) (exec : string) : ChildEvent :=
  match List.find (fun kv => String.eqb exec kv.1) codes with
  | Some kv => ChildExit (Some kv.2)
  | None => ChildError
  end.

Definition gist : FiddleSource := SrcDescriptor "gist".

(** The calls of a session that starts from [start]. *)
Definition session_calls {A} (outcome : Res A * St unit) : list Call := calls outcome.2.

(** Sessions over the example feed.  [session_five]: five versions whose
    first three pass and last two fail.  [session_failing]: three
    versions whose middle one fails.  [session_crashing]: three versions
    whose middle one exits with code 2.  [session_single]: both ends are
    the same version.  [session_late_crash]: seven versions; index 3
    passes, index 5 fails, index 4 exits with code 3. *)
Definition session_five : M unit BisectResult :=
  bisect (test_runner (exits [("10.0.0", 0); ("11.0.0", 0);
                              ("12.0.0-nightly.20200101", 0);
                              ("12.0.0-beta.1", 1); ("12.0.0", 1)]))
    (inr "10.0.0") (inr "12.0.0") gist DefaultRunnerOpts.

Definition session_failing : M unit BisectResult :=
  bisect (test_runner (exits [("12.0.1", 1)]))
    (inr "12.0.0") (inr "12.0.2") gist DefaultRunnerOpts.

Definition session_crashing : M unit BisectResult :=
  bisect (test_runner (exits [("12.0.1", 2)]))
    (inr "12.0.0") (inr "12.0.2") gist DefaultRunnerOpts.

Definition session_single : M unit BisectResult :=
  bisect (test_runner (exits [])) (inr "12.0.0") (inr "12.0.0") gist DefaultRunnerOpts.

Definition session_late_crash : M unit BisectResult :=
  bisect (test_runner (exits [("12.0.0-nightly.20200101", 0); ("12.0.0", 1);
                              ("12.0.0-beta.1", 3)]))
    (inr "9.0.0") (inr "12.0.1") gist DefaultRunnerOpts.

(** ** The self-populating catalog: [ElectronVersions] *)

Definition VERSION_CACHE_TTL_MS : Z := 4 * 60 * 60 * 1000.

(** [ElectronVersions.isCacheFresh].  Times are whole milliseconds, as
    [Date.now()] gives them; of a file time only the whole milliseconds
    count in the comparison with the whole numbers [now] and the TTL. *)
Definition isCacheFresh (cacheTimeMs now : Z) : bool :=
  now <=? cacheTimeMs + VERSION_CACHE_TTL_MS.

(** [!val] is false: the values JS takes for true in a condition. *)
Definition truthy (val : JsVal) : bool :=
  match val with
  | JUndefined | JNull | JBool false | JNum 0 | JStr EmptyString => false
  | _ => true
  end.

(** The cache file when [fs.stat] and [fs.readJson] both succeed. *)
Record CacheFile : Type := {
  st_mtimeMs : Z;
  cached : JsVal
}.

(** The fields of an [ElectronVersions] object that change: the map of
    its base class and [mtimeMs]. *)
Module ElectronVersions.
Record t : Type := mk {
  map : VersionMap;
  mtimeMs : Z
}.
End ElectronVersions.

(** A call of [fetch] that waits for [fetchVersions]: it holds the
    [mtimeMs] it read when it started. *)
Record FetchTask : Type := { saved_mtimeMs : Z }.

Section Refresh.

Variable semverParse : string -> option SemVer.t.

(** [ElectronVersions.create].  [net] is the answer of [fetchVersions]
    if it is asked: the document, or [None] when it rejects.  The second
    component tells whether it was asked. *)
Definition create (cache : option CacheFile) (now : Z) (net : option JsVal)
    : ElectronVersions.t * bool :=
  let versions := match cache with Some c => cached c | None => JUndefined end in
  let staleCache :=
    match cache with
    | Some c => negb (isCacheFresh (st_mtimeMs c) now)
    | None => false
    end in
  let refetch := negb (truthy versions) || staleCache in
  let versions :=
    if refetch then match net with Some fetched => fetched | None => versions end
    else versions in
  (ElectronVersions.mk (setVersions semverParse versions []) now, refetch).

(** [fetch] after its [await], for the call that had read [mtimeMs] as
    [task] says: with the document it loads it; when [fetchVersions]
    rejected it puts the [mtimeMs] it had read back. *)
Definition fetch_end (task : FetchTask) (answer : option JsVal)
    (o : ElectronVersions.t) : ElectronVersions.t :=
  match answer with
  | Some versions =>
      ElectronVersions.mk (setVersions semverParse versions (ElectronVersions.map o))
        (ElectronVersions.mtimeMs o)
  | None => ElectronVersions.mk (ElectronVersions.map o) (saved_mtimeMs task)
  end.

End Refresh.

(** A session with an [ElectronVersions] object: the object, how many
    times [Date.now()] was read so far, and the calls of [fetch] that
    wait for the network, in the order they started. *)
Record Session : Type := {
  obj : ElectronVersions.t;
  ticks : nat;
  waiting : list FetchTask
}.

(** Synchronous code of the object: it reads the clock and changes the
    session. *)
Definition EV (A : Type) : Type := Session -> A * Session.

Definition ev_ret {A} (a : A) : EV A := fun st => (a, st).

Definition ev_bind {A B} (c : EV A) (k : A -> EV B) : EV B :=
  fun st => k (c st).1 (c st).2.

Declare Scope ev_scope.
Delimit Scope ev_scope with ev.
Notation "x <- c ;; k" := (ev_bind c (fun x => k))
  (at level 100, c at next level, right associativity) : ev_scope.
Notation "c ;;; k" := (ev_bind c (fun _ => k))
  (at level 100, right associativity) : ev_scope.

(** The members of [Versions] that [ElectronVersions] overrides, and
    the type of what each returns. *)
Inductive Accessor : Type :=
  | GetPrereleaseMajors
  | GetStableMajors
  | GetSupportedMajors
  | GetObsoleteMajors
  | GetVersions
  | GetLatest
  | GetLatestStable
  | CallIsVersion (ver : SemOrStr)
  | CallInMajor (major : N)
  | CallInRange (a b : SemOrStr).

Definition Returns (acc : Accessor) : Type :=
  match acc with
  | GetPrereleaseMajors | GetStableMajors | GetSupportedMajors | GetObsoleteMajors =>
      list N
  | GetVersions | CallInMajor _ | CallInRange _ _ => list SemVer.t
  | GetLatest | GetLatestStable => option SemVer.t
  | CallIsVersion _ => bool
  end.

(** What the member of [BaseVersions] gives on the map [m]. *)
Definition super_result (acc : Accessor) (m : VersionMap) : Returns acc :=
  match acc as a return Returns a with
  | GetPrereleaseMajors => prereleaseMajors m
  | GetStableMajors => stableMajors m
  | GetSupportedMajors => supportedMajors m
  | GetObsoleteMajors => obsoleteMajors m
  | GetVersions => versions m
  | GetLatest => latest m
  | GetLatestStable => latestStable m
  | CallIsVersion ver => isVersion m ver
  | CallInMajor major => inMajor m major
  | CallInRange a b => inRange m a b
  end.

(** How many times a call of the member checks the age of the catalog:
    once in the override itself, and once more where the member of the
    base class reads [this.stableMajors] or [this.versions], which are
    the overrides again. *)
Definition checks (acc : Accessor) : nat :=
  match acc with
  | GetSupportedMajors | GetObsoleteMajors | GetLatest => 2
  | _ => 1
  end.

Section Clock.

Local Open Scope ev_scope.

(** The values that the successive calls of [Date.now()] return. *)
Variable clock : nat -> Z.

Definition Date_now : EV Z :=
  fun st => (clock (ticks st),
             {| obj := obj st; ticks := S (ticks st); waiting := waiting st |}).

Definition this_map : EV VersionMap := fun st => (ElectronVersions.map (obj st), st).

(** [fetch] up to its [await]: it reads [mtimeMs], sets it to the time
    of the call, and waits for [fetchVersions]. *)
Definition fetch_begin : EV unit :=
  fun st =>
    let mtimeMs := ElectronVersions.mtimeMs (obj st) in
    let '(now, st1) := Date_now st in
    (tt, {| obj := ElectronVersions.mk (ElectronVersions.map (obj st1)) now;
            ticks := ticks st1;
            waiting := waiting st1 ++ [{| saved_mtimeMs := mtimeMs |}] |}).

(** [keepFresh] up to its [await]. *)
Definition keepFresh : EV unit :=
  fun st =>
    let '(now, st1) := Date_now st in
    if negb (isCacheFresh (ElectronVersions.mtimeMs (obj st1)) now) then fetch_begin st1
    else (tt, st1).

(** The overrides: [void this.keepFresh(); return super.x].  The members
    of the base class read [this.map], except [supportedMajors] and
    [obsoleteMajors], which read [this.stableMajors], and [latest],
    which reads [this.versions]. *)
Definition get_prereleaseMajors : EV (list N) :=
  keepFresh ;;; m <- this_map ;; ev_ret (prereleaseMajors m).

Definition get_stableMajors : EV (list N) :=
  keepFresh ;;; m <- this_map ;; ev_ret (stableMajors m).

Definition get_supportedMajors : EV (list N) :=
  keepFresh ;;; majors <- get_stableMajors ;;
  ev_ret (js_slice_from majors (- NUM_SUPPORTED_MAJORS)).

Definition get_obsoleteMajors : EV (list N) :=
  keepFresh ;;; majors <- get_stableMajors ;;
  ev_ret (js_slice majors 0 (- NUM_SUPPORTED_MAJORS)).

Definition get_versions : EV (list SemVer.t) :=
  keepFresh ;;; m <- this_map ;; ev_ret (versions m).

Definition get_latest : EV (option SemVer.t) :=
  keepFresh ;;; vs <- get_versions ;; ev_ret (last vs).

Definition get_latestStable : EV (option SemVer.t) :=
  keepFresh ;;; m <- this_map ;; ev_ret (latestStable m).

Definition call_isVersion (ver : SemOrStr) : EV bool :=
  keepFresh ;;; m <- this_map ;; ev_ret (isVersion m ver).

Definition call_inMajor (major : N) : EV (list SemVer.t) :=
  keepFresh ;;; m <- this_map ;; ev_ret (inMajor m major).

Definition call_inRange (a b : SemOrStr) : EV (list SemVer.t) :=
  keepFresh ;;; m <- this_map ;; ev_ret (inRange m a b).

Definition invoke (acc : Accessor) : EV (Returns acc) :=
  match acc as a return EV (Returns a) with
  | GetPrereleaseMajors => get_prereleaseMajors
  | GetStableMajors => get_stableMajors
  | GetSupportedMajors => get_supportedMajors
  | GetObsoleteMajors => get_obsoleteMajors
  | GetVersions => get_versions
  | GetLatest => get_latest
  | GetLatestStable => get_latestStable
  | CallIsVersion ver => call_isVersion ver
  | CallInMajor major => call_inMajor major
  | CallInRange a b => call_inRange a b
  end.

End Clock.

(** The session as an accessor leaves it after [n] readings of the
    clock, with the object [o] and the fetches [started] added. *)
Definition session_after (st : Session) (n : nat) (o : ElectronVersions.t)
    (started : list FetchTask) : Session :=
  {| obj := o; ticks := ticks st + n; waiting := waiting st ++ started |}.

(** ** [Runner.spawnSync] *)

(** What [child_process.spawnSync] returns once the child has ended:
    the exit code, and what the child wrote to its standard output,
    [None] standing for [null], which it is when the child could not be
    started. *)
Record SyncReturns : Type := {
  sync_status : option Z;
  stdout : option string
}.

(** The options of [spawnSync]: those that decide what is run, and
    [out], the stream that [spawnSync] writes the output of the child
    to.  [out] is [None] when the caller gives none, and then the
    default [process.stdout] is used; [Some true] when the caller gives
    a stream and [Some false] when the caller gives [undefined]. *)
Record SyncOptions : Type := {
  spawn_opts : RunnerOptions;
  out : option bool
}.

Section RunnerSync.

Context {World : Type}.
Variable r : Runner World.

(** [child_process.spawnSync], which runs the child to its end. *)
Variable child_spawnSync : string -> list string -> World -> SyncReturns * World.

(** [opts.out.write(result.stdout)]: writing [null] to a stream throws
    a [TypeError]; writing a string does not. *)
Definition write_stdout (result : SyncReturns) : M World unit :=
  match stdout result with
  | Some _ => ret tt
  | None => throw TypeError
  end.

Definition spawnSync (versionIn : SemOrStr) (fiddleIn : FiddleSource)
    (optsIn : SyncOptions) : M World SyncReturns :=
  let opts := merge_opts DefaultRunnerOpts (spawn_opts optsIn) in
  let opts_out := default true (out optsIn) in
  let version := canonical versionIn in
  record_call (CallCreate fiddleIn) ;;;
  fiddle <- external (factory_create (collab r) fiddleIn) ;;
  match fiddle with
  | None => throw InvalidFiddle
  | Some fiddle =>
      electronExec <- getExec r version ;;
      let exec := electronExec in
      let argv := default [] (args opts) ++ [mainPath fiddle] in
      let '(exec, argv) :=
        if default false (headless opts) then headless_command r exec argv
        else (exec, argv) in
      record_call (CallSpawn exec argv) ;;;
      result <- (fun s =>
                   let '(result, w) := child_spawnSync exec argv (world s) in
                   (Ok result, {| world := w; calls := calls s |})) ;;
      (if opts_out then write_stdout result else ret tt) ;;;
      ret result
  end.

End RunnerSync.


(** A release without prerelease identifiers. *)
Definition stable (v : SemVer.t) : Prop := SemVer.prerelease v = [].

#[global] Instance stable_dec (v : SemVer.t) : Decision (stable v).
Proof. unfold stable. apply _. Defined.

(** ** Shapes of feed documents *)

(** A feed of plain strings. *)
Definition strings_doc (ss : list string) : JsVal := JArr (JStr <$> ss).

(** A feed of records, each one given by its fields, and what it is for
    a record to carry the string [s] in its field [version]: the other
    fields are free. *)
Definition records_doc (recs : list (list (string * JsVal))) : JsVal :=
  JArr (JObj <$> recs).

Definition carries (fields : list (string * JsVal)) (s : string) : Prop :=
  get_prop "version" fields = Some (JStr s).

(** Two records as the release feed has them. *)
Definition release_records : list (list (string * JsVal)) :=
  [ [("version", JStr "12.0.1"); ("date", JStr "2021-02-02");
     ("files", JArr [JStr "linux-x64"; JStr "darwin-x64"])];
    [("node", JStr "12.14.1"); ("version", JStr "9.0.0"); ("npm_dist_tags", JArr [])] ].


(** ** More about the locals of [bisect] *)

(** Every recorded outcome is for an index that was tested. *)
Definition recorded_tested (l : Locals.t) : Prop :=
  forall i res, Locals.results l !! i = Some res -> i ∈ Locals.testOrder l.

(** Once an index was tested, the window is not empty. *)
Definition ordered (l : Locals.t) : Prop :=
  Locals.testOrder l <> [] -> Locals.left l < Locals.right l.

(** ** Reading the commands of a session *)


(** ** The ordering by (major, minor, patch) alone *)

(** The triple of [a] is not after the triple of [b]. *)
Definition triple_le (a b : SemVer.t) : Prop :=
  SemVer.triple_lt a b \/ SemVer.triple a = SemVer.triple b.

(** A document on which the ordering is exact: every entry that parses
    gives a version that [SemVer.wf] accepts, that is, no prerelease
    identifier of an entry is a string of digits worth
    [MAX_SAFE_INTEGER] or more. *)
Definition exact_document (semverParse : string -> option SemVer.t) (val : JsVal) : bool :=
  forallb (from_option SemVer.wf true) (parsed_of semverParse val).

(** ** A feed with long numeric identifiers *)

(** Three prereleases of 1.0.0 as [semver.parse] returns them: an
    identifier made of digits whose value reaches [MAX_SAFE_INTEGER]
    stays a string. *)
Definition big_x : SemVer.t :=
  release 1 0 0 [SemVer.IStr "9007199254740992"; SemVer.IStr "x"].

Definition big_odd : SemVer.t := release 1 0 0 [SemVer.IStr "9007199254740993"].

Definition big_even : SemVer.t := release 1 0 0 [SemVer.IStr "9007199254740992"].

Definition parse_big (s : string) : option SemVer.t :=
  List.find (fun v => String.eqb (SemVer.version v) s) [big_x; big_odd; big_even].

Definition big_feed : JsVal :=
  JArr [ JStr "1.0.0-9007199254740992.x"; JStr "1.0.0-9007199254740993";
         JStr "1.0.0-9007199254740992" ].

(** * Properties *)

(** ** Strings and identifiers *)

Lemma ascii_compare_refl (a : ascii) : Ascii.compare a a = Eq.
Proof. unfold Ascii.compare. apply N.compare_refl. Qed.

Lemma string_compare_refl (s : string) : String.compare s s = Eq.
Proof. induction s as [|a s IH]; simpl; [done|]. by rewrite ascii_compare_refl. Qed.

Lemma string_compare_eq (s u : string) : String.compare s u = Eq <-> s = u.
Proof.
  split; [apply String.compare_eq_iff|].
  intros ->. apply string_compare_refl.
Qed.

Lemma ascii_compare_lt_trans (a b c : ascii) :
  Ascii.compare a b = Lt -> Ascii.compare b c = Lt -> Ascii.compare a c = Lt.
Proof.
  unfold Ascii.compare. rewrite !N.compare_lt_iff. lia.
Qed.

Lemma string_compare_lt_trans (s u v : string) :
  String.compare s u = Lt -> String.compare u v = Lt -> String.compare s v = Lt.
Proof.
  revert u v. induction s as [|a s IH]; intros [|b u] [|c v]; simpl; try done.
  destruct (Ascii.compare a b) eqn:Hab; try done;
    destruct (Ascii.compare b c) eqn:Hbc; try done; intros H1 H2.
  - apply Ascii.compare_eq_iff in Hab, Hbc. subst.
    rewrite ascii_compare_refl. eauto.
  - apply Ascii.compare_eq_iff in Hab. subst. by rewrite Hbc.
  - apply Ascii.compare_eq_iff in Hbc. subst. by rewrite Hab.
  - by rewrite (ascii_compare_lt_trans a b c).
Qed.

Lemma string_compare_gt_lt (s u : string) :
  String.compare s u = Gt <-> String.compare u s = Lt.
Proof.
  rewrite (String.compare_antisym u s).
  destruct (String.compare s u); simpl; split; congruence.
Qed.

Module SemVerFacts.
Import SemVer.

Lemma strict_eq_iff (a b : Identifier) : strict_eq a b = true <-> a = b.
Proof.
  destruct a, b; simpl; try (split; congruence).
  - rewrite N.eqb_eq. split; congruence.
  - rewrite String.eqb_eq. split; congruence.
Qed.

Lemma strict_eq_refl (a : Identifier) : strict_eq a a = true.
Proof. by apply strict_eq_iff. Qed.

Lemma wf_ident_str_not_numeric (s : string) :
  wf_ident (IStr s) = true -> numeric (IStr s) = false.
Proof.
  simpl. intros H. apply andb_true_iff in H as [_ H].
  apply negb_true_iff in H. rewrite H. apply andb_false_r.
Qed.

(** On identifiers that [wf_ident] accepts, [compareIdentifiers] is
    [ident_order]. *)
Lemma compareIdentifiers_wf (a b : Identifier) :
  wf_ident a = true -> wf_ident b = true ->
  compareIdentifiers a b = ident_order a b.
Proof.
  intros Ha Hb. unfold compareIdentifiers.
  destruct a as [n|s], b as [m|u].
  - done.
  - rewrite (wf_ident_str_not_numeric u Hb). done.
  - rewrite (wf_ident_str_not_numeric s Ha). done.
  - rewrite (wf_ident_str_not_numeric s Ha), (wf_ident_str_not_numeric u Hb).
    simpl. unfold String.ltb.
    destruct (String.eqb_spec s u) as [->|Hne].
    + by rewrite string_compare_refl.
    + destruct (String.compare s u) eqn:Hc; try done.
      apply string_compare_eq in Hc. done.
Qed.

Ltac case_compareNum :=
  unfold compareNum in *;
  repeat match goal with
    | |- context [N.eqb ?x ?y] => destruct (N.eqb_spec x y)
    | H : context [N.eqb ?x ?y] |- _ => destruct (N.eqb_spec x y)
    | |- context [N.ltb ?x ?y] => destruct (N.ltb_spec x y)
    | H : context [N.ltb ?x ?y] |- _ => destruct (N.ltb_spec x y)
    end.

Lemma ident_order_cases (a b : Identifier) :
  (ident_order a b = 0 /\ a = b) \/
  (ident_order a b = -1 /\ ident_order b a = 1 /\ a <> b) \/
  (ident_order a b = 1 /\ ident_order b a = -1 /\ a <> b).
Proof.
  destruct a as [n|s], b as [m|u]; simpl.
  - case_compareNum; subst; try lia.
    + by left.
    + right; left. repeat split; auto. intros [= ?]. lia.
    + right; right. repeat split; auto. intros [= ?]. lia.
  - right; left. done.
  - right; right. done.
  - destruct (String.compare s u) eqn:Hc.
    + apply string_compare_eq in Hc as ->. by left.
    + right; left. apply string_compare_gt_lt in Hc as Hc'. rewrite Hc'.
      repeat split; auto. intros [= ->]. by rewrite string_compare_refl in Hc.
    + right; right. apply string_compare_gt_lt in Hc as Hc'. rewrite Hc'.
      repeat split; auto. intros [= ->]. by rewrite string_compare_refl in Hc.
Qed.

Lemma ident_order_trans (a b c : Identifier) :
  ident_order a b = -1 -> ident_order b c = -1 -> ident_order a c = -1.
Proof.
  destruct a as [n|s], b as [m|u], c as [k|v]; simpl; try done.
  - intros H1 H2. case_compareNum; subst; lia.
  - destruct (String.compare s u) eqn:H1; try done.
    destruct (String.compare u v) eqn:H2; try done.
    by rewrite (string_compare_lt_trans s u v).
Qed.

Lemma wf_ident_cons (a : Identifier) (p : list Identifier) :
  forallb wf_ident (a :: p) = true <-> wf_ident a = true /\ forallb wf_ident p = true.
Proof. simpl. apply andb_true_iff. Qed.

Lemma comparePre_from_refl (p : list Identifier) : comparePre_from p p = 0.
Proof. induction p as [|a p IH]; simpl; [done|]. by rewrite strict_eq_refl. Qed.

Lemma comparePre_from_cases (p q : list Identifier) :
  forallb wf_ident p = true -> forallb wf_ident q = true ->
  (comparePre_from p q = 0 /\ p = q) \/
  (comparePre_from p q = -1 /\ comparePre_from q p = 1 /\ p <> q) \/
  (comparePre_from p q = 1 /\ comparePre_from q p = -1 /\ p <> q).
Proof.
  revert q. induction p as [|a p IH]; intros [|b q] Hp Hq; simpl.
  - by left.
  - right; left. done.
  - right; right. done.
  - apply wf_ident_cons in Hp as [Ha Hp]. apply wf_ident_cons in Hq as [Hb Hq].
    destruct (strict_eq a b) eqn:Heq.
    + apply strict_eq_iff in Heq as ->. rewrite strict_eq_refl.
      destruct (IH q Hp Hq) as [[-> ->]|[(-> & -> & Hne)|(-> & -> & Hne)]].
      * by left.
      * right; left. repeat split; auto. congruence.
      * right; right. repeat split; auto. congruence.
    + assert (a <> b) as Hab.
      { intros ->. by rewrite strict_eq_refl in Heq. }
      assert (strict_eq b a = false) as ->.
      { apply not_true_is_false. rewrite strict_eq_iff. congruence. }
      rewrite !compareIdentifiers_wf by done.
      destruct (ident_order_cases a b) as [[_ ?]|[(-> & -> & _)|(-> & -> & _)]].
      * done.
      * right; left. repeat split; auto. congruence.
      * right; right. repeat split; auto. congruence.
Qed.

Lemma comparePre_from_trans (p q r : list Identifier) :
  forallb wf_ident p = true -> forallb wf_ident q = true ->
  forallb wf_ident r = true ->
  comparePre_from p q = -1 -> comparePre_from q r = -1 -> comparePre_from p r = -1.
Proof.
  revert q r. induction p as [|a p IH]; intros [|b q] [|c r] Hp Hq Hr; simpl; try done.
  apply wf_ident_cons in Hp as [Ha Hp]. apply wf_ident_cons in Hq as [Hb Hq].
  apply wf_ident_cons in Hr as [Hc Hr].
  destruct (strict_eq a b) eqn:Hab.
  - apply strict_eq_iff in Hab as ->.
    destruct (strict_eq b c) eqn:Hbc; [by eauto|done].
  - destruct (strict_eq b c) eqn:Hbc.
    + apply strict_eq_iff in Hbc as ->. by rewrite Hab.
    + rewrite !compareIdentifiers_wf by done. intros H1 H2.
      pose proof (ident_order_trans a b c H1 H2) as H3.
      destruct (strict_eq a c) eqn:Hac; [|done].
      apply strict_eq_iff in Hac as ->.
      destruct (ident_order_cases c c) as [[? _]|[(_ & _ & ?)|(_ & _ & ?)]]; [lia|done|done].
Qed.

Lemma wf_prerelease (a : t) : wf a = true -> forallb wf_ident (prerelease a) = true.
Proof. unfold wf. rewrite !andb_true_iff. tauto. Qed.

Lemma comparePre_refl (a : t) : comparePre a a = 0.
Proof.
  unfold comparePre. destruct (prerelease a); simpl; [done|].
  by rewrite strict_eq_refl, comparePre_from_refl.
Qed.

Lemma comparePre_cases (a b : t) :
  wf a = true -> wf b = true ->
  (comparePre a b = 0 /\ prerelease a = prerelease b) \/
  (comparePre a b = -1 /\ comparePre b a = 1 /\ prerelease a <> prerelease b) \/
  (comparePre a b = 1 /\ comparePre b a = -1 /\ prerelease a <> prerelease b).
Proof.
  intros Ha%wf_prerelease Hb%wf_prerelease. unfold comparePre.
  destruct (prerelease a) as [|x p] eqn:Ea, (prerelease b) as [|y q] eqn:Eb;
    cbn [is_nil negb andb].
  - by left.
  - right; right. done.
  - right; left. done.
  - apply (comparePre_from_cases (x :: p) (y :: q)); done.
Qed.

Lemma comparePre_trans (a b c : t) :
  wf a = true -> wf b = true -> wf c = true ->
  comparePre a b = -1 -> comparePre b c = -1 -> comparePre a c = -1.
Proof.
  intros Ha%wf_prerelease Hb%wf_prerelease Hc%wf_prerelease. unfold comparePre.
  destruct (prerelease a) as [|x p] eqn:Ea, (prerelease b) as [|y q] eqn:Eb,
    (prerelease c) as [|z r] eqn:Ec; cbn [is_nil negb andb]; try done.
  apply (comparePre_from_trans (x :: p) (y :: q) (z :: r)); done.
Qed.

Lemma compareNum_cases (x y : N) :
  (compareNum x y = -1 /\ (x < y)%N) \/ (compareNum x y = 0 /\ x = y)
  \/ (compareNum x y = 1 /\ (y < x)%N).
Proof. case_compareNum; lia. Qed.

Lemma compareMain_spec (a b : t) :
  (compareMain a b = -1 /\ triple_lt a b) \/
  (compareMain a b = 0 /\ triple a = triple b) \/
  (compareMain a b = 1 /\ triple_lt b a).
Proof.
  unfold compareMain, triple_lt, triple, or_else.
  destruct (compareNum_cases (major a) (major b)) as [[-> ?]|[[-> ->]|[-> ?]]];
    simpl; [left; split; [done|lia] | | right; right; split; [done|lia]].
  destruct (compareNum_cases (minor a) (minor b)) as [[-> ?]|[[-> ->]|[-> ?]]];
    simpl; [left; split; [done|lia] | | right; right; split; [done|lia]].
  destruct (compareNum_cases (patch a) (patch b)) as [[-> ?]|[[-> ->]|[-> ?]]];
    simpl; [left; split; [done|lia] | | right; right; split; [done|lia]].
  right; left. done.
Qed.

Lemma triple_lt_irrefl (a b : t) : triple a = triple b -> ~ triple_lt a b.
Proof. unfold triple, triple_lt. intros [= -> -> ->]. lia. Qed.

Lemma triple_lt_asym (a b : t) : triple_lt a b -> ~ triple_lt b a.
Proof. unfold triple_lt. lia. Qed.

Lemma triple_lt_trans (a b c : t) : triple_lt a b -> triple_lt b c -> triple_lt a c.
Proof. unfold triple_lt. lia. Qed.

Lemma triple_lt_eq_r (a b c : t) : triple_lt a b -> triple b = triple c -> triple_lt a c.
Proof. unfold triple, triple_lt. intros H [= <- <- <-]. done. Qed.

Lemma triple_lt_eq_l (a b c : t) : triple a = triple b -> triple_lt b c -> triple_lt a c.
Proof. unfold triple, triple_lt. intros [= -> -> ->] H. done. Qed.

Lemma compareMain_lt (a b : t) : compareMain a b = -1 <-> triple_lt a b.
Proof.
  destruct (compareMain_spec a b) as [[-> H]|[[-> H]|[-> H]]]; split; try done.
  - intros H'. by apply triple_lt_irrefl in H'.
  - intros H'. by apply triple_lt_asym in H'.
Qed.

Lemma compareMain_eq (a b : t) : compareMain a b = 0 <-> triple a = triple b.
Proof.
  destruct (compareMain_spec a b) as [[-> H]|[[-> H]|[-> H]]]; split; try done.
  - intros H'. by apply triple_lt_irrefl in H.
  - intros H'. symmetry in H'. by apply triple_lt_irrefl in H.
Qed.

Lemma compareMain_gt (a b : t) : compareMain a b = 1 <-> triple_lt b a.
Proof.
  destruct (compareMain_spec a b) as [[-> H]|[[-> H]|[-> H]]]; split; try done.
  - intros H'. by apply triple_lt_asym in H'.
  - intros H'. symmetry in H. by apply triple_lt_irrefl in H'.
Qed.

End SemVerFacts.

(** ** The canonical string determines the release *)

Module FormatFacts.
Import SemVer SemVerFacts.

Lemma append_nil (t : string) : EmptyString +:+ t = t.
Proof. reflexivity. Qed.

Lemma append_cons (c : ascii) (s t : string) : String c s +:+ t = String c (s +:+ t).
Proof. reflexivity. Qed.

Lemma append_nil_r (s : string) : s +:+ EmptyString = s.
Proof. induction s as [|c s IH]; [done|]. by rewrite append_cons, IH. Qed.

Lemma prefix_split (P : ascii -> bool) (s1 s2 t1 t2 : string) :
  all_chars P s1 = true -> all_chars P s2 = true ->
  stops P t1 = true -> stops P t2 = true ->
  s1 +:+ t1 = s2 +:+ t2 -> s1 = s2 /\ t1 = t2.
Proof.
  revert s2. induction s1 as [|c s1 IH]; intros [|d s2]; simpl;
    intros H1 H2 T1 T2 E; rewrite ?append_nil, ?append_cons in E.
  - done.
  - subst t1. simpl in T1. apply andb_true_iff in H2 as [H2 _].
    rewrite H2 in T1. done.
  - subst t2. simpl in T2. apply andb_true_iff in H1 as [H1 _].
    rewrite H1 in T2. done.
  - apply andb_true_iff in H1 as [_ H1]. apply andb_true_iff in H2 as [_ H2].
    injection E as -> E. destruct (IH s2 H1 H2 T1 T2 E) as [-> ->]. done.
Qed.

Lemma all_chars_mono (P Q : ascii -> bool) (s : string) :
  (forall c, P c = true -> Q c = true) -> all_chars P s = true -> all_chars Q s = true.
Proof.
  intros HPQ. induction s as [|c s IH]; simpl; [done|].
  rewrite !andb_true_iff. intros [? ?]. auto.
Qed.

Lemma all_digits_uint (u : Decimal.uint) :
  all_digits (NilEmpty.string_of_uint u) = true.
Proof. induction u; simpl; try done; by rewrite IHu. Qed.

Lemma all_digits_dec (n : N) : all_digits (dec n) = true.
Proof. apply all_digits_uint. Qed.

Lemma dec_inj (n m : N) : dec n = dec m -> n = m.
Proof.
  unfold dec. intros H.
  assert (N.to_uint n = N.to_uint m) as Hu.
  { apply (f_equal NilEmpty.uint_of_string) in H.
    rewrite !NilEmpty.usu in H. congruence. }
  apply (f_equal N.of_uint) in Hu. by rewrite !DecimalN.Unsigned.of_to in Hu.
Qed.

Lemma digit_not_dot (c : ascii) : is_digit c = true -> not_dot c = true.
Proof.
  unfold is_digit, not_dot. intros H.
  destruct (Ascii.eqb_spec c "."%char) as [->|]; [|done].
  vm_compute in H. done.
Qed.

Lemma ident_char_not_dot (c : ascii) : ident_char c = true -> not_dot c = true.
Proof.
  unfold not_dot. intros H.
  destruct (Ascii.eqb_spec c "."%char) as [->|]; [|done].
  vm_compute in H. done.
Qed.

Lemma ident_str_not_dot (i : Identifier) :
  wf_ident i = true -> all_chars not_dot (ident_str i) = true.
Proof.
  destruct i as [n|s]; simpl; intros H.
  - eapply all_chars_mono; [apply digit_not_dot|apply all_digits_dec].
  - rewrite !andb_true_iff in H. destruct H as [[_ H] _].
    eapply all_chars_mono; [apply ident_char_not_dot|done].
Qed.

Lemma ident_str_inj (i j : Identifier) :
  wf_ident i = true -> wf_ident j = true -> ident_str i = ident_str j -> i = j.
Proof.
  destruct i as [n|s], j as [m|u]; simpl; intros Hi Hj E.
  - f_equal. by apply dec_inj.
  - subst u. rewrite !andb_true_iff in Hj. destruct Hj as [_ Hj].
    by rewrite all_digits_dec in Hj.
  - subst s. rewrite !andb_true_iff in Hi. destruct Hi as [_ Hi].
    by rewrite all_digits_dec in Hi.
  - by subst.
Qed.

Lemma join_cons (x : string) (l : list string) :
  join "." (x :: l) = x +:+ match l with [] => EmptyString | _ => "." +:+ join "." l end.
Proof.
  destruct l; simpl; [|done]. by rewrite append_nil_r.
Qed.

Lemma join_idents_inj (p q : list Identifier) :
  forallb wf_ident p = true -> forallb wf_ident q = true ->
  p <> [] -> q <> [] ->
  join "." (ident_str <$> p) = join "." (ident_str <$> q) -> p = q.
Proof.
  revert q. induction p as [|a p IH]; intros [|b q] Hp Hq Np Nq; try done.
  apply wf_ident_cons in Hp as [Ha Hp]. apply wf_ident_cons in Hq as [Hb Hq].
  rewrite !fmap_cons, !join_cons. intros E.
  apply (prefix_split not_dot) in E as [E1 E2].
  - apply ident_str_inj in E1 as ->; try done.
    destruct p as [|a' p], q as [|b' q]; try done.
    f_equal. apply IH; try done. rewrite !fmap_cons in E2 |- *. cbv beta iota in E2.
    rewrite !append_cons, !append_nil in E2. congruence.
  - by apply ident_str_not_dot.
  - by apply ident_str_not_dot.
  - by destruct p.
  - by destruct q.
Qed.

Lemma string_tail_inj (c : ascii) (s u : string) : String c s = String c u -> s = u.
Proof. congruence. Qed.

Lemma version_inj (a b : SemVer.t) :
  wf a = true -> wf b = true -> version a = version b ->
  triple a = triple b /\ prerelease a = prerelease b.
Proof.
  intros Ha%wf_prerelease Hb%wf_prerelease. unfold version, triple.
  intros E.
  apply (prefix_split is_digit) in E as [E1 E];
    [|apply all_digits_dec|apply all_digits_dec|reflexivity|reflexivity].
  rewrite ?append_cons, ?append_nil in E. apply string_tail_inj in E.
  apply (prefix_split is_digit) in E as [E2 E];
    [|apply all_digits_dec|apply all_digits_dec|reflexivity|reflexivity].
  rewrite ?append_cons, ?append_nil in E. apply string_tail_inj in E.
  apply (prefix_split is_digit) in E as [E3 E];
    [|apply all_digits_dec|apply all_digits_dec
     |destruct (prerelease a); reflexivity|destruct (prerelease b); reflexivity].
  apply dec_inj in E1, E2, E3. split; [congruence|].
  destruct (prerelease a) as [|x p] eqn:Pa, (prerelease b) as [|y q] eqn:Pb;
    rewrite ?append_cons, ?append_nil in E; try discriminate E; [done|].
  apply string_tail_inj in E. by apply join_idents_inj.
Qed.

Lemma version_triple (a b : SemVer.t) : version a = version b -> triple a = triple b.
Proof.
  unfold version, triple. intros E.
  apply (prefix_split is_digit) in E as [E1 E];
    [|apply all_digits_dec|apply all_digits_dec|reflexivity|reflexivity].
  rewrite ?append_cons, ?append_nil in E. apply string_tail_inj in E.
  apply (prefix_split is_digit) in E as [E2 E];
    [|apply all_digits_dec|apply all_digits_dec|reflexivity|reflexivity].
  rewrite ?append_cons, ?append_nil in E. apply string_tail_inj in E.
  apply (prefix_split is_digit) in E as [E3 E];
    [|apply all_digits_dec|apply all_digits_dec
     |destruct (prerelease a); reflexivity|destruct (prerelease b); reflexivity].
  apply dec_inj in E1, E2, E3. congruence.
Qed.

Lemma version_of_fields (a b : SemVer.t) :
  triple a = triple b -> prerelease a = prerelease b -> version a = version b.
Proof. unfold version, triple. intros [= -> -> ->] ->. done. Qed.

End FormatFacts.

(** ** [compareVersions] is a strict total order *)

Section Ordering.
Import SemVer SemVerFacts.

Lemma compareVersions_unfold (a b : SemVer.t) :
  compareVersions a b =
  if negb (compareMain a b =? 0) then compareMain a b
  else if nightly a && negb (nightly b) then -1
  else if negb (nightly a) && nightly b then 1
  else comparePre a b.
Proof. reflexivity. Qed.

Lemma compareVersions_lt_iff (a b : SemVer.t) :
  compareVersions a b = -1 <->
  triple_lt a b \/
  (triple a = triple b /\
   ((nightly a = true /\ nightly b = false) \/
    (nightly a = nightly b /\ comparePre a b = -1))).
Proof.
  rewrite compareVersions_unfold.
  destruct (compareMain_spec a b) as [[-> H]|[[-> H]|[-> H]]]; simpl.
  - split; auto.
  - pose proof (triple_lt_irrefl a b H) as Hirr.
    destruct (nightly a), (nightly b); simpl; split; try tauto; try (intros; lia);
      intros [Hlt|(_ & [[? ?]|[? ?]])]; done.
  - split; [done|].
    intros [Hlt|[Heq _]].
    + by apply triple_lt_asym in Hlt.
    + symmetry in Heq. by apply triple_lt_irrefl in H.
Qed.

Lemma compareVersions_refl (a : SemVer.t) : compareVersions a a = 0.
Proof.
  rewrite compareVersions_unfold.
  assert (compareMain a a = 0) as -> by by apply compareMain_eq.
  simpl. destruct (nightly a); simpl; apply comparePre_refl.
Qed.

Lemma compareVersions_cases (a b : SemVer.t) :
  wf a = true -> wf b = true ->
  (compareVersions a b = -1 /\ compareVersions b a = 1) \/
  (compareVersions a b = 0 /\ compareVersions b a = 0 /\
   triple a = triple b /\ prerelease a = prerelease b) \/
  (compareVersions a b = 1 /\ compareVersions b a = -1).
Proof.
  intros Ha Hb. rewrite !compareVersions_unfold.
  destruct (compareMain_spec a b) as [[E H]|[[E H]|[E H]]]; rewrite E; simpl.
  - apply compareMain_gt in H. rewrite H. by left.
  - assert (compareMain b a = 0) as -> by by apply compareMain_eq.
    simpl.
    destruct (nightly a), (nightly b); simpl;
      [|by left|by right; right|];
      destruct (comparePre_cases a b Ha Hb) as [[-> ?]|[(-> & -> & ?)|(-> & -> & ?)]];
      solve [ by left | by right; right
            | right; left; rewrite comparePre_refl || idtac; repeat split; auto;
              match goal with H : prerelease _ = prerelease _ |- _ =>
                unfold comparePre; rewrite H; fold (comparePre b b);
                apply comparePre_refl end ].
  - apply compareMain_lt in H. rewrite H. by right; right.
Qed.

Lemma compareVersions_trans (a b c : SemVer.t) :
  wf a = true -> wf b = true -> wf c = true ->
  compareVersions a b = -1 -> compareVersions b c = -1 -> compareVersions a c = -1.
Proof.
  intros Ha Hb Hc. rewrite !compareVersions_lt_iff.
  intros [H1|(E1 & H1)] [H2|(E2 & H2)].
  - left. by eapply triple_lt_trans.
  - left. by eapply triple_lt_eq_r.
  - left. by eapply triple_lt_eq_l.
  - right. split; [congruence|].
    destruct H1 as [[Na Nb]|[Nab P1]], H2 as [[Nb' Nc]|[Nbc P2]].
    + congruence.
    + left. split; congruence.
    + left. split; congruence.
    + right. split; [congruence|]. by apply (comparePre_trans a b c).
Qed.

End Ordering.

Section OrderingFacts.
Import SemVer SemVerFacts FormatFacts.

Lemma compareVersions_ext (a a' b b' : SemVer.t) :
  triple a = triple a' -> prerelease a = prerelease a' ->
  triple b = triple b' -> prerelease b = prerelease b' ->
  compareVersions a b = compareVersions a' b'.
Proof.
  unfold compareVersions, compareMain, comparePre, triple.
  intros [= -> -> ->] -> [= -> -> ->] ->. done.
Qed.

Lemma compareVersions_same_version (a a' b b' : SemVer.t) :
  wf a = true -> wf a' = true -> wf b = true -> wf b' = true ->
  version a = version a' -> version b = version b' ->
  compareVersions a b = compareVersions a' b'.
Proof.
  intros Ha Ha' Hb Hb' [? ?]%version_inj [? ?]%version_inj; try done.
  by apply compareVersions_ext.
Qed.

Lemma compareVersions_zero_iff (a b : SemVer.t) :
  wf a = true -> wf b = true ->
  compareVersions a b = 0 <-> version a = version b.
Proof.
  intros Ha Hb. split.
  - intros H. destruct (compareVersions_cases a b Ha Hb)
      as [[? ?]|[(_ & _ & ? & ?)|[? ?]]]; try lia.
    by apply version_of_fields.
  - intros E. rewrite <- (compareVersions_same_version a a a b); try done.
    apply compareVersions_refl.
Qed.

Lemma version_le_total (a b : SemVer.t) :
  wf a = true -> wf b = true -> version_le a b \/ version_le b a.
Proof.
  intros Ha Hb. unfold version_le.
  destruct (compareVersions_cases a b Ha Hb) as [[? ?]|[(? & ? & _)|[? ?]]]; lia.
Qed.

Lemma version_lt_trans (a b c : SemVer.t) :
  wf a = true -> wf b = true -> wf c = true ->
  version_lt a b -> version_lt b c -> version_lt a c.
Proof.
  intros Ha Hb Hc. unfold version_lt. intros H1 H2.
  destruct (compareVersions_cases a b Ha Hb) as [[E1 _]|[(? & _)|[? _]]]; try lia.
  destruct (compareVersions_cases b c Hb Hc) as [[E2 _]|[(? & _)|[? _]]]; try lia.
  rewrite (compareVersions_trans a b c); done.
Qed.

Lemma version_le_trans (a b c : SemVer.t) :
  wf a = true -> wf b = true -> wf c = true ->
  version_le a b -> version_le b c -> version_le a c.
Proof.
  intros Ha Hb Hc. unfold version_le. intros H1 H2.
  destruct (compareVersions_cases a b Ha Hb) as [[E1 _]|[(E1 & _ & T1 & P1)|[? _]]];
    try lia;
    destruct (compareVersions_cases b c Hb Hc) as [[E2 _]|[(E2 & _ & T2 & P2)|[? _]]];
    try lia.
  - rewrite (compareVersions_trans a b c); done.
  - rewrite (compareVersions_ext a a c b); try done; lia.
  - rewrite (compareVersions_ext a b c c); try done; lia.
  - rewrite (compareVersions_ext a b c c); try done; lia.
Qed.

Lemma version_lt_of_le (a b : SemVer.t) :
  wf a = true -> wf b = true ->
  version_le a b -> version a <> version b -> version_lt a b.
Proof.
  intros Ha Hb Hle Hne. unfold version_le, version_lt in *.
  assert (compareVersions a b <> 0); [|lia].
  by rewrite compareVersions_zero_iff.
Qed.

Lemma version_lt_major (a b : SemVer.t) :
  version_lt a b -> (major a <= major b)%N.
Proof.
  unfold version_lt. rewrite compareVersions_unfold.
  destruct (compareMain_spec a b) as [[-> H]|[[-> H]|[-> H]]]; simpl; try lia.
  - unfold triple_lt in H. lia.
  - unfold triple in H. injection H as -> _ _. lia.
Qed.

End OrderingFacts.

(** ** The ordering by triples, on all versions *)

Section TripleOrder.
Import SemVer SemVerFacts FormatFacts.

Lemma triple_le_refl (a : SemVer.t) : triple_le a a.
Proof. by right. Qed.

Lemma triple_le_trans (a b c : SemVer.t) : triple_le a b -> triple_le b c -> triple_le a c.
Proof.
  intros [H1|E1] [H2|E2].
  - left. by eapply triple_lt_trans.
  - left. by eapply triple_lt_eq_r.
  - left. by eapply triple_lt_eq_l.
  - right. congruence.
Qed.

Lemma triple_le_major (a b : SemVer.t) : triple_le a b -> (major a <= major b)%N.
Proof.
  intros [H|E].
  - unfold triple_lt in H. lia.
  - unfold triple in E. injection E as -> _ _. lia.
Qed.

(** Whatever the prerelease identifiers are, [compareVersions] follows
    the triples. *)
Lemma compareVersions_triple (a b : SemVer.t) :
  (compareVersions a b <= 0 -> triple_le a b) /\
  (0 < compareVersions a b -> triple_le b a) /\
  (triple_lt a b -> compareVersions a b = -1).
Proof.
  rewrite compareVersions_unfold.
  destruct (compareMain_spec a b) as [[-> H]|[[-> H]|[-> H]]]; simpl.
  - split_and!; [by left|lia|done].
  - split_and!; [by right|by right|].
    intros Hlt. by apply triple_lt_irrefl in Hlt.
  - split_and!; [lia|by left|].
    intros Hlt. by apply triple_lt_asym in Hlt.
Qed.

Lemma triple_le_same_version (a a' b : SemVer.t) :
  version a = version a' -> triple_le b a -> triple_le b a'.
Proof.
  intros E%version_triple H. eapply triple_le_trans; [done|]. by right.
Qed.

(** Two versions without prerelease and with the same triple have the
    same canonical string. *)
Lemma stable_same_version (a b : SemVer.t) :
  prerelease a = [] -> prerelease b = [] -> triple a = triple b -> version a = version b.
Proof. intros Pa Pb E. apply version_of_fields; congruence. Qed.

End TripleOrder.

(** ** Sorting and the insertion-ordered map *)

Section SortFacts.
Context {A : Type} (cmp : A -> A -> Z) (P : A -> Prop).
Local Abbreviation le := (cmp_le cmp).
Hypothesis le_total : forall x y, P x -> P y -> le x y \/ le y x.
Hypothesis le_trans : forall x y z, P x -> P y -> P z -> le x y -> le y z -> le x z.

Lemma sort_insert_perm (x : A) (l : list A) : sort_insert cmp x l ≡ₚ x :: l.
Proof.
  induction l as [|y l IH]; simpl; [done|].
  destruct (cmp x y <=? 0); [done|]. rewrite IH. apply Permutation_swap.
Qed.

Lemma js_sort_perm (l : list A) : js_sort cmp l ≡ₚ l.
Proof.
  induction l as [|x l IH]; simpl; [done|].
  rewrite sort_insert_perm. by f_equiv.
Qed.

Lemma sort_insert_sorted (x : A) (l : list A) :
  P x -> Forall P l -> StronglySorted le l -> StronglySorted le (sort_insert cmp x l).
Proof.
  intros Hx Hl Hs. induction Hs as [|y l Hs IH Hy]; simpl.
  - repeat constructor.
  - apply Forall_cons in Hl as [Py Hl].
    destruct (Z.leb_spec (cmp x y) 0) as [Hle|Hgt].
    + constructor; [by constructor|].
      constructor; [done|].
      rewrite Forall_forall in Hy, Hl. apply Forall_forall. intros z Hz.
      apply (le_trans x y z); auto.
    + constructor; [by apply IH|].
      rewrite sort_insert_perm. constructor; [|done].
      destruct (le_total x y Hx Py) as [H|H]; [unfold cmp_le in H; lia|done].
Qed.

Lemma js_sort_sorted (l : list A) : Forall P l -> StronglySorted le (js_sort cmp l).
Proof.
  induction l as [|x l IH]; simpl; intros Hl; [constructor|].
  apply Forall_cons in Hl as [Hx Hl].
  apply sort_insert_sorted; auto. by rewrite js_sort_perm.
Qed.

End SortFacts.

(** The insertion sort under a comparator that need not be an ordering:
    the result is in the order of any transitive relation that the
    comparator respects. *)
Section SortByKey.
Context {A : Type} (cmp : A -> A -> Z) (R : relation A).
Hypothesis R_trans : forall x y z, R x y -> R y z -> R x z.
Hypothesis cmp_le_R : forall x y, cmp x y <= 0 -> R x y.
Hypothesis cmp_gt_R : forall x y, 0 < cmp x y -> R y x.

Lemma sort_insert_by (x : A) (l : list A) :
  StronglySorted R l -> StronglySorted R (sort_insert cmp x l).
Proof.
  intros Hs. induction Hs as [|y l Hs IH Hy]; simpl.
  - repeat constructor.
  - destruct (Z.leb_spec (cmp x y) 0) as [Hle|Hgt].
    + constructor; [by constructor|].
      constructor; [by apply cmp_le_R|].
      rewrite Forall_forall in Hy. apply Forall_forall. intros z Hz.
      apply (R_trans x y z); [by apply cmp_le_R|by apply Hy].
    + constructor; [done|].
      rewrite sort_insert_perm. constructor; [by apply cmp_gt_R|done].
Qed.

Lemma js_sort_by (l : list A) : StronglySorted R (js_sort cmp l).
Proof.
  induction l as [|x l IH]; simpl; [constructor|]. by apply sort_insert_by.
Qed.

End SortByKey.

Section MapFacts.
Context {V : Type}.
Implicit Types (m : list (string * V)) (k : string) (v : V).

Lemma map_set_keys k v m :
  (map_set k v m).*1 = if bool_decide (k ∈ m.*1) then m.*1 else m.*1 ++ [k].
Proof.
  induction m as [|[k' v'] m IH]; [done|]. cbn [map_set].
  destruct (String.eqb_spec k k') as [->|Hne]; rewrite !fmap_cons; cbn [fst].
  - rewrite bool_decide_eq_true_2; [done|]. apply list_elem_of_here.
  - rewrite IH. destruct (bool_decide_reflect (k ∈ m.*1)) as [Hin|Hnin].
    + rewrite bool_decide_eq_true_2; [done|]. by apply list_elem_of_further.
    + rewrite bool_decide_eq_false_2; [done|].
      rewrite elem_of_cons. intros [?|?]; done.
Qed.

Lemma map_set_NoDup k v m : NoDup m.*1 -> NoDup (map_set k v m).*1.
Proof.
  intros Hnd. rewrite map_set_keys. case_bool_decide as Hin; [done|].
  apply NoDup_app. split_and!; [done| |apply NoDup_singleton].
  intros x Hx ->%list_elem_of_singleton. done.
Qed.

Lemma map_set_key_in k v m : k ∈ (map_set k v m).*1.
Proof.
  rewrite map_set_keys. case_bool_decide; [done|].
  apply elem_of_app. right. apply list_elem_of_here.
Qed.

Lemma map_set_key_mono k k' v m : k' ∈ m.*1 -> k' ∈ (map_set k v m).*1.
Proof.
  rewrite map_set_keys. case_bool_decide; [done|].
  intros ?. apply elem_of_app. by left.
Qed.

Lemma map_set_entries k v m kv :
  kv ∈ map_set k v m -> kv = (k, v) \/ kv ∈ m.
Proof.
  induction m as [|[k' v'] m IH]; simpl.
  - intros ->%list_elem_of_singleton. by left.
  - destruct (String.eqb_spec k k') as [->|Hne]; rewrite !elem_of_cons.
    + intros [->|?]; auto.
    + intros [->|?]; auto. destruct IH as [?|?]; auto.
Qed.

Lemma map_has_iff k m : map_has k m = true <-> k ∈ m.*1.
Proof.
  unfold map_has. rewrite existsb_exists, list_elem_of_fmap.
  split.
  - intros (kv & Hin & ->%String.eqb_eq). exists kv.
    split; [done|]. by apply list_elem_of_In.
  - intros (kv & -> & Hin). exists kv. rewrite String.eqb_refl.
    split; [|done]. by apply list_elem_of_In.
Qed.

End MapFacts.

(** ** The catalog after [setVersions] *)

Section CatalogFacts.
Import SemVer SemVerFacts FormatFacts.

Lemma store_values_in (x u : SemVer.t) (m : VersionMap) :
  u ∈ map_values (store m x) -> u = x \/ u ∈ map_values m.
Proof.
  unfold map_values, store. rewrite !list_elem_of_fmap.
  intros ([k v] & -> & [[= -> ->]|Hin]%map_set_entries); [by left|].
  right. by exists (k, v).
Qed.

Lemma store_keyed (x : SemVer.t) (m : VersionMap) : keyed m -> keyed (store m x).
Proof.
  unfold keyed, store. rewrite !Forall_forall.
  intros Hm kv [->|Hin]%map_set_entries; auto.
Qed.

Lemma store_wf (x : SemVer.t) (m : VersionMap) :
  wf x = true -> Forall (fun v => wf v = true) (map_values m) ->
  Forall (fun v => wf v = true) (map_values (store m x)).
Proof.
  rewrite !Forall_forall. intros Hx Hm u [->|Hin]%store_values_in; auto.
Qed.

Lemma store_sorted (x : SemVer.t) (m : VersionMap) :
  keyed m -> wf x = true -> Forall (fun v => wf v = true) (map_values m) ->
  StronglySorted version_lt (map_values m) ->
  Forall (fun v => version_le v x) (map_values m) ->
  StronglySorted version_lt (map_values (store m x)).
Proof.
  intros Hk Hx. induction m as [|[k v] m IH]; intros Hwf Hs Hle.
  - repeat constructor.
  - apply Forall_cons in Hk as [Hkv Hk]. simpl in Hkv. subst k.
    unfold map_values in Hwf, Hs, Hle. rewrite fmap_cons in Hwf, Hs, Hle.
    apply Forall_cons in Hwf as [Hv Hwf]. apply Forall_cons in Hle as [Hvx Hle].
    apply StronglySorted_inv in Hs as [Hs Hlt].
    unfold store. cbn [map_set]. fold (store m x).
    destruct (String.eqb_spec (version x) (version v)) as [E|Hne];
      unfold map_values; rewrite fmap_cons; cbn [snd]; constructor.
    + done.
    + rewrite Forall_forall in Hlt, Hwf. apply Forall_forall. intros u Hu.
      unfold version_lt.
      rewrite (compareVersions_same_version x v u u); auto. by apply Hlt.
    + by apply IH.
    + apply Forall_forall. intros u [->|Hu]%store_values_in.
      * apply version_lt_of_le; auto.
      * rewrite Forall_forall in Hlt. by apply Hlt.
Qed.

Lemma store_all_keys (l : list SemVer.t) (m : VersionMap) :
  keyed m -> NoDup m.*1 ->
  keyed (store_all m l) /\ NoDup (store_all m l).*1 /\
  (forall v, v ∈ map_values (store_all m l) -> v ∈ map_values m \/ v ∈ l) /\
  (forall x, x ∈ l -> version x ∈ (store_all m l).*1) /\
  (forall k, k ∈ m.*1 -> k ∈ (store_all m l).*1).
Proof.
  revert m. induction l as [|x l IH]; intros m Hk Hnd; simpl.
  - split_and!; auto. intros x Hx. by apply elem_of_nil in Hx.
  - destruct (IH (store m x)) as (K & N & V & X & M).
    { by apply store_keyed. }
    { by apply map_set_NoDup. }
    split_and!; auto.
    + intros v [[->|?]%store_values_in|?]%V; auto.
      * right. apply list_elem_of_here.
      * right. by apply list_elem_of_further.
    + intros y [->|Hy]%elem_of_cons; auto.
      apply M. apply map_set_key_in.
    + intros k Hin. apply M. by apply map_set_key_mono.
Qed.

Lemma store_all_sorted (l : list SemVer.t) (m : VersionMap) :
  Forall (fun v => wf v = true) l -> StronglySorted version_le l ->
  keyed m -> Forall (fun v => wf v = true) (map_values m) ->
  StronglySorted version_lt (map_values m) ->
  (forall v x, v ∈ map_values m -> x ∈ l -> version_le v x) ->
  StronglySorted version_lt (map_values (store_all m l)) /\
  Forall (fun v => wf v = true) (map_values (store_all m l)).
Proof.
  revert m. induction l as [|x l IH]; intros m Hl Hs Hk Hwf Hm Hle; simpl.
  - done.
  - apply Forall_cons in Hl as [Hx Hl]. apply StronglySorted_inv in Hs as [Hs Hxl].
    apply (IH (store m x)); auto.
    + by apply store_keyed.
    + by apply store_wf.
    + apply store_sorted; auto. apply Forall_forall. intros v Hv.
      apply Hle; [done|apply list_elem_of_here].
    + intros v y [->|Hv]%store_values_in Hy.
      * rewrite Forall_forall in Hxl. by apply Hxl.
      * apply Hle; [done|by apply list_elem_of_further].
Qed.

(** Storing keeps the order of the triples, whatever the versions. *)
Lemma store_by_triple (x : SemVer.t) (m : VersionMap) :
  keyed m -> StronglySorted triple_le (map_values m) ->
  Forall (fun v => triple_le v x) (map_values m) ->
  StronglySorted triple_le (map_values (store m x)).
Proof.
  intros Hk. induction m as [|[k v] m IH]; intros Hs Hle.
  - repeat constructor.
  - apply Forall_cons in Hk as [Hkv Hk]. simpl in Hkv. subst k.
    unfold map_values in Hs, Hle. rewrite fmap_cons in Hs, Hle.
    apply Forall_cons in Hle as [Hvx Hle].
    apply StronglySorted_inv in Hs as [Hs Hlt].
    unfold store. cbn [map_set]. fold (store m x).
    destruct (String.eqb_spec (version x) (version v)) as [E|Hne];
      unfold map_values; rewrite fmap_cons; cbn [snd]; constructor.
    + done.
    + rewrite Forall_forall in Hlt. apply Forall_forall. intros u Hu.
      eapply triple_le_trans; [|by apply Hlt].
      right. by apply version_triple.
    + by apply IH.
    + apply Forall_forall. intros u [->|Hu]%store_values_in; [done|].
      rewrite Forall_forall in Hlt. by apply Hlt.
Qed.

Lemma store_all_by_triple (l : list SemVer.t) (m : VersionMap) :
  StronglySorted triple_le l -> keyed m ->
  StronglySorted triple_le (map_values m) ->
  (forall v x, v ∈ map_values m -> x ∈ l -> triple_le v x) ->
  StronglySorted triple_le (map_values (store_all m l)).
Proof.
  revert m. induction l as [|x l IH]; intros m Hs Hk Hm Hle; simpl; [done|].
  apply StronglySorted_inv in Hs as [Hs Hxl].
  apply (IH (store m x)); auto.
  - by apply store_keyed.
  - apply store_by_triple; auto. apply Forall_forall. intros v Hv.
    apply Hle; [done|apply list_elem_of_here].
  - intros v y [->|Hv]%store_values_in Hy.
    + rewrite Forall_forall in Hxl. by apply Hxl.
    + apply Hle; [done|by apply list_elem_of_further].
Qed.

Section WithParser.
Variable semverParse : string -> option SemVer.t.

Lemma exact_document_spec (val : JsVal) :
  exact_document semverParse val = true <->
  forall v, Some v ∈ parsed_of semverParse val -> wf v = true.
Proof.
  unfold exact_document. rewrite forallb_forall. split.
  - intros H v Hv. by apply (H (Some v)), list_elem_of_In.
  - intros H [v|] Hv; [|done]. by apply H, list_elem_of_In.
Qed.

Lemma parsed_of_parse (val : JsVal) (v : SemVer.t) :
  Some v ∈ parsed_of semverParse val -> exists s, semverParse s = Some v.
Proof.
  unfold parsed_of.
  destruct (isArrayOfVersionObjects val); [|destruct (isArrayOfStrings val)].
  - intros (item & E & _)%list_elem_of_fmap.
    destruct (version_field item) as [s|]; [|done]. by exists s.
  - intros (item & E & _)%list_elem_of_fmap.
    destruct (string_item item) as [s|]; [|done]. by exists s.
  - by intros ?%elem_of_nil.
Qed.

Lemma setVersions_store_all (val : JsVal) (old : VersionMap) :
  setVersions semverParse val old
  = store_all [] (js_sort compareVersions (omap id (parsed_of semverParse val))).
Proof. reflexivity. Qed.

Lemma semvers_in (val : JsVal) (v : SemVer.t) :
  v ∈ js_sort compareVersions (omap id (parsed_of semverParse val))
  <-> Some v ∈ parsed_of semverParse val.
Proof.
  rewrite (js_sort_perm compareVersions), list_elem_of_omap. split.
  - intros (o & Hin & E). simpl in E. by subst o.
  - intros Hin. by exists (Some v).
Qed.

Lemma setVersions_keys (val : JsVal) (old : VersionMap) :
  let m := setVersions semverParse val old in
  keyed m /\ NoDup m.*1 /\
  (forall v, v ∈ versions m -> Some v ∈ parsed_of semverParse val) /\
  (forall v, Some v ∈ parsed_of semverParse val -> version v ∈ m.*1).
Proof.
  intros m. unfold m. rewrite setVersions_store_all.
  destruct (store_all_keys (js_sort compareVersions (omap id (parsed_of semverParse val))) [])
    as (K & N & V & X & _); [constructor|constructor|].
  split_and!; auto.
  - intros v [Hv|Hv]%V; [by apply elem_of_nil in Hv|]. by apply semvers_in.
  - intros v Hv. apply X. by apply semvers_in.
Qed.

(** In stored order the triples never go down, whatever the document. *)
Lemma setVersions_by_triple (val : JsVal) (old : VersionMap) :
  StronglySorted triple_le (versions (setVersions semverParse val old)).
Proof.
  unfold versions. rewrite setVersions_store_all.
  apply store_all_by_triple.
  - apply (js_sort_by compareVersions triple_le).
    + apply triple_le_trans.
    + intros x y. apply compareVersions_triple.
    + intros x y. apply compareVersions_triple.
  - constructor.
  - constructor.
  - intros v x Hv. by apply elem_of_nil in Hv.
Qed.

Lemma exact_document_of_parser (val : JsVal) :
  (forall s v, semverParse s = Some v -> wf v = true) ->
  exact_document semverParse val = true.
Proof.
  intros parse_wf. apply exact_document_spec. intros v [s Hs]%parsed_of_parse.
  by eapply parse_wf.
Qed.

Lemma setVersions_sorted (val : JsVal) (old : VersionMap) :
  exact_document semverParse val = true ->
  let m := setVersions semverParse val old in
  StronglySorted version_lt (versions m) /\
  Forall (fun v => wf v = true) (versions m).
Proof.
  intros Hexact m. unfold m, versions.
  pose proof (proj1 (exact_document_spec val) Hexact) as Hparsed.
  rewrite setVersions_store_all.
  assert (Forall (fun v => wf v = true) (omap id (parsed_of semverParse val))) as Hwf.
  { apply Forall_forall. intros v (o & Hin & E)%list_elem_of_omap.
    simpl in E. subst o. by apply Hparsed. }
  apply store_all_sorted.
  - by rewrite (js_sort_perm compareVersions).
  - apply (js_sort_sorted compareVersions (fun v => wf v = true)); [| |done].
    + intros x y Hx Hy. by apply version_le_total.
    + intros x y z Hx Hy Hz. by apply version_le_trans.
  - constructor.
  - constructor.
  - constructor.
  - intros v x Hv. by apply elem_of_nil in Hv.
Qed.

End WithParser.

End CatalogFacts.

(** ** Majors *)

Section MajorFacts.
Import SemVer.

Lemma js_slice_last {A} (l : list A) (n : nat) :
  js_slice_from l (- Z.of_nat (S n)) = drop (length l - S n) l.
Proof.
  unfold js_slice_from, js_slice.
  assert ((- Z.of_nat (S n) <? 0) = true) as -> by (apply Z.ltb_lt; lia).
  assert ((Z.of_nat (length l) <? 0) = false) as -> by (apply Z.ltb_ge; lia).
  rewrite Z.min_id.
  assert (Z.to_nat (Z.max (Z.of_nat (length l) + - Z.of_nat (S n)) 0)
          = (length l - S n)%nat) as -> by lia.
  apply take_ge. rewrite length_drop. lia.
Qed.

Lemma js_slice_but_last {A} (l : list A) (n : nat) :
  js_slice l 0 (- Z.of_nat (S n)) = take (length l - S n) l.
Proof.
  unfold js_slice.
  assert ((- Z.of_nat (S n) <? 0) = true) as -> by (apply Z.ltb_lt; lia).
  assert ((0 <? 0) = false) as -> by done.
  assert (Z.to_nat (Z.min 0 (Z.of_nat (length l))) = 0%nat) as -> by lia.
  rewrite drop_0. f_equal. lia.
Qed.

Lemma set_add_elem (x y : N) (s : list N) : y ∈ set_add x s <-> y = x \/ y ∈ s.
Proof.
  unfold set_add. destruct (existsb (N.eqb x) s) eqn:E.
  - split; [intros ?; by right|]. intros [->|?]; [|done].
    apply existsb_exists in E as (z & Hz & ->%N.eqb_eq). by apply list_elem_of_In.
  - rewrite elem_of_app, list_elem_of_singleton. tauto.
Qed.

Lemma set_add_sorted (x : N) (s : list N) :
  StronglySorted N.lt s -> Forall (fun y => (y <= x)%N) s ->
  StronglySorted N.lt (set_add x s).
Proof.
  intros Hs Hle. unfold set_add. destruct (existsb (N.eqb x) s) eqn:E; [done|].
  apply StronglySorted_app_2; [|done|repeat constructor].
  intros y z Hy ->%list_elem_of_singleton.
  rewrite Forall_forall in Hle. specialize (Hle y Hy).
  assert (y <> x); [|lia]. intros ->.
  apply not_true_iff_false in E. apply E, existsb_exists.
  exists x. split; [by apply list_elem_of_In|apply N.eqb_refl].
Qed.

Lemma set_add_NoDup (x : N) (s : list N) : NoDup s -> NoDup (set_add x s).
Proof.
  intros Hs. unfold set_add. destruct (existsb (N.eqb x) s) eqn:E; [done|].
  apply NoDup_app. split_and!; [done| |apply NoDup_singleton].
  intros y Hy ->%list_elem_of_singleton.
  apply not_true_iff_false in E. apply E, existsb_exists.
  exists x. split; [by apply list_elem_of_In|apply N.eqb_refl].
Qed.

Lemma set_delete_elem (x y : N) (s : list N) : y ∈ set_delete x s <-> y <> x /\ y ∈ s.
Proof. unfold set_delete. by rewrite list_elem_of_filter. Qed.

Lemma is_nil_true {A} (l : list A) : is_nil l = true <-> l = [].
Proof. by destruct l. Qed.

Lemma add_stable_elem (vs : list SemVer.t) (s : list N) (y : N) :
  y ∈ foldl add_stable s vs <->
  y ∈ s \/ exists v, v ∈ vs /\ major v = y /\ prerelease v = [].
Proof.
  revert s. induction vs as [|v vs IH]; intros s; simpl.
  - split; [by left|]. intros [?|(v & Hv & _)]; [done|]. by apply elem_of_nil in Hv.
  - rewrite IH. unfold add_stable.
    destruct (is_nil (prerelease v)) eqn:E.
    + apply is_nil_true in E. rewrite set_add_elem. split.
      * intros [[->|?]|(u & Hu & ? & ?)]; auto.
        -- right. exists v. split_and!; auto. apply list_elem_of_here.
        -- right. exists u. split_and!; auto. by apply list_elem_of_further.
      * intros [?|(u & [->|Hu]%elem_of_cons & ? & ?)]; auto.
        right. by exists u.
    + split.
      * intros [?|(u & Hu & ? & ?)]; auto.
        right. exists u. split_and!; auto. by apply list_elem_of_further.
      * intros [?|(u & [->|Hu]%elem_of_cons & ? & Hp)]; auto.
        -- rewrite Hp in E. done.
        -- right. by exists u.
Qed.

Lemma add_stable_NoDup (vs : list SemVer.t) (s : list N) :
  NoDup s -> NoDup (foldl add_stable s vs).
Proof.
  revert s. induction vs as [|v vs IH]; intros s Hs; simpl; [done|].
  apply IH. unfold add_stable. destruct (is_nil (prerelease v)); [|done].
  by apply set_add_NoDup.
Qed.

Lemma add_stable_sorted (vs : list SemVer.t) (s : list N) :
  StronglySorted triple_le vs -> StronglySorted N.lt s ->
  (forall y v, y ∈ s -> v ∈ vs -> (y <= major v)%N) ->
  StronglySorted N.lt (foldl add_stable s vs).
Proof.
  revert s. induction vs as [|v vs IH]; intros s Hvs Hs Hle; simpl; [done|].
  apply StronglySorted_inv in Hvs as [Hvs Hv]. rewrite Forall_forall in Hv.
  apply IH; [done| |].
  - unfold add_stable. destruct (is_nil (prerelease v)); [|done].
    apply set_add_sorted; [done|]. apply Forall_forall. intros y Hy.
    apply Hle; [done|apply list_elem_of_here].
  - intros y u Hy Hu. unfold add_stable in Hy.
    destruct (is_nil (prerelease v)).
    + apply set_add_elem in Hy as [->|Hy].
      * by apply triple_le_major, Hv.
      * apply Hle; [done|by apply list_elem_of_further].
    + apply Hle; [done|by apply list_elem_of_further].
Qed.

Lemma all_majors_elem (vs : list SemVer.t) (s : list N) (y : N) :
  y ∈ foldl add_major s vs <->
  y ∈ s \/ exists v, v ∈ vs /\ major v = y.
Proof.
  revert s. induction vs as [|v vs IH]; intros s; simpl.
  - split; [by left|]. intros [?|(v & Hv & _)]; [done|]. by apply elem_of_nil in Hv.
  - rewrite IH. unfold add_major. rewrite set_add_elem. split.
    + intros [[->|?]|(u & Hu & ?)]; auto.
      * right. exists v. split; [apply list_elem_of_here|done].
      * right. exists u. split; [by apply list_elem_of_further|done].
    + intros [?|(u & [->|Hu]%elem_of_cons & ?)]; auto.
      right. by exists u.
Qed.

Lemma drop_stable_elem (vs : list SemVer.t) (s : list N) (y : N) :
  y ∈ foldl drop_stable s vs <->
  y ∈ s /\ forall v, v ∈ vs -> major v = y -> prerelease v <> [].
Proof.
  revert s. induction vs as [|v vs IH]; intros s; simpl.
  - split; [|tauto]. intros ?. split; [done|]. intros v Hv. by apply elem_of_nil in Hv.
  - rewrite IH. unfold drop_stable.
    destruct (is_nil (prerelease v)) eqn:E.
    + apply is_nil_true in E. rewrite set_delete_elem. split.
      * intros [[Hne Hy] Hall]. split; [done|].
        intros u [->|Hu]%elem_of_cons Hm; [congruence|by apply Hall].
      * intros [Hy Hall]. split_and!; [|done|].
        -- intros ->. apply (Hall v); [apply list_elem_of_here|done|done].
        -- intros u Hu. apply Hall. by apply list_elem_of_further.
    + split.
      * intros [Hy Hall]. split; [done|].
        intros u [->|Hu]%elem_of_cons Hm; [|by apply Hall].
        intros Hp. by rewrite Hp in E.
      * intros [Hy Hall]. split; [done|].
        intros u Hu. apply Hall. by apply list_elem_of_further.
Qed.

Lemma filter_all {A} (P : A -> Prop) `{!forall x, Decision (P x)} (l : list A) :
  Forall P l -> filter P l = l.
Proof.
  induction 1 as [|x l Hx Hl IH]; [done|]. by rewrite filter_cons_True, IH.
Qed.

Lemma filter_none {A} (P : A -> Prop) `{!forall x, Decision (P x)} (l : list A) :
  Forall (fun x => ~ P x) l -> filter P l = [].
Proof.
  induction 1 as [|x l Hx Hl IH]; [done|]. by rewrite filter_cons_False.
Qed.

Lemma filter_not_in_app (l1 l2 : list N) :
  NoDup (l1 ++ l2) -> filter (fun y => y ∉ l2) (l1 ++ l2) = l1.
Proof.
  intros (_ & Hdisj & _)%NoDup_app. rewrite filter_app.
  rewrite (filter_all _ l1), (filter_none _ l2).
  - apply app_nil_r.
  - apply Forall_forall. intros x Hx Hn. done.
  - apply Forall_forall. intros x Hx. by apply Hdisj.
Qed.

End MajorFacts.

(** ** Range queries *)

Section RangeFacts.
Import SemVer.

Lemma findIndex_spec {A} (p : A -> bool) (l : list A) :
  (findIndex p l = -1 /\ Forall (fun x => p x = false) l) \/
  (0 <= findIndex p l < Z.of_nat (length l) /\
   exists x, l !! Z.to_nat (findIndex p l) = Some x /\ p x = true).
Proof.
  induction l as [|x l IH]; simpl.
  - left. split; [done|constructor].
  - destruct (p x) eqn:Hx.
    + right. split; [lia|]. by exists x.
    + destruct IH as [[-> Hall]|[Hi (y & Hy & Hpy)]]; simpl.
      * left. split; [done|by constructor].
      * right.
        assert ((findIndex p l <? 0) = false) as -> by (apply Z.ltb_ge; lia).
        split; [lia|]. exists y. split; [|done].
        replace (Z.to_nat (findIndex p l + 1)) with (S (Z.to_nat (findIndex p l))) by lia.
        done.
Qed.

Lemma js_slice_between {A} (l : list A) (i j : Z) :
  0 <= i <= j -> j < Z.of_nat (length l) ->
  js_slice l i (j + 1) = take (S (Z.to_nat j - Z.to_nat i)) (drop (Z.to_nat i) l).
Proof.
  intros Hij Hj. unfold js_slice.
  assert ((i <? 0) = false) as -> by (apply Z.ltb_ge; lia).
  assert ((j + 1 <? 0) = false) as -> by (apply Z.ltb_ge; lia).
  f_equal; [lia|f_equal; lia].
Qed.

Lemma js_slice_sublist {A} (l : list A) (i j : Z) : js_slice l i j `sublist_of` l.
Proof.
  unfold js_slice. etrans; [apply sublist_take|apply sublist_drop].
Qed.

Lemma js_slice_unknown {A} (l : list A) : js_slice l (-1) (-1 + 1) = [].
Proof.
  unfold js_slice. change (-1 + 1) with 0. change (-1 <? 0) with true.
  change (0 <? 0) with false. cbv beta iota.
  match goal with |- take ?n _ = _ => assert (n = 0%nat) as -> by lia end.
  done.
Qed.

Lemma inRange_positions (m : VersionMap) (a b : SemOrStr) :
  inRange m a b =
  js_slice (versions m)
    (Z.min (position m (canonical a)) (position m (canonical b)))
    (Z.max (position m (canonical a)) (position m (canonical b)) + 1).
Proof.
  unfold inRange, position, versions.
  set (f := findIndex _ _). set (g := findIndex _ _).
  destruct (Z.gtb_spec f g).
  - by rewrite Z.min_r, Z.max_l by lia.
  - by rewrite Z.min_l, Z.max_r by lia.
Qed.

Lemma keyed_keys (m : VersionMap) : keyed m -> m.*1 = version <$> map_values m.
Proof.
  unfold keyed, map_values. induction 1 as [|[k v] m Hk Hm IH]; [done|].
  simpl in Hk. rewrite !fmap_cons, IH. simpl. by rewrite Hk.
Qed.

Lemma position_known (m : VersionMap) (s : string) :
  keyed m -> map_has s m = true ->
  0 <= position m s < Z.of_nat (length (versions m)) /\
  exists v, versions m !! Z.to_nat (position m s) = Some v /\ version v = s.
Proof.
  intros Hk Hin. apply map_has_iff in Hin. rewrite (keyed_keys m Hk) in Hin.
  apply list_elem_of_fmap in Hin as (v & -> & Hv).
  unfold position, versions.
  destruct (findIndex_spec (fun ver => String.eqb (version ver) (version v))
              (map_values m)) as [[_ Hall]|[Hi (x & Hx & Hpx)]].
  - rewrite Forall_forall in Hall. specialize (Hall v Hv). simpl in Hall.
    by rewrite String.eqb_refl in Hall.
  - split; [done|]. exists x. split; [done|]. by apply String.eqb_eq.
Qed.

Lemma position_unknown (m : VersionMap) (s : string) :
  keyed m -> map_has s m = false -> position m s = -1.
Proof.
  intros Hk Hin. unfold position.
  destruct (findIndex_spec (fun ver => String.eqb (version ver) s)
              (map_values m)) as [[E _]|[Hi (x & Hx & Hpx)]]; [done|].
  apply not_true_iff_false in Hin. exfalso. apply Hin.
  apply map_has_iff. rewrite (keyed_keys m Hk).
  apply String.eqb_eq in Hpx as <-.
  apply list_elem_of_fmap_2. by eapply list_elem_of_lookup_2.
Qed.

End RangeFacts.

(** ** The catalog: what the specification states *)

Section CatalogClaims.
Import SemVer SemVerFacts FormatFacts.

Lemma parse_known_wf (s : string) (v : SemVer.t) :
  parse_known s = Some v -> wf v = true.
Proof.
  unfold parse_known. intros [Hin _]%List.find_some.
  assert (Forall (fun v => wf v = true) known_releases) as Hall.
  { repeat constructor. }
  rewrite Forall_forall in Hall. by apply Hall, list_elem_of_In.
Qed.

(** C4 as stated does not hold.  Identifiers made of digits that reach
    [MAX_SAFE_INTEGER] are compared as doubles: two versions with
    different canonical strings compare equal, and the comparison is not
    transitive, since the first of three versions compares equal to the
    second and the second to the third while the first is after the
    third. *)
Lemma compareVersions_order_counterexample :
  version big_odd <> version big_even /\
  compareVersions big_odd big_even = 0 /\
  compareVersions big_x big_odd = 0 /\
  compareVersions big_x big_even = 1.
Proof. split_and!; [discriminate|reflexivity..]. Qed.

(** C4 as the code has it: on versions that have no identifier made of
    digits that reaches [MAX_SAFE_INTEGER], [compareVersions] is a
    strict total order: it is irreflexive, transitive and asymmetric,
    two versions compare equal exactly when their canonical strings are
    the same, and otherwise one is before the other.  It follows the
    numeric order of (major, minor, patch); with the same triple, a
    version whose first prerelease identifier is [nightly] is strictly
    before one whose is not; and when both or neither is nightly,
    [comparePre] decides. *)
Theorem compareVersions_strict_total_order (a b c : SemVer.t) :
  wf a = true -> wf b = true -> wf c = true ->
  ~ version_lt a a /\
  (version_lt a b -> version_lt b c -> version_lt a c) /\
  (version_lt a b -> ~ version_lt b a) /\
  (compareVersions a b = 0 <-> version a = version b) /\
  (version_lt a b \/ version a = version b \/ version_lt b a) /\
  compareVersions b a = - compareVersions a b /\
  (triple_lt a b -> version_lt a b) /\
  (version_lt a b -> triple_lt a b \/ triple a = triple b) /\
  (triple a = triple b -> nightly a = true -> nightly b = false -> version_lt a b) /\
  (triple a = triple b -> nightly a = nightly b ->
   compareVersions a b = comparePre a b).
Proof.
  intros Ha Hb Hc. unfold version_lt.
  pose proof (compareVersions_cases a b Ha Hb) as Hab.
  split_and!.
  - rewrite compareVersions_refl. lia.
  - apply version_lt_trans; done.
  - destruct Hab as [[? ?]|[(? & ? & _)|[? ?]]]; lia.
  - by apply compareVersions_zero_iff.
  - destruct Hab as [[? ?]|[(? & ? & ? & ?)|[? ?]]];
      [left; lia|right; left; by apply version_of_fields|right; right; lia].
  - destruct Hab as [[-> ->]|[(-> & -> & _)|[-> ->]]]; done.
  - intros H. assert (compareVersions a b = -1) as ->; [|done].
    apply compareVersions_lt_iff. by left.
  - intros H. assert (compareVersions a b = -1) as H'.
    { destruct Hab as [[? ?]|[(? & ? & _)|[? ?]]]; lia. }
    apply compareVersions_lt_iff in H' as [?|[? _]]; auto.
  - intros Ht Hna Hnb. assert (compareVersions a b = -1) as ->; [|done].
    apply compareVersions_lt_iff. right. split; [done|]. by left.
  - intros Ht Hn. rewrite compareVersions_unfold.
    apply compareMain_eq in Ht as ->. simpl.
    rewrite Hn. by destruct (nightly b).
Qed.

Lemma compareVersions_strict_total_order_witness :
  version_lt (release 12 0 0 [IStr "nightly"; INum 20200101])
             (release 12 0 0 [IStr "beta"; INum 1]) /\
  version_lt (release 12 0 0 [IStr "beta"; INum 1]) (release 12 0 0 []) /\
  version_lt (release 12 0 0 [IStr "nightly"; INum 20200101]) (release 12 0 0 []).
Proof.
  destruct (compareVersions_strict_total_order
              (release 12 0 0 [IStr "nightly"; INum 20200101])
              (release 12 0 0 [IStr "beta"; INum 1])
              (release 12 0 0 []))
    as (_ & Htrans & _ & _ & _ & _ & _ & _ & Hnightly & _);
    [reflexivity|reflexivity|reflexivity|].
  assert (version_lt (release 12 0 0 [IStr "nightly"; INum 20200101])
                     (release 12 0 0 [IStr "beta"; INum 1])) as H1.
  { apply Hnightly; reflexivity. }
  assert (version_lt (release 12 0 0 [IStr "beta"; INum 1]) (release 12 0 0 [])) as H2.
  { reflexivity. }
  exact (conj H1 (conj H2 (Htrans H1 H2))).
Defined.

Section LoadedCatalog.
Variable semverParse : string -> option SemVer.t.

(** C6 as the code has it: whatever the document is, [setVersions]
    leaves a map whose keys are the canonical strings of its values,
    without duplicates; the values are entries of the document that
    parsed, every entry that parsed has its canonical string in the map,
    and in stored order the (major, minor, patch) triples never go down.
    When no entry that parsed has an identifier made of digits that
    reaches [MAX_SAFE_INTEGER], the values are in strictly ascending
    order of [compareVersions]. *)
Theorem setVersions_sorted_unique (val : JsVal) (old : VersionMap) :
  let m := setVersions semverParse val old in
  NoDup (version <$> versions m) /\
  (forall v, v ∈ versions m -> Some v ∈ parsed_of semverParse val) /\
  (forall v, Some v ∈ parsed_of semverParse val -> version v ∈ version <$> versions m) /\
  StronglySorted triple_le (versions m) /\
  (exact_document semverParse val = true -> StronglySorted version_lt (versions m)).
Proof.
  intros m.
  destruct (setVersions_keys semverParse val old) as (K & N & V & X).
  pose proof (setVersions_by_triple semverParse val old) as T.
  fold m in K, N, V, X, T. split_and!.
  - unfold versions. by rewrite <- (keyed_keys m K).
  - done.
  - unfold versions. by rewrite <- (keyed_keys m K).
  - done.
  - intros Hexact. by destruct (setVersions_sorted semverParse val old Hexact).
Qed.

(** C7: in a loaded catalog, whatever the document and the parser, the
    stable majors are the majors of the releases without prerelease, in
    ascending order; the supported majors are the last
    [NUM_SUPPORTED_MAJORS] of them, so the highest ones, the obsolete
    majors are the ones before, which is the stable majors without the
    supported ones; and the prerelease majors are the majors all of
    whose releases have a prerelease. *)
Theorem majors_classification (val : JsVal) (old : VersionMap) :
  let m := setVersions semverParse val old in
  (forall y, y ∈ stableMajors m <->
             exists v, v ∈ versions m /\ major v = y /\ prerelease v = []) /\
  StronglySorted N.lt (stableMajors m) /\
  stableMajors m = obsoleteMajors m ++ supportedMajors m /\
  length (supportedMajors m) = Nat.min 4 (length (stableMajors m)) /\
  (forall x y, x ∈ obsoleteMajors m -> y ∈ supportedMajors m -> (x < y)%N) /\
  obsoleteMajors m = filter (fun y => y ∉ supportedMajors m) (stableMajors m) /\
  (forall y, y ∈ prereleaseMajors m <->
             (exists v, v ∈ versions m /\ major v = y) /\
             (forall v, v ∈ versions m -> major v = y -> prerelease v <> [])).
Proof.
  intros m.
  pose proof (setVersions_by_triple semverParse val old) as S.
  fold m in S. unfold versions in *.
  assert (StronglySorted N.lt (stableMajors m)) as Hsorted.
  { apply add_stable_sorted; [done|constructor|].
    intros y v Hy. by apply elem_of_nil in Hy. }
  assert (NoDup (stableMajors m)) as Hnd.
  { apply add_stable_NoDup. constructor. }
  assert (supportedMajors m = drop (length (stableMajors m) - 4) (stableMajors m)) as Hsup.
  { apply (js_slice_last (stableMajors m) 3). }
  assert (obsoleteMajors m = take (length (stableMajors m) - 4) (stableMajors m)) as Hobs.
  { apply (js_slice_but_last (stableMajors m) 3). }
  assert (stableMajors m = obsoleteMajors m ++ supportedMajors m) as Happ.
  { by rewrite Hsup, Hobs, take_drop. }
  split_and!.
  - intros y. unfold stableMajors. rewrite add_stable_elem. split.
    + intros [Hy|?]; [by apply elem_of_nil in Hy|done].
    + by right.
  - done.
  - done.
  - rewrite Hsup, length_drop. lia.
  - intros x y Hx Hy. rewrite Happ in Hsorted.
    by eapply StronglySorted_app_1_elem_of.
  - rewrite Happ at 1. symmetry. apply filter_not_in_app. by rewrite <- Happ.
  - intros y. unfold prereleaseMajors. rewrite drop_stable_elem, all_majors_elem.
    split.
    + intros [[Hy|?] ?]; [by apply elem_of_nil in Hy|done].
    + intros [? ?]. split; [by right|done].
Qed.

(** C5: for two versions that the catalog knows, [inRange] gives the
    same list in either order of its arguments; the list is the part of
    the catalog between the positions of the two versions, both
    included. *)
Theorem inRange_commutative (val : JsVal) (old : VersionMap) (a b : SemOrStr) :
  let m := setVersions semverParse val old in
  isVersion m a = true -> isVersion m b = true ->
  inRange m a b = inRange m b a /\
  exists (i j : nat) (va vb : SemVer.t),
    versions m !! i = Some va /\ version va = canonical a /\
    versions m !! j = Some vb /\ version vb = canonical b /\
    inRange m a b
    = take (S (Nat.max i j - Nat.min i j)) (drop (Nat.min i j) (versions m)) /\
    va ∈ inRange m a b /\ vb ∈ inRange m a b.
Proof.
  intros m Ka Kb.
  destruct (setVersions_keys semverParse val old) as (K & _). fold m in K.
  destruct (position_known m (canonical a) K Ka) as (Ha & va & Hva & Ea).
  destruct (position_known m (canonical b) K Kb) as (Hb & vb & Hvb & Eb).
  split.
  { rewrite !inRange_positions. by rewrite Z.min_comm, Z.max_comm. }
  set (i := Z.to_nat (position m (canonical a))) in *.
  set (j := Z.to_nat (position m (canonical b))) in *.
  exists i, j, va, vb.
  assert (inRange m a b
          = take (S (Nat.max i j - Nat.min i j)) (drop (Nat.min i j) (versions m)))
    as Hslice.
  { rewrite inRange_positions, js_slice_between by lia.
    by rewrite Z2Nat.inj_max, Z2Nat.inj_min. }
  split_and!; try done.
  - rewrite Hslice. apply (list_elem_of_lookup_2 _ (i - Nat.min i j)).
    rewrite lookup_take_lt, lookup_drop by lia.
    rewrite <- Hva. f_equal. lia.
  - rewrite Hslice. apply (list_elem_of_lookup_2 _ (j - Nat.min i j)).
    rewrite lookup_take_lt, lookup_drop by lia.
    rewrite <- Hvb. f_equal. lia.
Qed.

(** C10: [inRange] returns a list for any two arguments, a part of the
    catalog in catalog order; when the catalog knows neither of them the
    list is empty. *)
Theorem inRange_total (val : JsVal) (old : VersionMap) (a b : SemOrStr) :
  let m := setVersions semverParse val old in
  inRange m a b `sublist_of` versions m /\
  (isVersion m a = false -> isVersion m b = false -> inRange m a b = []).
Proof.
  intros m. split.
  - rewrite inRange_positions. apply js_slice_sublist.
  - intros Ka Kb.
    destruct (setVersions_keys semverParse val old) as (K & _). fold m in K.
    rewrite inRange_positions.
    rewrite (position_unknown m (canonical a) K Ka).
    rewrite (position_unknown m (canonical b) K Kb).
    apply js_slice_unknown.
Qed.

End LoadedCatalog.

Example feed_versions :
  version <$> versions feed_catalog
  = ["9.0.0"; "10.0.0"; "11.0.0"; "12.0.0-nightly.20200101"; "12.0.0-beta.1";
     "12.0.0"; "12.0.1"; "12.0.2"; "13.0.0"; "14.0.0-nightly.20210101"].
Proof. reflexivity. Qed.

Example feed_majors :
  stableMajors feed_catalog = [9; 10; 11; 12; 13]%N /\
  supportedMajors feed_catalog = [10; 11; 12; 13]%N /\
  obsoleteMajors feed_catalog = [9]%N /\
  prereleaseMajors feed_catalog = [14]%N.
Proof. repeat split; reflexivity. Qed.

Example feed_one_known :
  version <$> inRange feed_catalog (inr "1.0.0") (inr "14.0.0-nightly.20210101")
  = ["14.0.0-nightly.20210101"] /\
  inRange feed_catalog (inr "1.0.0") (inr "13.0.0") = [].
Proof. split; reflexivity. Qed.

(** C6 as stated does not hold: the three versions of [big_feed] are
    stored in the order of the feed, and the first one compares after
    the last one. *)
Lemma setVersions_sorted_counterexample :
  versions (setVersions parse_big big_feed []) = [big_x; big_odd; big_even] /\
  compareVersions big_x big_even = 1 /\
  ~ StronglySorted version_le (versions (setVersions parse_big big_feed [])).
Proof.
  split_and!; [reflexivity|reflexivity|].
  change (versions (setVersions parse_big big_feed [])) with [big_x; big_odd; big_even].
  intros [_ H]%StronglySorted_inv.
  apply Forall_cons in H as [_ H]. apply Forall_cons in H as [H _].
  unfold version_le in H. by vm_compute in H.
Qed.

Lemma setVersions_sorted_unique_witness :
  NoDup (version <$> versions feed_catalog) /\
  StronglySorted version_lt (versions feed_catalog).
Proof.
  destruct (setVersions_sorted_unique parse_known feed [])
    as (Hnodup & _ & _ & _ & Hsorted).
  exact (conj Hnodup (Hsorted eq_refl)).
Defined.

Lemma majors_classification_witness :
  stableMajors feed_catalog = obsoleteMajors feed_catalog ++ supportedMajors feed_catalog /\
  (forall x y, x ∈ obsoleteMajors feed_catalog -> y ∈ supportedMajors feed_catalog ->
               (x < y)%N).
Proof.
  destruct (majors_classification parse_known feed [])
    as (_ & _ & Happ & _ & Hhigh & _).
  exact (conj Happ Hhigh).
Defined.

Lemma inRange_commutative_witness :
  isVersion feed_catalog (inr "12.0.2") = true /\
  isVersion feed_catalog (inr "10.0.0") = true /\
  inRange feed_catalog (inr "12.0.2") (inr "10.0.0")
  = inRange feed_catalog (inr "10.0.0") (inr "12.0.2").
Proof.
  split; [reflexivity|]. split; [reflexivity|].
  apply (inRange_commutative parse_known feed [] (inr "12.0.2") (inr "10.0.0"));
    reflexivity.
Defined.

Lemma inRange_total_witness :
  isVersion feed_catalog (inr "1.0.0") = false /\
  isVersion feed_catalog (inr "latest") = false /\
  inRange feed_catalog (inr "1.0.0") (inr "latest") = [].
Proof.
  split; [reflexivity|]. split; [reflexivity|].
  apply (inRange_total parse_known feed [] (inr "1.0.0") (inr "latest"));
    reflexivity.
Defined.

End CatalogClaims.

(** ** Calls made by the runner *)

Section RunnerFacts.
Context {World : Type}.
Variable r : Runner World.
Implicit Types (s : St World) (l : Locals.t) (d : list Call).

Lemma count_creates_app d1 d2 :
  count_creates (d1 ++ d2) = (count_creates d1 + count_creates d2)%nat.
Proof. unfold count_creates. by rewrite List.filter_app, length_app. Qed.

Lemma count_runs_app d1 d2 :
  count_runs (d1 ++ d2) = (count_runs d1 + count_runs d2)%nat.
Proof. unfold count_runs. by rewrite List.filter_app, length_app. Qed.

Lemma quiet_counts d :
  Forall quiet d -> count_creates d = 0%nat /\ count_runs d = 0%nat.
Proof.
  unfold count_creates, count_runs.
  induction 1 as [|c d [Hc Hr] _ [IH1 IH2]]; [done|].
  simpl. by rewrite Hc, Hr.
Qed.

Lemma balanced_nil (fiddle : Fiddle) : balanced fiddle [].
Proof. split; [done|constructor]. Qed.

Lemma balanced_app (fiddle : Fiddle) d1 d2 :
  balanced fiddle d1 -> balanced fiddle d2 -> balanced fiddle (d1 ++ d2).
Proof.
  intros [C1 F1] [C2 F2]. split.
  - rewrite count_creates_app, count_runs_app. lia.
  - by apply Forall_app.
Qed.

Lemma bind_inv {A B} (c : M World A) (k : A -> M World B) s (res : Res B) s' :
  bind c k s = (res, s') ->
  (exists a s1, c s = (Ok a, s1) /\ k a s1 = (res, s')) \/
  (exists e, c s = (Throw e, s') /\ res = Throw e) \/
  (c s = (OutOfFuel, s') /\ res = OutOfFuel).
Proof.
  unfold bind. destruct (c s) as [[a|e|] s1]; intros H.
  - left. by exists a, s1.
  - right; left. injection H as <- <-. by exists e.
  - right; right. by injection H as <- <-.
Qed.

Lemma record_call_inv (c : Call) s (res : Res unit) s' :
  record_call c s = (res, s') ->
  res = Ok tt /\ s' = {| world := world s; calls := calls s ++ [c] |}.
Proof. unfold record_call. by intros [= <- <-]. Qed.

Lemma external_inv {A} (f : World -> (Exn + A) * World) s (res : Res A) s' :
  external f s = (res, s') -> calls s' = calls s /\ res <> OutOfFuel.
Proof.
  unfold external. destruct (f (world s)) as [[e|a] w]; by intros [= <- <-].
Qed.

(** [getExec] calls the installer at most, and ends. *)
Lemma getExec_calls (electron : string) s (res : Res string) s' :
  getExec r electron s = (res, s') ->
  (calls s' = calls s \/ calls s' = calls s ++ [CallInstall electron]) /\
  res <> OutOfFuel.
Proof.
  unfold getExec, try_catch, bind, statSync, read, ret, throw, record_call, external.
  destruct (fs_isDirectory (collab r) electron (world s)) as [[|]|]; simpl.
  - destruct (fs_existsSync _ _ _); simpl; intros [= <- <-]; (split; [by auto|done]).
  - intros [= <- <-]. split; [by auto|done].
  - destruct (isVersion (catalog r) (inr electron)); simpl;
      [|intros [= <- <-]; split; [by auto|done]].
    destruct (installer_install _ _ _) as [[e|path] w]; simpl;
      intros [= <- <-]; (split; [by auto|done]).
Qed.

(** [spawn] asks the factory for the fiddle first; nothing after that
    is a call to the factory or to [run]. *)
Lemma spawn_calls (v : SemOrStr) (src : FiddleSource) (opts : RunnerOptions)
    s (res : Res ChildEvent) s' :
  spawn r v src opts s = (res, s') ->
  (exists d, calls s' = calls s ++ CallCreate src :: d /\ Forall quiet d) /\
  res <> OutOfFuel.
Proof.
  unfold spawn. intros H.
  apply bind_inv in H as [(u & s1 & H1 & H)|[(e & H1 & ->)|[H1 ->]]];
    apply record_call_inv in H1 as [? ->]; [|done|done].
  apply bind_inv in H as [(fiddle & s2 & H2 & H)|[(e & H2 & ->)|[H2 ->]]];
    apply external_inv in H2 as [E2 N2]; cbn in E2; [| |done].
  - destruct fiddle as [fiddle|].
    + apply bind_inv in H as [(exec & s3 & H3 & H)|[(e & H3 & ->)|[H3 ->]]];
        apply getExec_calls in H3 as [E3 N3]; [| |done].
      * destruct (if default false _ then _ else _) as [exec' argv].
        apply bind_inv in H as [(u' & s4 & H4 & H)|[(e & H4 & ->)|[H4 ->]]];
          apply record_call_inv in H4 as [? ->]; [|done|done].
        destruct (child_spawn _ _ _ _) as [child w']. injection H as <- <-.
        split; [|done]. cbn.
        destruct E3 as [->| ->]; rewrite E2, <- !app_assoc; cbn.
        -- eexists. split; [done|]. repeat constructor.
        -- eexists. split; [done|]. repeat constructor.
      * split; [|done].
        destruct E3 as [->| ->]; rewrite E2, <- ?app_assoc; cbn.
        -- by exists [].
        -- eexists. split; [done|]. repeat constructor.
    + injection H as <- <-. split; [|done]. rewrite E2. by exists [].
  - split; [|done]. rewrite E2. by exists [].
Qed.

Lemma run_calls (v : SemOrStr) (src : FiddleSource) (opts : RunnerOptions)
    s (res : Res TestResult) s' :
  run r v src opts s = (res, s') ->
  (exists d, calls s' = calls s ++ CallRun (canonical v) :: CallCreate src :: d /\
             Forall quiet d) /\
  res <> OutOfFuel.
Proof.
  unfold run. intros H.
  apply bind_inv in H as [(u & s1 & H1 & H)|[(e & H1 & ->)|[H1 ->]]];
    apply record_call_inv in H1 as [? ->]; [|done|done].
  apply bind_inv in H as [(child & s2 & H2 & H)|[(e & H2 & ->)|[H2 ->]]];
    apply spawn_calls in H2 as [(d & E2 & Q2) N2]; cbn in E2; [| |done].
  - injection H as <- <-. split; [|done]. exists d.
    by rewrite E2, <- app_assoc.
  - split; [|done]. exists d. by rewrite E2, <- app_assoc.
Qed.

Lemma run_balanced (v : SemOrStr) (fiddle : Fiddle) (opts : RunnerOptions)
    s (res : Res TestResult) s' :
  run r v (SrcFiddle fiddle) opts s = (res, s') ->
  res <> OutOfFuel /\
  exists d, calls s' = calls s ++ d /\ balanced fiddle d /\ count_runs d = 1%nat /\
            Forall (fun c => forall v', c = CallRun v' -> v' = canonical v) d.
Proof.
  intros [(d & Hd & Hq) N]%run_calls. split; [done|].
  exists (CallRun (canonical v) :: CallCreate (SrcFiddle fiddle) :: d).
  destruct (quiet_counts d Hq) as [Hc Hr].
  split_and!; [done| | |].
  - split.
    + change (S (count_creates d) = S (count_runs d)). lia.
    + constructor; [done|]. constructor; [by intros ? [= <-]|].
      eapply Forall_impl; [done|]. intros c [Hcc _] src ->. done.
  - change (S (count_runs d) = 1%nat). lia.
  - constructor; [by intros ? [= <-]|]. constructor; [done|].
    eapply Forall_impl; [done|]. intros c [_ Hcr] v' ->. done.
Qed.

End RunnerFacts.

(** ** The loop of [bisect] *)

Lemma midpoint_inside (left right : Z) :
  left + 1 < right -> left < midpoint left right < right.
Proof.
  intros H. unfold midpoint, round_half. split.
  - apply Z.lt_le_trans with (left + 1); [lia|].
    apply Z.div_le_lower_bound; lia.
  - apply Z.div_lt_upper_bound; lia.
Qed.

Section LoopFacts.
Context {World : Type}.
Variable r : Runner World.
Variable versions : list SemVer.t.
Variable fiddle : Fiddle.
Variable opts : RunnerOptions.
Implicit Types (s : St World) (l : Locals.t) (d : list Call).

Local Abbreviation len := (Z.of_nat (length versions)).

Lemma bisect_loop_unfold (fuel : nat) l s :
  bisect_loop r fuel versions fiddle opts l s =
  (if Locals.left l + 1 <? Locals.right l then
     match fuel with
     | O => fun s => (OutOfFuel, s)
     | S fuel' =>
         match nth_version versions (midpoint (Locals.left l) (Locals.right l)) with
         | None => throw TypeError
         | Some ver =>
             bind (run r (inr (SemVer.version ver)) (SrcFiddle fiddle) opts)
               (fun result =>
                  match status result with
                  | test_passed | test_failed =>
                      bisect_loop r fuel' versions fiddle opts (after_run l result)
                  | _ => ret (after_run l result)
                  end)
         end
     end
   else ret l) s.
Proof.
  destruct fuel; simpl; [done|].
  destruct (_ <? _); [|done]. destruct (nth_version _ _); [|done].
  unfold bind, after_run. destruct (run _ _ _ _ _) as [[res|e|] s1]; try done.
  by destruct (status res).
Qed.

Lemma after_run_ok l (res : TestResult) :
  Locals.left l + 1 < Locals.right l -> window_ok len l -> outside_window l ->
  let mid := midpoint (Locals.left l) (Locals.right l) in
  let l' := after_run l res in
  window_ok len l' /\
  Locals.left l <= Locals.left l' /\ Locals.right l' <= Locals.right l /\
  Locals.testOrder l' = Locals.testOrder l ++ [mid] /\
  Locals.results l ⊆ Locals.results l' /\
  Locals.results l' !! mid = Some res /\
  Locals.result l' = Some res /\
  (~ inconclusive res ->
   outside_window l' /\
   Locals.right l' - Locals.left l' < Locals.right l - Locals.left l) /\
  (inconclusive res ->
   Locals.left l' = Locals.left l /\ Locals.right l' = Locals.right l).
Proof.
  intros Hlt (H0 & Hlen & Hord & [HL HR]) Hout mid l'.
  pose proof (midpoint_inside _ _ Hlt) as Hmid. fold mid in Hmid.
  assert (Locals.results l !! mid = None) as Hfresh.
  { destruct (Locals.results l !! mid) as [x|] eqn:E; [|done].
    destruct (Hout mid x E); lia. }
  assert (inside len mid) as Hin by (unfold inside; lia).
  assert (Locals.testOrder l' = Locals.testOrder l ++ [mid]) as Ho.
  { unfold l', after_run. by destruct (status res). }
  assert (Locals.results l' = <[mid := res]> (Locals.results l)) as Hr.
  { unfold l', after_run. by destruct (status res). }
  assert (Locals.result l' = Some res) as Hres.
  { unfold l', after_run. by destruct (status res). }
  assert (Locals.left l' = (if decide (status res = test_passed) then mid
                            else Locals.left l)) as Hl.
  { unfold l', after_run. by destruct (status res). }
  assert (Locals.right l' = (if decide (status res = test_failed) then mid
                             else Locals.right l)) as Hrr.
  { unfold l', after_run. by destruct (status res). }
  assert (forall i, i <> mid ->
            Locals.results l' !! i = Locals.results l !! i) as Hother.
  { intros i Hi. rewrite Hr. by apply lookup_insert_ne. }
  assert (Locals.results l' !! mid = Some res) as Hat.
  { rewrite Hr. apply lookup_insert_eq. }
  assert (Locals.results l ⊆ Locals.results l') as Hsub.
  { rewrite Hr. by apply insert_subseteq. }
  clearbody l' mid.
  destruct (decide (status res = test_passed)) as [Ep|Ep],
           (decide (status res = test_failed)) as [Ef|Ef];
    [congruence| | |].
  - split_and!; try done; try lia.
    + unfold window_ok, ends_recorded. rewrite Ho, Hl, Hrr.
      split_and!; try lia.
      * apply Forall_app. split; [done|by constructor].
      * intros x. rewrite Hat. by intros [= <-].
      * intros x. rewrite Hother by lia. apply HR.
    + intros _. split; [|lia]. unfold outside_window. rewrite Hl, Hrr.
      intros i x. destruct (decide (i = mid)) as [->|Hne]; [lia|].
      rewrite Hother by done. intros Hx. destruct (Hout i x Hx); lia.
    + unfold inconclusive. rewrite Ep. intros [?|?]; done.
  - split_and!; try done; try lia.
    + unfold window_ok, ends_recorded. rewrite Ho, Hl, Hrr.
      split_and!; try lia.
      * apply Forall_app. split; [done|by constructor].
      * intros x. rewrite Hother by lia. apply HL.
      * intros x. rewrite Hat. by intros [= <-].
    + intros _. split; [|lia]. unfold outside_window. rewrite Hl, Hrr.
      intros i x. destruct (decide (i = mid)) as [->|Hne]; [lia|].
      rewrite Hother by done. intros Hx. destruct (Hout i x Hx); lia.
    + unfold inconclusive. rewrite Ef. intros [?|?]; done.
  - split_and!; try done; try lia.
    + unfold window_ok, ends_recorded. rewrite Ho, Hl, Hrr.
      split_and!; try lia.
      * apply Forall_app. split; [done|by constructor].
      * intros x. rewrite Hother by lia. apply HL.
      * intros x. rewrite Hother by lia. apply HR.
    + intros Hn. exfalso. apply Hn. unfold inconclusive.
      destruct (status res); tauto.
Qed.

Lemma loop_post_refl l :
  window_ok len l -> ~ (Locals.left l + 1 < Locals.right l) -> loop_post len l [] l.
Proof.
  intros Hw Hn. unfold loop_post. split_and!; try done.
  - exists []. by rewrite app_nil_r.
  - by left.
Qed.

Lemma loop_post_step l (res : TestResult) d1 d2 l' :
  Locals.left l + 1 < Locals.right l -> window_ok len l -> outside_window l ->
  count_runs d1 = 1%nat ->
  loop_post len (after_run l res) d2 l' -> loop_post len l (d1 ++ d2) l'.
Proof.
  intros Hlt Hw Hout Hd1 (Hw' & Hl & Hr & Hsub & (new & Hnew & Hlen) & Hstop).
  destruct (after_run_ok l res Hlt Hw Hout)
    as (_ & Hl1 & Hr1 & Ho1 & Hsub1 & _).
  unfold loop_post. split_and!; try done; try lia.
  - by etrans.
  - exists (midpoint (Locals.left l) (Locals.right l) :: new). split.
    + rewrite Hnew, Ho1. by rewrite <- app_assoc.
    + rewrite count_runs_app, Hd1. simpl. lia.
Qed.

(** The loop ends within the iterations that the width of its window
    allows, and leaves its locals as [loop_post] says. *)
Lemma bisect_loop_spec (fuel : nat) l s (res : Res Locals.t) s' :
  bisect_loop r fuel versions fiddle opts l s = (res, s') ->
  Locals.right l - Locals.left l <= Z.of_nat fuel + 1 ->
  window_ok len l -> outside_window l ->
  res <> OutOfFuel /\
  exists d, calls s' = calls s ++ d /\ balanced fiddle d /\
            runs_inside versions d /\
            match res with
            | Ok l' => loop_post len l d l'
            | _ => True
            end.
Proof.
  revert l s res s'. induction fuel as [|fuel IH]; intros l s res s' H Hfuel Hw Hout;
    rewrite bisect_loop_unfold in H;
    destruct (Z.ltb_spec (Locals.left l + 1) (Locals.right l)) as [Hlt|Hge];
    try lia;
    try (injection H as <- <-; split; [done|]; exists [];
         split_and!; [by rewrite app_nil_r|apply balanced_nil|constructor|
                      apply loop_post_refl; [done|lia]]).
  destruct (nth_version versions _) as [ver|] eqn:Ever.
  2: { injection H as <- <-. split; [done|]. exists [].
       split_and!; [by rewrite app_nil_r|apply balanced_nil|constructor|done]. }
  assert (inside len (midpoint (Locals.left l) (Locals.right l))) as Hin.
  { pose proof (midpoint_inside _ _ Hlt). destruct Hw as (? & ? & _).
    unfold inside. lia. }
  apply bind_inv in H as [(result & s1 & Hrun & H)|[(e & Hrun & ->)|[Hrun ->]]];
    apply run_balanced in Hrun as (N1 & d1 & E1 & B1 & C1 & R1); [| |done];
    assert (runs_inside versions d1) as I1
      by (eapply Forall_impl; [exact R1|]; intros c Hc v ->;
          exists (midpoint (Locals.left l) (Locals.right l)), ver;
          split_and!; [done|done|by rewrite (Hc _ eq_refl)]).
  - destruct (after_run_ok l result Hlt Hw Hout)
      as (Hw1 & Hl1 & Hr1 & Ho1 & Hsub1 & Hat1 & Hres1 & Hcont & Hstop).
    assert (inconclusive result \/
            (~ inconclusive result /\
             bisect_loop r fuel versions fiddle opts (after_run l result) s1
             = (res, s'))) as [Hinc|[Hninc Hrec]].
    { unfold inconclusive. destruct (status result) eqn:Est; auto;
        right; (split; [intros [?|?]; done|done]). }
    + assert (res = Ok (after_run l result) /\ s' = s1) as [-> ->].
      { destruct Hinc as [Hi|Hi]; rewrite Hi in H; by injection H as <- <-. }
      split; [done|]. exists d1. split_and!; [done|done|done|].
      unfold loop_post. split_and!; try done.
      * exists [midpoint (Locals.left l) (Locals.right l)]. by rewrite C1.
      * right. exists result, (midpoint (Locals.left l) (Locals.right l)).
        split_and!; try done. rewrite Ho1. apply last_snoc.
    + destruct (Hcont Hninc) as [Hout1 Hwidth].
      apply IH in Hrec as (N2 & d2 & E2 & B2 & I2 & Hpost); [|lia|done|done].
      split; [done|]. exists (d1 ++ d2). split_and!.
      * by rewrite E2, E1, <- app_assoc.
      * by apply balanced_app.
      * by apply Forall_app.
      * destruct res as [l'| |]; [|done|done]. by eapply loop_post_step.
  - split; [done|]. by exists d1.
Qed.

End LoopFacts.

(** ** Sessions *)

Section SessionFacts.
Context {World : Type}.
Variable r : Runner World.
Implicit Types (s : St World) (l : Locals.t) (d : list Call).

Lemma initial_ok (versions : list SemVer.t) :
  window_ok (Z.of_nat (length versions)) (initial versions) /\
  outside_window (initial versions).
Proof.
  unfold window_ok, ends_recorded, outside_window, initial. simpl.
  split_and!; try done; try lia.
Qed.

Lemma after_run_width l (res : TestResult) :
  Locals.left l + 1 < Locals.right l -> ~ inconclusive res ->
  Locals.right (after_run l res) - Locals.left (after_run l res)
  < Locals.right l - Locals.left l.
Proof.
  intros Hlt Hn. pose proof (midpoint_inside _ _ Hlt) as Hmid.
  unfold after_run, inconclusive in *. destruct (status res); simpl; try lia; tauto.
Qed.

Lemma bisect_session_spec (a b : SemOrStr) (src : FiddleSource) (opts : RunnerOptions)
    s (res : Res (list SemVer.t * Locals.t)) s' :
  bisect_session r a b src opts s = (res, s') ->
  res <> OutOfFuel /\
  exists d, calls s' = calls s ++ CallCreate src :: d /\
    count_creates d = count_runs d /\
    Forall (fun c => forall src', c = CallCreate src' ->
              exists fiddle, src' = SrcFiddle fiddle /\
                (factory_create (collab r) src (world s)).1 = inr (Some fiddle)) d /\
    runs_inside (inRange (catalog r) a b) d /\
    match res with
    | Ok (versions, l') =>
        versions = inRange (catalog r) a b /\
        loop_post (Z.of_nat (length versions)) (initial versions) d l'
    | _ => True
    end.
Proof.
  unfold bisect_session. intros H.
  apply bind_inv in H as [(u & s1 & H1 & H)|[(e & H1 & ->)|[H1 ->]]];
    apply record_call_inv in H1 as [? ->]; [|done|done].
  apply bind_inv in H as [(fiddle & s2 & H2 & H)|[(e & H2 & ->)|[H2 ->]]].
  - assert ((factory_create (collab r) src (world s)).1 = inr fiddle /\
            calls s2 = calls s ++ [CallCreate src]) as [Hf E2].
    { unfold external in H2. cbn in H2.
      destruct (factory_create _ _ _) as [[e|f] w]; [done|].
      by injection H2 as <- <-. }
    destruct fiddle as [fiddle|].
    + apply bind_inv in H as [(l' & s3 & H3 & H)|[(e & H3 & ->)|[H3 ->]]];
        apply bisect_loop_spec in H3 as (N3 & d & E3 & [B3 F3] & I3 & Hpost);
        try (cbn; lia); try apply initial_ok; [| |done].
      * injection H as <- <-. split; [done|]. exists d. split_and!; try done.
        -- by rewrite E3, E2, <- app_assoc.
        -- eapply Forall_impl; [exact F3|]. intros c Hc src' ->. exists fiddle.
           split; [by apply Hc|done].
      * split; [done|]. exists d. split_and!; try done.
        -- by rewrite E3, E2, <- app_assoc.
        -- eapply Forall_impl; [exact F3|]. intros c Hc src' ->. exists fiddle.
           split; [by apply Hc|done].
    + injection H as <- <-. split; [done|]. exists [].
      split_and!; try done; try constructor; by rewrite E2.
  - apply external_inv in H2 as [E2 _]. split; [done|]. exists [].
    split_and!; try done; try constructor; by rewrite E2.
  - by apply external_inv in H2 as [_ ?].
Qed.

Lemma conclude_spec (versions : list SemVer.t) l s (res : Res BisectResult) s' :
  conclude versions l s = (res, s') -> ends_recorded l ->
  s' = s /\
  (res = Throw TypeError \/
   exists good bad rl rr,
     res = Ok {| range := Some (SemVer.version good, SemVer.version bad);
                 bisect_status := bisect_succeeded |} /\
     nth_version versions (Locals.left l) = Some good /\
     nth_version versions (Locals.right l) = Some bad /\
     Locals.results l !! Locals.left l = Some rl /\ status rl = test_passed /\
     Locals.results l !! Locals.right l = Some rr /\ status rr = test_failed).
Proof.
  intros H [HL HR]. unfold conclude, bind, result_status, ret, throw in H.
  destruct (Locals.results l !! Locals.left l) as [rl|] eqn:El;
    [|injection H as <- <-; auto].
  rewrite (HL rl eq_refl) in H. rewrite bool_decide_eq_true_2 in H by done.
  destruct (Locals.results l !! Locals.right l) as [rr|] eqn:Er;
    [|injection H as <- <-; auto].
  rewrite (HR rr eq_refl) in H. rewrite bool_decide_eq_true_2 in H by done.
  destruct (nth_version versions (Locals.left l)) as [good|] eqn:Eg;
    [|injection H as <- <-; auto].
  destruct (nth_version versions (Locals.right l)) as [bad|] eqn:Eb;
    injection H as <- <-; [|auto].
  split; [done|]. right. exists good, bad, rl, rr. split_and!; auto.
Qed.

Lemma bisect_spec (a b : SemOrStr) (src : FiddleSource) (opts : RunnerOptions)
    s (res : Res BisectResult) s' :
  bisect r a b src opts s = (res, s') ->
  res <> OutOfFuel /\
  (exists d, calls s' = calls s ++ CallCreate src :: d /\
     count_creates d = count_runs d /\
     Forall (fun c => forall src', c = CallCreate src' ->
               exists fiddle, src' = SrcFiddle fiddle /\
                 (factory_create (collab r) src (world s)).1 = inr (Some fiddle)) d /\
     runs_inside (inRange (catalog r) a b) d) /\
  (forall out, res = Ok out ->
     exists l good bad rl rr,
       (bisect_session r a b src opts s).1 = Ok (inRange (catalog r) a b, l) /\
       out = {| range := Some (SemVer.version good, SemVer.version bad);
                bisect_status := bisect_succeeded |} /\
       nth_version (inRange (catalog r) a b) (Locals.left l) = Some good /\
       nth_version (inRange (catalog r) a b) (Locals.right l) = Some bad /\
       Locals.results l !! Locals.left l = Some rl /\ status rl = test_passed /\
       Locals.results l !! Locals.right l = Some rr /\ status rr = test_failed).
Proof.
  unfold bisect. intros H.
  apply bind_inv in H as [([vs l] & s1 & H1 & H)|[(e & H1 & ->)|[H1 ->]]];
    pose proof H1 as H1'; apply bisect_session_spec in H1 as (N & d & E & C & F & I & P);
    [| |done].
  - destruct P as [-> (Hw & _)]. destruct Hw as (_ & _ & _ & Hends).
    apply conclude_spec in H as [-> Hres]; [|done].
    split_and!.
    + destruct Hres as [->|(? & ? & ? & ? & -> & _)]; done.
    + by exists d.
    + intros out ->. destruct Hres as [?|(good & bad & rl & rr & [= ->] & ?)]; [done|].
      exists l, good, bad, rl, rr. rewrite H1'. split_and!; tauto.
  - split_and!; [done|by exists d|done].
Qed.

End SessionFacts.

(** ** The runner: what the specification states *)

Section RunnerClaims.
Context {World : Type}.
Variable r : Runner World.
Implicit Types (s : St World) (l : Locals.t) (d : list Call).

(** Whatever [bisect] returns is a success: the [return] statements for
    the error results cannot be reached, because reading [status] at an
    end of the window that was never tested throws first. *)
Lemma bisect_never_returns_error (a b : SemOrStr) (src : FiddleSource)
    (opts : RunnerOptions) s (out : BisectResult) s' :
  bisect r a b src opts s = (Ok out, s') -> bisect_status out = bisect_succeeded.
Proof.
  intros (_ & _ & Hout)%bisect_spec.
  destruct (Hout out eq_refl) as (l & good & bad & rl & rr & _ & -> & _). done.
Qed.

(** On a slice of fewer than three versions the loop does not run, and
    [bisect] throws once the fiddle is there. *)
Lemma bisect_degenerate_range (a b : SemOrStr) (src : FiddleSource)
    (opts : RunnerOptions) s (fiddle : Fiddle) :
  (length (inRange (catalog r) a b) < 3)%nat ->
  (factory_create (collab r) src (world s)).1 = inr (Some fiddle) ->
  bisect r a b src opts s
  = (Throw TypeError,
     {| world := (factory_create (collab r) src (world s)).2;
        calls := calls s ++ [CallCreate src] |}).
Proof.
  intros Hlen Hf. unfold bisect, bisect_session.
  unfold bind at 1 2 3. unfold record_call, external. cbn [world calls].
  destruct (factory_create (collab r) src (world s)) as [[e|[f|]] w]; try done.
  unfold bind. rewrite bisect_loop_unfold. cbn [Locals.left Locals.right].
  destruct (Z.ltb_spec (0 + 1) (Z.of_nat (length (inRange (catalog r) a b)) - 1));
    [lia|].
  done.
Qed.

(** An inconclusive run ends the loop at once: the state is the one that
    run left, and the locals are those of [after_run]. *)
Lemma bisect_loop_inconclusive (fuel : nat) (versions : list SemVer.t)
    (fiddle : Fiddle) (opts : RunnerOptions) l s (ver : SemVer.t)
    (res : TestResult) s1 :
  Locals.left l + 1 < Locals.right l ->
  nth_version versions (midpoint (Locals.left l) (Locals.right l)) = Some ver ->
  run r (inr (SemVer.version ver)) (SrcFiddle fiddle) opts s = (Ok res, s1) ->
  inconclusive res ->
  bisect_loop r (S fuel) versions fiddle opts l s = (Ok (after_run l res), s1).
Proof.
  intros Hlt Hver Hrun Hinc. rewrite bisect_loop_unfold.
  apply Z.ltb_lt in Hlt. rewrite Hlt, Hver. unfold bind. rewrite Hrun.
  by destruct Hinc as [-> | ->].
Qed.

(** C9: while the loop runs the midpoint is strictly between [left] and
    [right], so a passed or failed outcome makes the window narrower;
    the loop ends within the iterations its counter allows; and every
    version that is run, whatever the outcome of the session, is
    strictly inside the slice: neither its first nor its last one. *)
Theorem bisect_midpoint_inside (a b : SemOrStr) (src : FiddleSource)
    (opts : RunnerOptions) s :
  (forall left right, left + 1 < right -> left < midpoint left right < right) /\
  (forall l res, Locals.left l + 1 < Locals.right l -> ~ inconclusive res ->
     Locals.right (after_run l res) - Locals.left (after_run l res)
     < Locals.right l - Locals.left l) /\
  (bisect_session r a b src opts s).1 <> OutOfFuel /\
  (bisect r a b src opts s).1 <> OutOfFuel /\
  (exists d, calls (bisect r a b src opts s).2 = calls s ++ CallCreate src :: d /\
             runs_inside (inRange (catalog r) a b) d) /\
  (forall versions l,
     (bisect_session r a b src opts s).1 = Ok (versions, l) ->
     Forall (inside (Z.of_nat (length versions))) (Locals.testOrder l) /\
     (0 ∉ Locals.testOrder l) /\
     ((Z.of_nat (length versions) - 1) ∉ Locals.testOrder l)).
Proof.
  split_and!.
  - apply midpoint_inside.
  - apply after_run_width.
  - destruct (bisect_session r a b src opts s) as [res s'] eqn:E.
    by apply bisect_session_spec in E as [? _].
  - destruct (bisect r a b src opts s) as [res s'] eqn:E.
    by apply bisect_spec in E as [? _].
  - destruct (bisect r a b src opts s) as [res s'] eqn:E.
    apply bisect_spec in E as (_ & (d & ? & _ & _ & ?) & _). by exists d.
  - intros versions l E.
    destruct (bisect_session r a b src opts s) as [res s'] eqn:E'.
    simpl in E. subst res.
    apply bisect_session_spec in E' as (_ & d & _ & _ & _ & _ & _ & Hpost).
    destruct Hpost as ((_ & _ & Hin & _) & _).
    rewrite Forall_forall in Hin. split_and!.
    + by apply Forall_forall.
    + intros H%Hin. unfold inside in H. lia.
    + intros H%Hin. unfold inside in H. lia.
Qed.

(** C8 as the code has it: [bisect] calls the factory once on the
    source it was given, before anything else; every other call to the
    factory is made by a run, on the fiddle that first call returned,
    once per run.  A session makes one call more than it makes runs. *)
Theorem bisect_resolver_calls (a b : SemOrStr) (src : FiddleSource)
    (opts : RunnerOptions) s :
  exists d,
    calls (bisect r a b src opts s).2 = calls s ++ CallCreate src :: d /\
    count_creates (CallCreate src :: d) = S (count_runs (CallCreate src :: d)) /\
    Forall (fun c => forall src', c = CallCreate src' ->
              exists fiddle, src' = SrcFiddle fiddle /\
                (factory_create (collab r) src (world s)).1 = inr (Some fiddle)) d.
Proof.
  destruct (bisect r a b src opts s) as [res s'] eqn:E.
  apply bisect_spec in E as (_ & (d & ? & Hc & ? & _) & _).
  exists d. split_and!; [done| |done].
  change (S (count_creates d) = S (count_runs d)). by rewrite Hc.
Qed.

End RunnerClaims.

Lemma bisect_midpoint_inside_witness :
  (bisect_session (test_runner (exits [("12.0.0-nightly.20200101", 0);
                                       ("12.0.0-beta.1", 1)]))
     (inr "10.0.0") (inr "12.0.0") gist DefaultRunnerOpts start).1
  = Ok (inRange feed_catalog (inr "10.0.0") (inr "12.0.0"),
        after_run (after_run (initial (inRange feed_catalog (inr "10.0.0") (inr "12.0.0")))
                     {| status := test_passed |})
          {| status := test_failed |}) /\
  Forall (inside 5) [2; 3].
Proof.
  assert ((bisect_session (test_runner (exits [("12.0.0-nightly.20200101", 0);
                                               ("12.0.0-beta.1", 1)]))
             (inr "10.0.0") (inr "12.0.0") gist DefaultRunnerOpts start).1
          = Ok (inRange feed_catalog (inr "10.0.0") (inr "12.0.0"),
                after_run (after_run (initial (inRange feed_catalog
                                                 (inr "10.0.0") (inr "12.0.0")))
                             {| status := test_passed |})
                  {| status := test_failed |})) as E by reflexivity.
  split; [exact E|].
  destruct (bisect_midpoint_inside
              (test_runner (exits [("12.0.0-nightly.20200101", 0);
                                   ("12.0.0-beta.1", 1)]))
              (inr "10.0.0") (inr "12.0.0") gist DefaultRunnerOpts start)
    as (_ & _ & _ & _ & _ & H).
  exact (proj1 (H _ _ E)).
Defined.

(** C8 as stated does not hold: in a session of two runs the factory is
    called three times. *)
Lemma bisect_resolves_once_counterexample :
  count_creates (session_calls (session_five start)) <> 1%nat.
Proof. vm_compute. discriminate. Qed.

Lemma bisect_resolver_calls_witness :
  count_creates (session_calls (session_five start))
  = S (count_runs (session_calls (session_five start))).
Proof.
  unfold session_calls, session_five.
  destruct (bisect_resolver_calls
              (test_runner (exits [("10.0.0", 0); ("11.0.0", 0);
                                   ("12.0.0-nightly.20200101", 0);
                                   ("12.0.0-beta.1", 1); ("12.0.0", 1)]))
              (inr "10.0.0") (inr "12.0.0") gist DefaultRunnerOpts start)
    as (d & E & C & _).
  rewrite E. exact C.
Defined.

Example session_five_result :
  (session_five start).1
  = Ok {| range := Some ("12.0.0-nightly.20200101", "12.0.0-beta.1");
          bisect_status := bisect_succeeded |}.
Proof. reflexivity. Qed.

(** C1: on three versions whose middle one fails, the outcome at [left]
    was never recorded; [bisect] throws a [TypeError] and returns no
    result, neither a success nor an error result. *)
Theorem bisect_failing_midpoint_throws :
  (session_failing start).1 = Throw TypeError.
Proof. reflexivity. Qed.

(** C2: when both ends are the same version the slice has one element;
    no test is run, the fiddle is resolved, and [bisect] throws a
    [TypeError] instead of returning an error result. *)
Theorem bisect_single_version_throws :
  session_single start
  = (Throw TypeError, {| world := tt; calls := [CallCreate gist] |}).
Proof. reflexivity. Qed.

(** C3: on three versions whose middle one exits with code 2, [bisect]
    throws a [TypeError] and returns no error result; on seven versions
    where the run that ends the loop is inconclusive after one pass and
    one fail, [bisect] returns a success on two versions that are not
    adjacent. *)
Theorem bisect_inconclusive_midpoint_throws :
  (session_crashing start).1 = Throw TypeError /\
  count_runs (session_calls (session_crashing start)) = 1%nat /\
  (session_late_crash start).1
  = Ok {| range := Some ("12.0.0-nightly.20200101", "12.0.0");
          bisect_status := bisect_succeeded |} /\
  SemVer.version <$> inRange feed_catalog (inr "12.0.0-nightly.20200101") (inr "12.0.0")
  = ["12.0.0-nightly.20200101"; "12.0.0-beta.1"; "12.0.0"].
Proof. repeat split; reflexivity. Qed.

(** ** More on the catalog: lookups, latest releases, majors *)

Section CatalogQueries.
Import SemVer SemVerFacts FormatFacts.

Lemma sorted_last_greatest {A} (R : relation A) (l : list A) (v : A) :
  StronglySorted R l -> last l = Some v -> forall u, u ∈ l -> u = v \/ R u v.
Proof.
  intros Hs [l' ->]%last_Some u [Hu|Hu%list_elem_of_singleton]%elem_of_app; [|by left].
  right. eapply StronglySorted_app_1_elem_of; [done|done|apply list_elem_of_here].
Qed.

Lemma sorted_filter {A} (R : relation A) (P : A -> Prop) `{!forall x, Decision (P x)}
    (l : list A) :
  StronglySorted R l -> StronglySorted R (filter P l).
Proof.
  induction 1 as [|x l Hs IH Hx]; [constructor|].
  rewrite filter_cons. case_decide; [|done].
  constructor; [done|]. rewrite Forall_forall in Hx. apply Forall_forall.
  intros y [_ Hy]%list_elem_of_filter. by apply Hx.
Qed.

Lemma latestStable_fold (vs : list SemVer.t) (acc : option SemVer.t) :
  foldl (fun stable ver => if is_nil (prerelease ver) then Some ver else stable) acc vs
  = match last (filter stable vs) with
    | Some v => Some v
    | None => acc
    end.
Proof.
  revert acc. induction vs as [|v vs IH]; intros acc; simpl; [done|].
  rewrite IH, filter_cons. destruct (prerelease v) as [|i p] eqn:E; simpl.
  - rewrite decide_True by done. rewrite last_cons.
    by destruct (last (filter stable vs)).
  - rewrite decide_False; [done|]. unfold stable. by rewrite E.
Qed.

Lemma latestStable_last (m : VersionMap) :
  latestStable m = last (filter stable (versions m)).
Proof.
  unfold latestStable. rewrite latestStable_fold. by destruct (last _).
Qed.

(** Among the releases without prerelease the stored order is the
    strict order of [compareVersions], whatever else is stored. *)
Lemma stable_sorted (l : list SemVer.t) :
  StronglySorted triple_le l -> NoDup (version <$> l) ->
  StronglySorted version_lt (filter stable l).
Proof.
  induction 1 as [|x l Hs IH Hx]; intros Hnd; [constructor|].
  rewrite fmap_cons in Hnd. apply NoDup_cons in Hnd as [Hnotin Hnd].
  rewrite filter_cons. case_decide as Px; [|by apply IH].
  constructor; [by apply IH|].
  rewrite Forall_forall in Hx. apply Forall_forall.
  intros y [Py Hy]%list_elem_of_filter.
  destruct (Hx y Hy) as [Hlt|E].
  - unfold version_lt. apply compareVersions_triple in Hlt as ->. done.
  - exfalso. apply Hnotin. rewrite (stable_same_version x y Px Py E).
    by apply list_elem_of_fmap_2.
Qed.

Section Loaded.
Variable semverParse : string -> option SemVer.t.

(** A version is known after a load exactly when an entry of the
    document parsed to its canonical string. *)
Theorem isVersion_after_load (val : JsVal) (old : VersionMap) (ver : SemOrStr) :
  isVersion (setVersions semverParse val old) ver = true <->
  exists v, Some v ∈ parsed_of semverParse val /\ version v = canonical ver.
Proof.
  destruct (setVersions_keys semverParse val old) as (K & _ & V & X).
  unfold isVersion. rewrite map_has_iff. split.
  - rewrite (keyed_keys _ K). intros (v & E & Hv)%list_elem_of_fmap.
    exists v. split; [by apply V|done].
  - intros (v & Hv & <-). by apply X.
Qed.

(** After the load of a document in which no entry that parsed has an
    identifier made of digits that reaches [MAX_SAFE_INTEGER]: [latest]
    is absent exactly for an empty catalog; otherwise it is a version of
    the catalog that every other one is strictly before, and no entry of
    the document that parsed is after it. *)
Theorem latest_is_greatest (val : JsVal) (old : VersionMap) :
  exact_document semverParse val = true ->
  let m := setVersions semverParse val old in
  (latest m = None <-> versions m = []) /\
  (forall v, latest m = Some v ->
     v ∈ versions m /\
     (forall u, u ∈ versions m -> u = v \/ version_lt u v) /\
     (forall w, Some w ∈ parsed_of semverParse val -> version_le w v)).
Proof.
  intros Hexact m.
  destruct (setVersions_sorted semverParse val old Hexact) as (S & W).
  destruct (setVersions_keys semverParse val old) as (K & _ & V & X).
  fold m in S, W, K, V, X. split; [apply last_None|].
  intros v Hv. split_and!.
  - by eapply last_Some_elem_of.
  - by apply sorted_last_greatest.
  - intros w Hw. pose proof (X w Hw) as Hk. rewrite (keyed_keys m K) in Hk.
    apply list_elem_of_fmap in Hk as (u & E & Hu).
    rewrite Forall_forall in W.
    assert (wf w = true) as Ww.
    { by apply (proj1 (exact_document_spec semverParse val) Hexact). }
    assert (wf v = true) as Wv by (apply W; by eapply last_Some_elem_of).
    unfold version_le.
    rewrite (compareVersions_same_version w u v v); auto.
    destruct (sorted_last_greatest _ _ _ S Hv u Hu) as [->|Hlt].
    + rewrite compareVersions_refl. lia.
    + unfold version_lt in Hlt. lia.
Qed.

(** Whatever the document and the parser: [latestStable] is absent
    exactly when no release of the catalog is stable; otherwise it is a
    stable release of the catalog that every other stable one is
    strictly before, and its major is the last of [supportedMajors]. *)
Theorem latestStable_is_greatest_stable (val : JsVal) (old : VersionMap) :
  let m := setVersions semverParse val old in
  (latestStable m = None <-> stableMajors m = []) /\
  (forall v, latestStable m = Some v ->
     v ∈ versions m /\ prerelease v = [] /\
     (forall u, u ∈ versions m -> prerelease u = [] -> u = v \/ version_lt u v) /\
     last (supportedMajors m) = Some (major v)).
Proof.
  intros m.
  pose proof (setVersions_by_triple semverParse val old) as S.
  destruct (setVersions_keys semverParse val old) as (K & N & _).
  fold m in S, K, N. rewrite latestStable_last.
  assert (StronglySorted version_lt (filter stable (versions m))) as Sf.
  { apply stable_sorted; [done|]. unfold versions. by rewrite <- (keyed_keys m K). }
  assert (forall y, y ∈ stableMajors m <->
                    exists v, v ∈ filter stable (versions m) /\ major v = y) as Hst.
  { intros y. unfold stableMajors. rewrite add_stable_elem. split.
    - intros [Hy|(v & Hv & E & P)]; [by apply elem_of_nil in Hy|].
      exists v. split; [|done]. by apply list_elem_of_filter.
    - intros (v & [P Hv]%list_elem_of_filter & E). right. by exists v. }
  split.
  - rewrite last_None. split.
    + intros Hnil. apply elem_of_nil_inv. intros y (v & Hv & _)%Hst.
      rewrite Hnil in Hv. by apply elem_of_nil in Hv.
    + intros Hnil. apply elem_of_nil_inv. intros v Hv.
      assert (major v ∈ stableMajors m) as Hy by (apply Hst; by exists v).
      rewrite Hnil in Hy. by apply elem_of_nil in Hy.
  - intros v Hv.
    pose proof (last_Some_elem_of _ _ Hv) as [Pv Hin]%list_elem_of_filter.
    split_and!; [done|done| |].
    + intros u Hu Pu. apply (sorted_last_greatest _ _ _ Sf Hv).
      by apply list_elem_of_filter.
    + assert (StronglySorted N.lt (stableMajors m)) as Hsorted.
      { apply add_stable_sorted; [done|constructor|].
        intros y u Hy. by apply elem_of_nil in Hy. }
      assert (major v ∈ stableMajors m) as Hmv.
      { apply Hst. exists v. split; [by eapply last_Some_elem_of|done]. }
      assert (forall y, y ∈ stableMajors m -> (y <= major v)%N) as Hmax.
      { intros y (u & Hu & <-)%Hst.
        destruct (sorted_last_greatest _ _ _ Sf Hv u Hu) as [->|Hlt]; [lia|].
        by apply version_lt_major. }
      assert (last (stableMajors m) = Some (major v)) as Hlast.
      { destruct (last (stableMajors m)) as [y|] eqn:El.
        - f_equal.
          destruct (sorted_last_greatest _ _ _ Hsorted El _ Hmv) as [->|Hlt]; [done|].
          pose proof (Hmax y (last_Some_elem_of _ _ El)). lia.
        - apply last_None in El. rewrite El in Hmv. by apply elem_of_nil in Hmv. }
      assert (supportedMajors m
              = drop (length (stableMajors m) - 4) (stableMajors m)) as ->
        by apply (js_slice_last (stableMajors m) 3).
      apply last_Some in Hlast as [l' Hl']. rewrite Hl'.
      rewrite length_app. simpl.
      rewrite drop_app_le by lia. apply last_snoc.
Qed.

End Loaded.

End CatalogQueries.

(** ** More on the catalog: majors, ranges at the edges, feeds *)

Section CatalogEdges.
Import SemVer SemVerFacts FormatFacts.

(** [inMajor] keeps the versions of the major, in catalog order.  A
    major has versions exactly when it is a stable major or a prerelease
    major, and it is never both. *)
Theorem majors_cover_inMajor (m : VersionMap) (y : N) :
  (forall v, v ∈ inMajor m y <-> v ∈ versions m /\ major v = y) /\
  inMajor m y `sublist_of` versions m /\
  (inMajor m y <> [] <-> y ∈ stableMajors m \/ y ∈ prereleaseMajors m) /\
  ~ (y ∈ stableMajors m /\ y ∈ prereleaseMajors m).
Proof.
  assert (forall v, v ∈ inMajor m y <-> v ∈ versions m /\ major v = y) as Hin.
  { intros v. unfold inMajor, versions. rewrite list_elem_of_filter. tauto. }
  assert (forall z, z ∈ stableMajors m <->
            exists v, v ∈ versions m /\ major v = z /\ prerelease v = []) as Hst.
  { intros z. unfold stableMajors, versions. rewrite add_stable_elem. split.
    - intros [Hz|?]; [by apply elem_of_nil in Hz|done].
    - by right. }
  assert (forall z, z ∈ prereleaseMajors m <->
            (exists v, v ∈ versions m /\ major v = z) /\
            (forall v, v ∈ versions m -> major v = z -> prerelease v <> [])) as Hpre.
  { intros z. unfold prereleaseMajors, versions.
    rewrite drop_stable_elem, all_majors_elem. split.
    - intros [[Hz|?] ?]; [by apply elem_of_nil in Hz|done].
    - intros [? ?]. split; [by right|done]. }
  split_and!.
  - done.
  - apply sublist_filter.
  - split.
    + intros Hne.
      assert (exists v, v ∈ inMajor m y) as [v [Hv Hy]%Hin].
      { clear Hin. destruct (inMajor m y) as [|v l]; [done|].
        exists v. apply list_elem_of_here. }
      destruct (decide (y ∈ stableMajors m)) as [?|Hns]; [by left|].
      right. apply Hpre. split; [by exists v|].
      intros u Hu Hyu Hp. apply Hns, Hst. by exists u.
    + intros [(v & Hv & Hy & _)%Hst|[(v & Hv & Hy) _]%Hpre] Hnil;
        (assert (v ∈ inMajor m y) as Hv' by by apply Hin);
        rewrite Hnil in Hv'; by apply elem_of_nil in Hv'.
  - intros [(v & Hv & Hy & Hp)%Hst [_ Hall]%Hpre]. by apply (Hall v).
Qed.

Section LoadedEdges.
Variable semverParse : string -> option SemVer.t.

Lemma loaded_versions_NoDup (val : JsVal) (old : VersionMap) :
  NoDup (version <$> versions (setVersions semverParse val old)).
Proof.
  destruct (setVersions_keys semverParse val old) as (K & N & _).
  unfold versions. by rewrite <- (keyed_keys _ K).
Qed.

(** With one endpoint that the catalog does not know, [inRange] gives
    nothing, unless the known endpoint is the latest version of the
    catalog: then it gives that version alone.  The order of the two
    arguments does not matter. *)
Theorem inRange_one_unknown (val : JsVal) (old : VersionMap) (a b : SemOrStr) :
  let m := setVersions semverParse val old in
  isVersion m a = false -> isVersion m b = true ->
  inRange m b a = inRange m a b /\
  inRange m a b
  = match latest m with
    | Some v => if String.eqb (version v) (canonical b) then [v] else []
    | None => []
    end.
Proof.
  intros m Ka Kb.
  destruct (setVersions_keys semverParse val old) as (K & _). fold m in K.
  pose proof (loaded_versions_NoDup val old) as Hnd. fold m in Hnd.
  destruct (position_known m (canonical b) K Kb) as (Hb & vb & Hvb & Eb).
  pose proof (position_unknown m (canonical a) K Ka) as Ha.
  split.
  { rewrite !inRange_positions. by rewrite Z.min_comm, Z.max_comm. }
  rewrite inRange_positions, Ha.
  rewrite Z.min_l, Z.max_r by lia.
  set (j := position m (canonical b)) in *.
  unfold js_slice. change (-1 <? 0) with true. cbv beta iota.
  assert ((j + 1 <? 0) = false) as -> by (apply Z.ltb_ge; lia).
  rewrite Z.max_l, Z.min_l by lia.
  unfold latest. rewrite last_lookup.
  destruct (decide (j = Z.of_nat (length (versions m)) - 1)) as [Ej|Ej].
  - assert (Z.to_nat j = pred (length (versions m))) as Ejn by lia.
    rewrite <- Ejn, Hvb. rewrite Eb, String.eqb_refl.
    replace (Z.to_nat (j + 1 - (Z.of_nat (length (versions m)) + -1))) with 1%nat by lia.
    replace (Z.to_nat (Z.of_nat (length (versions m)) + -1)) with (Z.to_nat j) by lia.
    rewrite (drop_S _ vb) by done. reflexivity.
  - replace (Z.to_nat (j + 1 - (Z.of_nat (length (versions m)) + -1))) with 0%nat by lia.
    rewrite take_0.
    destruct (versions m !! pred (length (versions m))) as [v|] eqn:Ev; [|done].
    destruct (String.eqb_spec (version v) (canonical b)) as [E|]; [|done].
    exfalso. apply Ej.
    assert (Z.to_nat j = pred (length (versions m))); [|lia].
    eapply NoDup_lookup; [exact Hnd| |].
    + rewrite list_lookup_fmap, Hvb. simpl. by rewrite Eb.
    + rewrite list_lookup_fmap, Ev. simpl. by rewrite E.
Qed.

(** Between two known versions [inRange] has one version more than
    their positions are apart, and between a known version and itself
    it is that version alone. *)
Theorem inRange_length (val : JsVal) (old : VersionMap) (a b : SemOrStr) :
  let m := setVersions semverParse val old in
  isVersion m a = true -> isVersion m b = true ->
  Z.of_nat (length (inRange m a b))
  = Z.abs (position m (canonical a) - position m (canonical b)) + 1 /\
  exists va, version va = canonical a /\ inRange m a a = [va].
Proof.
  intros m Ka Kb.
  destruct (setVersions_keys semverParse val old) as (K & _). fold m in K.
  destruct (position_known m (canonical a) K Ka) as (Ha & va & Hva & Ea).
  destruct (position_known m (canonical b) K Kb) as (Hb & vb & Hvb & Eb).
  split.
  - rewrite inRange_positions, js_slice_between by lia.
    rewrite length_take, length_drop. lia.
  - exists va. split; [done|].
    rewrite inRange_positions, Z.min_id, Z.max_id, js_slice_between by lia.
    rewrite Nat.sub_diag. rewrite (drop_S _ va) by done. reflexivity.
Qed.

Lemma parsed_of_strings (ss : list string) :
  parsed_of semverParse (strings_doc ss) = semverParse <$> ss.
Proof.
  unfold parsed_of, strings_doc.
  destruct ss as [|s ss]; [done|].
  assert (isArrayOfVersionObjects (JArr (JStr <$> s :: ss)) = false) as -> by done.
  assert (isArrayOfStrings (JArr (JStr <$> s :: ss)) = true) as ->.
  { simpl. induction ss as [|s' ss IH]; [done|]. done. }
  cbn [array_items]. rewrite <- list_fmap_compose. done.
Qed.

Lemma parsed_of_records (recs : list (list (string * JsVal))) (ss : list string) :
  Forall2 carries recs ss ->
  parsed_of semverParse (records_doc recs) = semverParse <$> ss.
Proof.
  intros Hc. unfold parsed_of, records_doc.
  assert (isArrayOfVersionObjects (JArr (JObj <$> recs)) = true) as ->.
  { cbn [isArrayOfVersionObjects]. induction Hc as [|fields s recs ss Hf _ IH]; [done|].
    rewrite fmap_cons. cbn [forallb]. rewrite IH.
    unfold carries in Hf. unfold hasVersion, version_field. by rewrite Hf. }
  cbn [array_items]. induction Hc as [|fields s recs ss Hf _ IH]; [done|].
  rewrite !fmap_cons, IH. f_equal.
  unfold carries in Hf. unfold version_field. by rewrite Hf.
Qed.

(** The two shapes of a feed load the same catalog: a list of version
    strings, and a list of records that carry these strings in their
    [version] field, whatever other fields the records have.  What the
    map held before does not matter. *)
Theorem setVersions_shapes_agree (recs : list (list (string * JsVal)))
    (ss : list string) (old old' : VersionMap) :
  Forall2 carries recs ss ->
  setVersions semverParse (records_doc recs) old
  = setVersions semverParse (strings_doc ss) old' /\
  forall v, v ∈ versions (setVersions semverParse (records_doc recs) old) ->
            exists s, s ∈ ss /\ semverParse s = Some v.
Proof.
  intros Hc.
  assert (setVersions semverParse (records_doc recs) old
          = setVersions semverParse (strings_doc ss) old') as E.
  { unfold setVersions. by rewrite (parsed_of_records recs ss Hc), parsed_of_strings. }
  split; [done|]. rewrite E. intros v Hv.
  destruct (setVersions_keys semverParse (strings_doc ss) old') as (_ & _ & V & _).
  apply V in Hv. rewrite parsed_of_strings in Hv.
  apply list_elem_of_fmap in Hv as (s & E' & Hs). by exists s.
Qed.

End LoadedEdges.

End CatalogEdges.

(** ** The catalog does not depend on the order of the feed *)

Section FeedOrder.
Import SemVer SemVerFacts FormatFacts.

Lemma version_lt_neq (x u : SemVer.t) :
  wf x = true -> wf u = true -> version_lt x u -> version x <> version u.
Proof.
  intros Hx Hu Hlt E. apply compareVersions_zero_iff in E; [|done|done].
  unfold version_lt in Hlt. lia.
Qed.

Lemma version_lt_asym (x y : SemVer.t) :
  wf x = true -> wf y = true -> version_lt x y -> version_lt y x -> False.
Proof.
  intros Hx Hy. unfold version_lt.
  destruct (compareVersions_cases x y Hx Hy) as [[? ?]|[(? & ? & _)|[? ?]]]; lia.
Qed.

Lemma version_lt_head (x y : SemVer.t) (l : list SemVer.t) :
  wf x = true -> wf y = true -> Forall (fun v => wf v = true) l ->
  Forall (version_lt y) l ->
  version x ∈ version <$> (y :: l) -> version x = version y \/ version_lt y x.
Proof.
  intros Hx Hy Hl Hlt. rewrite fmap_cons, elem_of_cons.
  intros [?|(u & E & Hu)%list_elem_of_fmap]; [by left|]. right.
  rewrite Forall_forall in Hl, Hlt. unfold version_lt.
  rewrite (compareVersions_same_version y y x u); auto. by apply Hlt.
Qed.

(** Two strictly ascending lists of versions with the same canonical
    strings list them in the same order. *)
Lemma sorted_versions_unique (l1 l2 : list SemVer.t) :
  Forall (fun v => wf v = true) l1 -> Forall (fun v => wf v = true) l2 ->
  StronglySorted version_lt l1 -> StronglySorted version_lt l2 ->
  (forall s, s ∈ version <$> l1 <-> s ∈ version <$> l2) ->
  version <$> l1 = version <$> l2.
Proof.
  revert l2. induction l1 as [|x l1 IH]; intros [|y l2] W1 W2 S1 S2 Hsame.
  - done.
  - exfalso. eapply elem_of_nil. apply Hsame. rewrite fmap_cons. apply list_elem_of_here.
  - exfalso. eapply elem_of_nil. apply Hsame. rewrite fmap_cons. apply list_elem_of_here.
  - apply Forall_cons in W1 as [Wx W1]. apply Forall_cons in W2 as [Wy W2].
    apply StronglySorted_inv in S1 as [S1 Hx]. apply StronglySorted_inv in S2 as [S2 Hy].
    assert (version x = version y) as Exy.
    { assert (version x ∈ version <$> (y :: l2)) as H1.
      { apply Hsame. rewrite fmap_cons. apply list_elem_of_here. }
      assert (version y ∈ version <$> (x :: l1)) as H2.
      { apply Hsame. rewrite fmap_cons. apply list_elem_of_here. }
      apply version_lt_head in H1 as [?|H1]; [done| |done..].
      apply version_lt_head in H2 as [?|H2]; [done| |done..].
      exfalso. by apply (version_lt_asym x y). }
    rewrite !fmap_cons, Exy. f_equal. apply IH; try done.
    intros s. rewrite Forall_forall in Hx, Hy, W1, W2. split.
    + intros (u & -> & Hu)%list_elem_of_fmap.
      assert (version u ∈ version <$> (y :: l2)) as H.
      { apply Hsame. rewrite fmap_cons. apply list_elem_of_further.
        by apply list_elem_of_fmap_2. }
      rewrite fmap_cons in H. apply elem_of_cons in H as [E|?]; [|done].
      exfalso. apply (version_lt_neq x u); auto. congruence.
    + intros (u & -> & Hu)%list_elem_of_fmap.
      assert (version u ∈ version <$> (x :: l1)) as H.
      { apply Hsame. rewrite fmap_cons. apply list_elem_of_further.
        by apply list_elem_of_fmap_2. }
      rewrite fmap_cons in H. apply elem_of_cons in H as [E|?]; [|done].
      exfalso. apply (version_lt_neq y u); auto. congruence.
Qed.

Variable semverParse : string -> option SemVer.t.

(** For a feed of strings in which no entry that parses has an
    identifier made of digits that reaches [MAX_SAFE_INTEGER]: the
    canonical strings of the catalog, in catalog order, are the same for
    the feed and for any reordering of it. *)
Theorem setVersions_feed_order (ss ss' : list string) (old old' : VersionMap) :
  ss ≡ₚ ss' ->
  exact_document semverParse (strings_doc ss) = true ->
  version <$> versions (setVersions semverParse (strings_doc ss) old)
  = version <$> versions (setVersions semverParse (strings_doc ss') old').
Proof.
  intros Hperm Hexact.
  assert (exact_document semverParse (strings_doc ss') = true) as Hexact'.
  { apply exact_document_spec. intros v Hv.
    apply (proj1 (exact_document_spec semverParse (strings_doc ss)) Hexact).
    rewrite parsed_of_strings in *. by rewrite Hperm. }
  destruct (setVersions_sorted semverParse (strings_doc ss) old Hexact) as (S1 & W1).
  destruct (setVersions_sorted semverParse (strings_doc ss') old' Hexact') as (S2 & W2).
  apply sorted_versions_unique; try done.
  assert (forall (l l' : list string) o o', l ≡ₚ l' -> forall s,
            s ∈ version <$> versions (setVersions semverParse (strings_doc l) o) ->
            s ∈ version <$> versions (setVersions semverParse (strings_doc l') o'))
    as Hincl.
  { intros l l' o o' Hp s (v & -> & Hv)%list_elem_of_fmap.
    destruct (setVersions_keys semverParse (strings_doc l) o) as (_ & _ & V & _).
    destruct (setVersions_keys semverParse (strings_doc l') o') as (K & _ & _ & X).
    unfold versions. rewrite <- (keyed_keys _ K). apply X.
    apply V in Hv. rewrite parsed_of_strings in *. by rewrite <- Hp. }
  intros s. split; apply Hincl; [done|by symmetry].
Qed.

End FeedOrder.

Lemma setVersions_feed_order_witness :
  SemVer.version <$> versions (setVersions parse_known
                                 (strings_doc ["12.0.1"; "9.0.0"; "12.0.0-beta.1"]) [])
  = SemVer.version <$> versions (setVersions parse_known
                                   (strings_doc ["12.0.0-beta.1"; "12.0.1"; "9.0.0"]) []).
Proof.
  apply (setVersions_feed_order parse_known); [|reflexivity].
  symmetry. apply (Permutation_cons_append ["12.0.1"; "9.0.0"] "12.0.0-beta.1").
Defined.

(** With identifiers made of digits that reach [MAX_SAFE_INTEGER] the
    order of the feed shows in the catalog. *)
Example feed_order_matters :
  SemVer.version <$> versions (setVersions parse_big
                          (strings_doc ["1.0.0-9007199254740993";
                                        "1.0.0-9007199254740992"]) [])
  = ["1.0.0-9007199254740993"; "1.0.0-9007199254740992"] /\
  SemVer.version <$> versions (setVersions parse_big
                          (strings_doc ["1.0.0-9007199254740992";
                                        "1.0.0-9007199254740993"]) [])
  = ["1.0.0-9007199254740992"; "1.0.0-9007199254740993"].
Proof. split; reflexivity. Qed.

(** ** The queries on the example feed *)

Section CatalogExamples.
Import SemVer.

Lemma latest_is_greatest_witness :
  latest feed_catalog = Some (release 14 0 0 [IStr "nightly"; INum 20210101]) /\
  release 14 0 0 [IStr "nightly"; INum 20210101] ∈ versions feed_catalog /\
  version_lt (release 13 0 0 []) (release 14 0 0 [IStr "nightly"; INum 20210101]).
Proof.
  destruct (latest_is_greatest parse_known feed [] eq_refl) as (_ & H).
  destruct (H (release 14 0 0 [IStr "nightly"; INum 20210101]) eq_refl)
    as (Hin & Hgt & _).
  split; [reflexivity|]. split; [exact Hin|].
  destruct (Hgt (release 13 0 0 [])) as [E|Hlt].
  - apply list_elem_of_In. vm_compute. tauto.
  - discriminate E.
  - exact Hlt.
Defined.

Lemma latestStable_is_greatest_stable_witness :
  latestStable feed_catalog = Some (release 13 0 0 []) /\
  last (supportedMajors feed_catalog) = Some 13%N.
Proof.
  destruct (latestStable_is_greatest_stable parse_known feed [])
    as (_ & H).
  destruct (H (release 13 0 0 []) eq_refl) as (_ & _ & _ & Hlast).
  split; [reflexivity|exact Hlast].
Defined.

Lemma inRange_one_unknown_witness :
  isVersion feed_catalog (inr "1.0.0") = false /\
  isVersion feed_catalog (inr "14.0.0-nightly.20210101") = true /\
  isVersion feed_catalog (inr "12.0.0") = true /\
  inRange feed_catalog (inr "1.0.0") (inr "14.0.0-nightly.20210101")
  = [release 14 0 0 [IStr "nightly"; INum 20210101]] /\
  inRange feed_catalog (inr "1.0.0") (inr "12.0.0") = [].
Proof.
  split; [reflexivity|]. split; [reflexivity|]. split; [reflexivity|].
  split.
  - apply (inRange_one_unknown parse_known feed []
             (inr "1.0.0") (inr "14.0.0-nightly.20210101")); reflexivity.
  - apply (inRange_one_unknown parse_known feed []
             (inr "1.0.0") (inr "12.0.0")); reflexivity.
Defined.

Lemma inRange_length_witness :
  isVersion feed_catalog (inr "12.0.2") = true /\
  isVersion feed_catalog (inr "10.0.0") = true /\
  Z.of_nat (length (inRange feed_catalog (inr "12.0.2") (inr "10.0.0")))
  = Z.abs (position feed_catalog "12.0.2" - position feed_catalog "10.0.0") + 1.
Proof.
  split; [reflexivity|]. split; [reflexivity|].
  apply (inRange_length parse_known feed [] (inr "12.0.2") (inr "10.0.0"));
    reflexivity.
Defined.

Lemma setVersions_shapes_agree_witness :
  setVersions parse_known (records_doc release_records) feed_catalog
  = setVersions parse_known (strings_doc ["12.0.1"; "9.0.0"]) [] /\
  version <$> versions (setVersions parse_known (records_doc release_records) feed_catalog)
  = ["9.0.0"; "12.0.1"].
Proof.
  split; [|reflexivity].
  apply (setVersions_shapes_agree parse_known release_records ["12.0.1"; "9.0.0"]
           feed_catalog []).
  repeat constructor.
Defined.

End CatalogExamples.

(** ** Documents that are not a feed *)

Section Unrecognized.

Variable semverParse : string -> option SemVer.t.

Lemma forallb_false_elem {A} (f : A -> bool) (l : list A) (x : A) :
  x ∈ l -> f x = false -> forallb f l = false.
Proof.
  intros Hx Hf. destruct (forallb f l) eqn:E; [|done].
  rewrite forallb_forall in E. rewrite <- Hf. symmetry. apply E.
  by apply list_elem_of_In.
Qed.

(** One item that is not a string together with one item that is not a
    record with a string [version] discards the whole document, and so
    does a document that is no array: the catalog is left empty, whatever
    it held. *)
Theorem setVersions_unrecognized (val : JsVal) (old : VersionMap) :
  (forall items, val = JArr items ->
     (exists i, i ∈ items /\ version_field i = None) /\
     (exists j, j ∈ items /\ string_item j = None)) ->
  setVersions semverParse val old = [] /\
  (forall ver, isVersion (setVersions semverParse val old) ver = false) /\
  latest (setVersions semverParse val old) = None.
Proof.
  intros Hbad.
  assert (setVersions semverParse val old = []) as ->; [|done].
  assert (parsed_of semverParse val = []) as E.
  { unfold parsed_of. destruct val as [| | | | |items|]; try done.
    destruct (Hbad items eq_refl) as ((i & Hi & Ei) & (j & Hj & Ej)).
    assert (isArrayOfVersionObjects (JArr items) = false) as ->.
    { apply (forallb_false_elem _ _ i Hi). rewrite Ei.
      apply andb_false_iff. right. apply bool_decide_eq_false. by intros [? ?]. }
    assert (isArrayOfStrings (JArr items) = false) as ->; [|done].
    apply (forallb_false_elem _ _ j Hj). rewrite Ej.
    apply bool_decide_eq_false. by intros [? ?]. }
  unfold setVersions. by rewrite E.
Qed.

End Unrecognized.

Lemma setVersions_unrecognized_witness :
  setVersions parse_known
    (JArr [JStr "12.0.1"; JObj [("version", JStr "12.0.2")]]) feed_catalog = [].
Proof.
  apply (setVersions_unrecognized parse_known
           (JArr [JStr "12.0.1"; JObj [("version", JStr "12.0.2")]]) feed_catalog).
  intros items [= <-]. split.
  - exists (JStr "12.0.1"). split; [apply list_elem_of_here|reflexivity].
  - exists (JObj [("version", JStr "12.0.2")]). split; [|reflexivity].
    apply list_elem_of_further, list_elem_of_here.
Defined.

(** ** The self-populating catalog *)

Section RefreshFacts.

Variable semverParse : string -> option SemVer.t.
Variable clock : nat -> Z.
Implicit Types (st : Session) (o : ElectronVersions.t).

Lemma isCacheFresh_iff (cacheTimeMs now : Z) :
  isCacheFresh cacheTimeMs now = true <-> now <= cacheTimeMs + VERSION_CACHE_TTL_MS.
Proof. unfold isCacheFresh. apply Z.leb_le. Qed.

Lemma session_after_0 st : session_after st 0 (obj st) [] = st.
Proof.
  unfold session_after. rewrite Nat.add_0_r, app_nil_r. by destruct st.
Qed.

Lemma session_after_twice st (n k : nat) o o' (l l' : list FetchTask) :
  session_after (session_after st n o l) k o' l' = session_after st (n + k) o' (l ++ l').
Proof.
  unfold session_after. cbn [obj ticks waiting]. f_equal; [lia|by rewrite app_assoc].
Qed.

Lemma keepFresh_fresh st :
  clock (ticks st) <= ElectronVersions.mtimeMs (obj st) + VERSION_CACHE_TTL_MS ->
  keepFresh clock st = (tt, session_after st 1 (obj st) []).
Proof.
  intros H. unfold keepFresh, Date_now. cbn [obj ticks waiting].
  apply isCacheFresh_iff in H as ->. cbn [negb]. unfold session_after.
  by rewrite Nat.add_1_r, app_nil_r.
Qed.

Lemma keepFresh_stale st :
  ElectronVersions.mtimeMs (obj st) + VERSION_CACHE_TTL_MS < clock (ticks st) ->
  keepFresh clock st
  = (tt, session_after st 2
           (ElectronVersions.mk (ElectronVersions.map (obj st)) (clock (ticks st + 1)))
           [{| saved_mtimeMs := ElectronVersions.mtimeMs (obj st) |}]).
Proof.
  intros H. unfold keepFresh, fetch_begin, Date_now. cbn [obj ticks waiting].
  assert (isCacheFresh (ElectronVersions.mtimeMs (obj st)) (clock (ticks st)) = false)
    as -> by (unfold isCacheFresh; apply Z.leb_gt; lia).
  cbn [negb]. unfold session_after. rewrite Nat.add_1_r. do 2 f_equal. lia.
Qed.

(** A check of the age only adds to the fetches that wait, and a stale
    one adds the fetch that saved the stamp of the object. *)
Lemma keepFresh_waiting st :
  exists more, waiting (keepFresh clock st).2 = waiting st ++ more /\
    (ElectronVersions.mtimeMs (obj st) + VERSION_CACHE_TTL_MS < clock (ticks st) ->
     more = [{| saved_mtimeMs := ElectronVersions.mtimeMs (obj st) |}]).
Proof.
  destruct (Z.le_gt_cases (clock (ticks st))
              (ElectronVersions.mtimeMs (obj st) + VERSION_CACHE_TTL_MS)) as [H|H].
  - rewrite keepFresh_fresh by done. exists []. split; [done|lia].
  - rewrite keepFresh_stale by done. by eexists.
Qed.

(** A member whose checks all find the catalog young answers as the
    base class does and changes nothing but the clock. *)
Lemma invoke_fresh (acc : Accessor) st :
  (forall n, (n < checks acc)%nat ->
     clock (ticks st + n) <= ElectronVersions.mtimeMs (obj st) + VERSION_CACHE_TTL_MS) ->
  invoke clock acc st
  = (super_result acc (ElectronVersions.map (obj st)),
     session_after st (checks acc) (obj st) []).
Proof.
  intros H.
  assert (keepFresh clock st = (tt, session_after st 1 (obj st) [])) as E1.
  { apply keepFresh_fresh. rewrite <- (Nat.add_0_r (ticks st)). apply H.
    destruct acc; simpl; lia. }
  assert (checks acc = 2%nat ->
          keepFresh clock (session_after st 1 (obj st) [])
          = (tt, session_after st 2 (obj st) [])) as E2.
  { intros Hc. rewrite keepFresh_fresh, session_after_twice; [done|].
    cbn [session_after obj ticks]. apply H. lia. }
  destruct acc; cbn [invoke super_result checks] in *;
    unfold get_prereleaseMajors, get_stableMajors, get_supportedMajors,
      get_obsoleteMajors, get_versions, get_latest, get_latestStable,
      call_isVersion, call_inMajor, call_inRange, get_stableMajors, get_versions,
      ev_bind, ev_ret, this_map;
    rewrite E1; cbn [fst snd]; rewrite ?(E2 eq_refl); done.
Qed.

(** A member whose first check finds the catalog old answers as the
    base class does on the catalog as it is, and starts one fetch. *)
Lemma invoke_stale (acc : Accessor) st :
  ElectronVersions.mtimeMs (obj st) + VERSION_CACHE_TTL_MS < clock (ticks st) ->
  (checks acc = 2%nat -> clock (ticks st + 2) <= clock (ticks st + 1) + VERSION_CACHE_TTL_MS) ->
  invoke clock acc st
  = (super_result acc (ElectronVersions.map (obj st)),
     session_after st (S (checks acc))
       (ElectronVersions.mk (ElectronVersions.map (obj st)) (clock (ticks st + 1)))
       [{| saved_mtimeMs := ElectronVersions.mtimeMs (obj st) |}]).
Proof.
  intros Hstale Hnext.
  pose proof (keepFresh_stale st Hstale) as E1.
  set (started := ElectronVersions.mk (ElectronVersions.map (obj st))
                    (clock (ticks st + 1))) in *.
  set (task := {| saved_mtimeMs := ElectronVersions.mtimeMs (obj st) |}) in *.
  assert (checks acc = 2%nat ->
          keepFresh clock (session_after st 2 started [task])
          = (tt, session_after st 3 started [task])) as E2.
  { intros Hc. rewrite keepFresh_fresh, session_after_twice; [by rewrite app_nil_r|].
    cbn [session_after obj ticks ElectronVersions.mtimeMs started]. by apply Hnext. }
  destruct acc; cbn [invoke super_result checks] in *;
    unfold get_prereleaseMajors, get_stableMajors, get_supportedMajors,
      get_obsoleteMajors, get_versions, get_latest, get_latestStable,
      call_isVersion, call_inMajor, call_inRange, get_stableMajors, get_versions,
      ev_bind, ev_ret, this_map;
    rewrite E1; cbn [fst snd]; rewrite ?(E2 eq_refl); done.
Qed.

(** [supportedMajors], [obsoleteMajors] and [latest] check twice: when
    the catalog turns old between the two checks, the second one starts
    the fetch. *)
Lemma invoke_late (acc : Accessor) st :
  checks acc = 2%nat ->
  clock (ticks st) <= ElectronVersions.mtimeMs (obj st) + VERSION_CACHE_TTL_MS ->
  ElectronVersions.mtimeMs (obj st) + VERSION_CACHE_TTL_MS < clock (ticks st + 1) ->
  invoke clock acc st
  = (super_result acc (ElectronVersions.map (obj st)),
     session_after st 3
       (ElectronVersions.mk (ElectronVersions.map (obj st)) (clock (ticks st + 2)))
       [{| saved_mtimeMs := ElectronVersions.mtimeMs (obj st) |}]).
Proof.
  intros Hc Hfresh Hstale.
  pose proof (keepFresh_fresh st Hfresh) as E1.
  assert (keepFresh clock (session_after st 1 (obj st) [])
          = (tt, session_after st 3
                   (ElectronVersions.mk (ElectronVersions.map (obj st))
                      (clock (ticks st + 2)))
                   [{| saved_mtimeMs := ElectronVersions.mtimeMs (obj st) |}])) as E2.
  { rewrite keepFresh_stale, session_after_twice by done.
    cbn [session_after obj ticks]. by rewrite <- Nat.add_assoc. }
  destruct acc; try discriminate Hc; cbn [invoke super_result];
    unfold get_supportedMajors, get_obsoleteMajors, get_latest, get_stableMajors,
      get_versions, ev_bind, ev_ret, this_map;
    rewrite E1; cbn [fst snd]; rewrite E2; done.
Qed.

(** [create] asks the network exactly when the cache file cannot be
    read, holds a falsy document or is older than the TTL; the catalog is
    built from the fetched document if there is one and from the cache
    file otherwise, a stale one too; and the object is stamped with the
    time of the call whatever happened, so that a member all of whose
    readings of the clock are within the TTL of that time starts no
    fetch, not even after a fetch that failed: it answers as the base
    class does and leaves the object as it is. *)
Theorem create_outcome (cache : option CacheFile) (now : Z) (net : option JsVal) :
  let o := (create semverParse cache now net).1 in
  let asked := (create semverParse cache now net).2 in
  let on_disk := match cache with Some c => cached c | None => JUndefined end in
  (asked = false <->
     exists c, cache = Some c /\ truthy (cached c) = true /\
               now <= st_mtimeMs c + VERSION_CACHE_TTL_MS) /\
  ElectronVersions.map o
  = BaseVersions semverParse
      (if asked then default on_disk net else on_disk) /\
  ElectronVersions.mtimeMs o = now /\
  (cache = None -> net = None -> ElectronVersions.map o = []) /\
  forall (acc : Accessor) st,
    obj st = o ->
    (forall n, (n < checks acc)%nat ->
       clock (ticks st + n) <= now + VERSION_CACHE_TTL_MS) ->
    invoke clock acc st
    = (super_result acc (ElectronVersions.map o), session_after st (checks acc) o []).
Proof.
  intros o asked on_disk. split_and!.
  - unfold asked, create. cbn [snd]. rewrite orb_false_iff, negb_false_iff. split.
    + destruct cache as [c|]; [|by intros [? ?]].
      intros [T F]. apply negb_false_iff in F.
      exists c. split_and!; [done|done|]. by apply isCacheFresh_iff.
    + intros (c & -> & T & F). split; [done|].
      apply negb_false_iff. by apply isCacheFresh_iff.
  - unfold o, asked, create, BaseVersions. cbn [fst snd ElectronVersions.map].
    fold on_disk. by destruct (negb (truthy on_disk) || _), net.
  - done.
  - intros -> ->. unfold o, create. cbn. reflexivity.
  - intros acc st Ho Hclock. rewrite <- Ho. apply invoke_fresh.
    by rewrite Ho.
Qed.

(** A refresh from start to end.  A member called on a catalog older
    than the TTL answers from the catalog as it is and starts one fetch,
    which stamps the object with the time of its start; while that
    fetch waits, a member whose readings of the clock are within the
    TTL of that time answers the same and starts no second fetch.  A
    fetch that fails puts the object back exactly as it was, so that
    the next member called on it starts a fetch again; a fetch that
    succeeds replaces the catalog by the fetched document alone and
    keeps the time of its start. *)
Theorem refresh_cycle (acc acc2 : Accessor) st :
  ElectronVersions.mtimeMs (obj st) + VERSION_CACHE_TTL_MS < clock (ticks st) ->
  (forall n, (2 <= n < 1 + checks acc + checks acc2)%nat ->
     clock (ticks st + n) <= clock (ticks st + 1) + VERSION_CACHE_TTL_MS) ->
  let task := {| saved_mtimeMs := ElectronVersions.mtimeMs (obj st) |} in
  let started :=
    ElectronVersions.mk (ElectronVersions.map (obj st)) (clock (ticks st + 1)) in
  let st1 := session_after st (S (checks acc)) started [task] in
  invoke clock acc st = (super_result acc (ElectronVersions.map (obj st)), st1) /\
  invoke clock acc2 st1
  = (super_result acc2 (ElectronVersions.map (obj st)),
     session_after st1 (checks acc2) started []) /\
  fetch_end semverParse task None started = obj st /\
  (forall st2, obj st2 = fetch_end semverParse task None started ->
     clock (ticks st) <= clock (ticks st2) ->
     exists more, waiting (invoke clock acc2 st2).2 = waiting st2 ++ task :: more) /\
  (forall doc,
     fetch_end semverParse task (Some doc) started
     = ElectronVersions.mk (BaseVersions semverParse doc) (clock (ticks st + 1))).
Proof.
  intros Hstale Hnext task started st1.
  assert (fetch_end semverParse task None started = obj st) as Hback
    by by destruct (obj st).
  split_and!.
  - apply invoke_stale; [done|]. intros Hc. apply Hnext.
    destruct acc2; simpl; lia.
  - apply (invoke_fresh acc2 st1). intros n Hn.
    cbn [st1 session_after obj ticks ElectronVersions.mtimeMs started].
    replace (ticks st + S (checks acc) + n)%nat
      with (ticks st + (S (checks acc) + n))%nat by lia.
    apply Hnext. destruct acc; simpl; lia.
  - done.
  - intros st2 Hobj Hlater. rewrite Hback in Hobj.
    assert (forall C (k : unit -> EV C),
              (forall x s, exists more', waiting (k x s).2 = waiting s ++ more') ->
              exists more, waiting (ev_bind (keepFresh clock) k st2).2
                           = waiting st2 ++ task :: more) as Hfirst.
    { intros C k Hk. unfold ev_bind.
      destruct (keepFresh_waiting st2) as (m1 & E1 & Hm1).
      rewrite Hobj in Hm1. rewrite (Hm1 ltac:(lia)) in E1.
      destruct (Hk (keepFresh clock st2).1 (keepFresh clock st2).2) as (m2 & E2).
      exists m2. by rewrite E2, E1, <- app_assoc. }
    assert (forall C (f : VersionMap -> C) (x : unit) s,
              exists more', waiting ((m <- this_map ;; ev_ret (f m))%ev s).2
                            = waiting s ++ more') as Hpure.
    { intros C f x s. exists []. by rewrite app_nil_r. }
    assert (forall C D (f : VersionMap -> C) (g : C -> D) (x : unit) s,
              exists more',
                waiting ((y <- (keepFresh clock ;;; m <- this_map ;; ev_ret (f m)) ;;
                          ev_ret (g y))%ev s).2
                = waiting s ++ more') as Hagain.
    { intros C D f g x s. unfold ev_bind, ev_ret, this_map. cbn [fst snd].
      destruct (keepFresh_waiting s) as (m1 & E1 & _). by exists m1. }
    destruct acc2; cbn [invoke];
      unfold get_prereleaseMajors, get_supportedMajors, get_obsoleteMajors,
        get_latest, get_latestStable, call_isVersion, call_inMajor, call_inRange;
      first [ apply Hfirst; intros x s; apply (Hpure _ _ x s)
            | apply Hfirst; intros x s; apply (Hagain _ _ _ _ x s) ].
  - done.
Qed.

End RefreshFacts.

Lemma refresh_cycle_witness :
  invoke (fun n => 14400001 + Z.of_nat n) GetLatest
    {| obj := ElectronVersions.mk feed_catalog 0; ticks := 0; waiting := [] |}
  = (latest feed_catalog,
     {| obj := ElectronVersions.mk feed_catalog 14400002; ticks := 3;
        waiting := [{| saved_mtimeMs := 0 |}] |}).
Proof.
  destruct (refresh_cycle parse_known (fun n => 14400001 + Z.of_nat n)
              GetLatest GetSupportedMajors
              {| obj := ElectronVersions.mk feed_catalog 0; ticks := 0; waiting := [] |})
    as (H & _).
  - reflexivity.
  - intros n Hn. cbn [ticks checks] in *. unfold VERSION_CACHE_TTL_MS. lia.
  - exact H.
Defined.

(** [latest] reads the clock twice: fresh at the first reading and stale
    at the second, it starts a fetch. *)
Example latest_checks_twice :
  invoke (fun n => 14400000 + Z.of_nat n) GetLatest
    {| obj := ElectronVersions.mk feed_catalog 0; ticks := 0; waiting := [] |}
  = (latest feed_catalog,
     {| obj := ElectronVersions.mk feed_catalog 14400002; ticks := 3;
        waiting := [{| saved_mtimeMs := 0 |}] |}) /\
  invoke (fun n => 14400000 + Z.of_nat n) GetVersions
    {| obj := ElectronVersions.mk feed_catalog 0; ticks := 0; waiting := [] |}
  = (versions feed_catalog,
     {| obj := ElectronVersions.mk feed_catalog 0; ticks := 1; waiting := [] |}).
Proof. split; reflexivity. Qed.

(** ** What a bisection reports and how long it takes *)

Lemma sorted_lookup_lt {A} (R : relation A) (l : list A) (i j : nat) (x y : A) :
  StronglySorted R l -> l !! i = Some x -> l !! j = Some y -> (i < j)%nat -> R x y.
Proof.
  intros S. revert i j. induction S as [|z l S IH Hz]; intros i j Hi Hj Hlt; [done|].
  destruct j as [|j]; [lia|]. destruct i as [|i].
  - injection Hi as ->. rewrite Forall_forall in Hz. apply Hz.
    by eapply list_elem_of_lookup_2.
  - apply (IH i j); [done|done|lia].
Qed.

Lemma sorted_sublist {A} (R : relation A) (l1 l2 : list A) :
  l1 `sublist_of` l2 -> StronglySorted R l2 -> StronglySorted R l1.
Proof.
  induction 1 as [|x l1 l2 Hsub IH|x l1 l2 Hsub IH]; intros S; [done| |].
  - apply StronglySorted_inv in S as [S Hx]. constructor; [by apply IH|].
    rewrite Forall_forall in Hx. apply Forall_forall. intros y Hy. apply Hx.
    by eapply elem_of_sublist.
  - apply StronglySorted_inv in S as [S _]. by apply IH.
Qed.

Lemma halves_bound (w p : Z) :
  0 <= p -> 2 <= w -> w <= 2 * p -> (w + 1) / 2 <= p /\ w - (w + 1) / 2 <= p.
Proof.
  intros Hp Hw Hle.
  assert ((w + 1) / 2 <= p).
  { apply Z.lt_succ_r. apply Z.div_lt_upper_bound; lia. }
  assert (w <= 2 * ((w + 1) / 2)).
  { pose proof (Z.div_mod (w + 1) 2 ltac:(lia)).
    pose proof (Z.mod_pos_bound (w + 1) 2 ltac:(lia)). lia. }
  lia.
Qed.

Lemma midpoint_eq (left right : Z) :
  midpoint left right = left + (right - left + 1) / 2.
Proof.
  unfold midpoint, round_half.
  replace (2 * left + (right - left) + 1) with ((right - left + 1) + left * 2) by lia.
  rewrite Z.div_add by lia. lia.
Qed.

Section BisectFacts.
Context {World : Type}.
Variable r : Runner World.
Implicit Types (s : St World) (l : Locals.t) (d : list Call).

Lemma after_run_tested l (res : TestResult) :
  Locals.left l + 1 < Locals.right l -> recorded_tested l ->
  recorded_tested (after_run l res) /\ ordered (after_run l res).
Proof.
  intros Hlt Hrec. pose proof (midpoint_inside _ _ Hlt) as Hmid.
  assert (Locals.testOrder (after_run l res)
          = Locals.testOrder l ++ [midpoint (Locals.left l) (Locals.right l)]) as Ho.
  { unfold after_run. by destruct (status res). }
  assert (Locals.results (after_run l res)
          = <[midpoint (Locals.left l) (Locals.right l) := res]> (Locals.results l)) as Hr.
  { unfold after_run. by destruct (status res). }
  split.
  - intros i x. rewrite Hr, Ho, elem_of_app.
    destruct (decide (i = midpoint (Locals.left l) (Locals.right l))) as [->|Hne].
    + intros _. right. apply list_elem_of_here.
    + rewrite lookup_insert_ne by done. intros Hx. left. by eapply Hrec.
  - intros _. unfold after_run. destruct (status res); simpl; lia.
Qed.

Lemma bisect_loop_tested (fuel : nat) (versions : list SemVer.t) (fiddle : Fiddle)
    (opts : RunnerOptions) l s l' s' :
  bisect_loop r fuel versions fiddle opts l s = (Ok l', s') ->
  recorded_tested l -> ordered l -> recorded_tested l' /\ ordered l'.
Proof.
  revert l s. induction fuel as [|fuel IH]; intros l s H Hrec Hord;
    rewrite bisect_loop_unfold in H;
    destruct (Z.ltb_spec (Locals.left l + 1) (Locals.right l)) as [Hlt|Hge];
    try done; try (by injection H as <- <-).
  destruct (nth_version versions _) as [ver|]; [|done].
  apply bind_inv in H as [(result & s1 & Hrun & H)|[(e & _ & ?)|[_ ?]]];
    [|done|done].
  destruct (after_run_tested l result Hlt Hrec) as [Hrec1 Hord1].
  destruct (status result); try (by injection H as <- <-); by eapply IH.
Qed.

Lemma bisect_loop_runs (fuel : nat) (versions : list SemVer.t) (fiddle : Fiddle)
    (opts : RunnerOptions) (k : nat) l s (res : Res Locals.t) s' :
  bisect_loop r fuel versions fiddle opts l s = (res, s') ->
  Locals.right l - Locals.left l <= 2 ^ Z.of_nat k ->
  exists d, calls s' = calls s ++ d /\ (count_runs d <= k)%nat.
Proof.
  revert k l s. induction fuel as [|fuel IH]; intros k l s H Hk;
    rewrite bisect_loop_unfold in H;
    destruct (Z.ltb_spec (Locals.left l + 1) (Locals.right l)) as [Hlt|Hge];
    try (injection H as <- <-; exists []; split; [by rewrite app_nil_r|apply Nat.le_0_l]).
  destruct (nth_version versions _) as [ver|].
  2: { injection H as <- <-. exists []. split; [by rewrite app_nil_r|apply Nat.le_0_l]. }
  destruct k as [|k]; [simpl in Hk; lia|].
  rewrite Nat2Z.inj_succ, Z.pow_succ_r in Hk by lia.
  assert (0 <= 2 ^ Z.of_nat k) as Hpos by (apply Z.pow_nonneg; lia).
  destruct (halves_bound (Locals.right l - Locals.left l) (2 ^ Z.of_nat k))
    as [Hhi Hlo]; [lia|lia|lia|].
  pose proof (midpoint_eq (Locals.left l) (Locals.right l)) as Emid.
  apply bind_inv in H as [(result & s1 & Hrun & H)|[(e & Hrun & ->)|[Hrun ->]]];
    apply run_balanced in Hrun as (_ & d1 & E1 & _ & C1 & _).
  - assert (forall l1, l1 = after_run l result ->
              Locals.right l1 - Locals.left l1 <= 2 ^ Z.of_nat k \/
              inconclusive result) as Hw.
    { intros l1 ->. unfold after_run, inconclusive.
      destruct (status result); simpl; auto; left; lia. }
    destruct (Hw _ eq_refl) as [Hw1|Hinc].
    + assert (exists d2, calls s' = calls s1 ++ d2 /\ (count_runs d2 <= k)%nat)
        as (d2 & E2 & C2).
      { destruct (status result);
          try (by eapply IH);
          injection H as <- <-; exists []; (split; [by rewrite app_nil_r|apply Nat.le_0_l]). }
      exists (d1 ++ d2). split; [by rewrite E2, E1, <- app_assoc|].
      rewrite count_runs_app. lia.
    + assert (s' = s1) as ->.
      { destruct Hinc as [Hi|Hi]; rewrite Hi in H; by injection H as <- <-. }
      exists d1. split; [done|lia].
  - exists d1. split; [done|lia].
  - exists d1. split; [done|lia].
Qed.

Lemma conclude_state (versions : list SemVer.t) l s (res : Res BisectResult) s' :
  conclude versions l s = (res, s') -> s' = s.
Proof.
  unfold conclude, bind, result_status, ret, throw.
  destruct (Locals.results l !! Locals.left l) as [rl|]; [|by intros [= <- <-]].
  destruct (bool_decide (status rl = test_passed)).
  - destruct (Locals.results l !! Locals.right l) as [rr|]; [|by intros [= <- <-]].
    destruct (bool_decide (status rr = test_failed)).
    + destruct (nth_version versions (Locals.left l)),
               (nth_version versions (Locals.right l)); by intros [= <- <-].
    + destruct (status <$> Locals.result l) as [[]|]; by intros [= <- <-].
  - destruct (status <$> Locals.result l) as [[]|]; by intros [= <- <-].
Qed.

(** A bisection of a slice of at most [2^k + 1] versions makes at most
    [k] runs, however it ends. *)
Theorem bisect_runs_log_bound (a b : SemOrStr) (src : FiddleSource)
    (opts : RunnerOptions) s (k : nat) :
  Z.of_nat (length (inRange (catalog r) a b)) - 1 <= 2 ^ Z.of_nat k ->
  exists d, calls (bisect r a b src opts s).2 = calls s ++ CallCreate src :: d /\
            (count_runs d <= k)%nat /\ (count_creates d <= k)%nat.
Proof.
  intros Hk. destruct (bisect r a b src opts s) as [res s'] eqn:E.
  pose proof E as E'. apply bisect_spec in E' as (_ & (d0 & Ed0 & Cd0 & _) & _).
  cbn [snd]. exists d0. split; [done|].
  cut (count_runs d0 <= k)%nat; [lia|].
  cut (exists d, calls s' = calls s ++ CallCreate src :: d /\ (count_runs d <= k)%nat).
  { intros (d & Ed & Cd). rewrite Ed0 in Ed.
    apply app_inv_head in Ed. injection Ed as ->. done. }
  clear d0 Ed0 Cd0. unfold bisect in E.
  assert (forall (res1 : Res (list SemVer.t * Locals.t)) s1,
            bisect_session r a b src opts s = (res1, s1) ->
            exists d, calls s1 = calls s ++ CallCreate src :: d /\
                      (count_runs d <= k)%nat) as Hsession.
  { unfold bisect_session. intros res1 s1 H.
    apply bind_inv in H as [(u & s2 & H1 & H)|[(e & H1 & ->)|[H1 ->]]];
      apply record_call_inv in H1 as [? ->]; [|done|done].
    apply bind_inv in H as [(fiddle & s3 & H2 & H)|[(e & H2 & ->)|[H2 ->]]];
      apply external_inv in H2 as [E2 N2]; cbn in E2; [| |done].
    - destruct fiddle as [fiddle|].
      + apply bind_inv in H as [(l' & s4 & H3 & H)|[(e & H3 & ->)|[H3 ->]]];
          apply (bisect_loop_runs _ _ _ _ k) in H3 as (d & E3 & C3); try (cbn; lia).
        * injection H as <- <-. exists d. split; [|done].
          by rewrite E3, E2, <- app_assoc.
        * exists d. split; [|done]. by rewrite E3, E2, <- app_assoc.
        * exists d. split; [|done]. by rewrite E3, E2, <- app_assoc.
      + injection H as <- <-. exists []. split; [by rewrite E2|apply Nat.le_0_l].
    - exists []. split; [by rewrite E2|apply Nat.le_0_l]. }
  apply bind_inv in E as [(session & s1 & H1 & H)|[(e & H1 & ->)|[H1 ->]]].
  - apply conclude_state in H as ->. by eapply Hsession.
  - by eapply Hsession.
  - by eapply Hsession.
Qed.

(** When [bisect] returns, the pair it reports is strictly inside the
    slice: neither the first nor the last version of the range is ever
    reported, the good one comes before the bad one, and the slice has
    four versions or more.  The two are adjacent unless the run that
    ended the loop was inconclusive.  In a catalog in ascending order the
    good version is the lower one. *)
Theorem bisect_success_shape (a b : SemOrStr) (src : FiddleSource)
    (opts : RunnerOptions) s (out : BisectResult) s' :
  bisect r a b src opts s = (Ok out, s') ->
  let slice := inRange (catalog r) a b in
  exists (i j : nat) (good bad : SemVer.t) l,
    out = {| range := Some (SemVer.version good, SemVer.version bad);
             bisect_status := bisect_succeeded |} /\
    slice !! i = Some good /\ slice !! j = Some bad /\
    (0 < i)%nat /\ (i < j)%nat /\ (j < length slice - 1)%nat /\
    (4 <= length slice)%nat /\
    (bisect_session r a b src opts s).1 = Ok (slice, l) /\
    ((j = i + 1)%nat \/
     exists res, Locals.result l = Some res /\ inconclusive res) /\
    (StronglySorted version_lt (versions (catalog r)) -> version_lt good bad).
Proof.
  intros H slice.
  pose proof H as H'. apply bisect_spec in H' as (_ & _ & Hout).
  destruct (Hout out eq_refl)
    as (l & good & bad & rl & rr & Hs & -> & Hg & Hb & Hl & Pl & Hr & Pr).
  fold slice in Hs, Hg, Hb.
  destruct (bisect_session r a b src opts s) as [res1 s1] eqn:Es.
  cbn [fst] in Hs. subst res1.
  pose proof Es as Es'.
  apply bisect_session_spec in Es' as (_ & d & _ & _ & _ & _ & _ & Hpost).
  fold slice in Hpost.
  destruct Hpost as ((H0 & Hlen & Hin & _) & _ & _ & _ & _ & Hstop).
  assert (recorded_tested l /\ ordered l) as [Hrec Hord].
  { unfold bisect_session in Es.
    apply bind_inv in Es as [(u & s2 & H1 & Es)|[(e & _ & ?)|[_ ?]]]; [|done|done].
    apply bind_inv in Es as [(fiddle & s3 & H2 & Es)|[(e & _ & ?)|[_ ?]]]; [|done|done].
    destruct fiddle as [fiddle|]; [|done].
    apply bind_inv in Es as [(l' & s4 & H3 & Es)|[(e & _ & ?)|[_ ?]]]; [|done|done].
    injection Es as <- <-.
    apply bisect_loop_tested in H3; [done| |].
    - intros i x. cbn. by rewrite lookup_empty.
    - intros Hne. by cbn in Hne. }
  rewrite Forall_forall in Hin.
  pose proof (Hin _ (Hrec _ _ Hl)) as Il. pose proof (Hin _ (Hrec _ _ Hr)) as Ir.
  unfold inside in Il, Ir.
  assert (Locals.left l < Locals.right l) as Hlt.
  { apply Hord. intros Hnil. pose proof (Hrec _ _ Hl) as Hx.
    rewrite Hnil in Hx. by apply elem_of_nil in Hx. }
  unfold nth_version in Hg, Hb.
  destruct (Z.ltb_spec (Locals.left l) 0); [lia|].
  destruct (Z.ltb_spec (Locals.right l) 0); [lia|].
  exists (Z.to_nat (Locals.left l)), (Z.to_nat (Locals.right l)), good, bad, l.
  split_and!; try done; try lia.
  - destruct Hstop as [Hclosed|(res & mid & ? & ? & _)].
    + left. lia.
    + right. by exists res.
  - intros Hsorted. eapply (sorted_lookup_lt version_lt slice); [|done|done|lia].
    eapply sorted_sublist; [|done]. unfold slice. rewrite inRange_positions.
    apply js_slice_sublist.
Qed.

End BisectFacts.

Lemma bisect_runs_log_bound_witness :
  exists d, session_calls (session_five start) = CallCreate gist :: d /\
            (count_runs d <= 2)%nat /\ (count_creates d <= 2)%nat.
Proof.
  apply (bisect_runs_log_bound
           (test_runner (exits [("10.0.0", 0); ("11.0.0", 0);
                                ("12.0.0-nightly.20200101", 0);
                                ("12.0.0-beta.1", 1); ("12.0.0", 1)]))
           (inr "10.0.0") (inr "12.0.0") gist DefaultRunnerOpts start 2).
  vm_compute. discriminate.
Defined.

Lemma bisect_success_shape_witness :
  exists (i j : nat) (good bad : SemVer.t),
    inRange feed_catalog (inr "10.0.0") (inr "12.0.0") !! i = Some good /\
    inRange feed_catalog (inr "10.0.0") (inr "12.0.0") !! j = Some bad /\
    (0 < i)%nat /\ (i < j)%nat /\
    (session_five start).1
    = Ok {| range := Some (SemVer.version good, SemVer.version bad);
            bisect_status := bisect_succeeded |}.
Proof.
  destruct (bisect_success_shape
              (test_runner (exits [("10.0.0", 0); ("11.0.0", 0);
                                   ("12.0.0-nightly.20200101", 0);
                                   ("12.0.0-beta.1", 1); ("12.0.0", 1)]))
              (inr "10.0.0") (inr "12.0.0") gist DefaultRunnerOpts start
              {| range := Some ("12.0.0-nightly.20200101", "12.0.0-beta.1");
                 bisect_status := bisect_succeeded |}
              (session_five start).2 eq_refl)
    as (i & j & good & bad & l & E & Hi & Hj & H0 & Hij & _).
  exists i, j, good, bad. split_and!; try done.
  change ((session_five start).1)
    with (Ok {| range := Some ("12.0.0-nightly.20200101", "12.0.0-beta.1");
                bisect_status := bisect_succeeded |} : Res BisectResult).
  by rewrite E.
Defined.

Lemma bisect_never_returns_error_witness :
  exists out, (session_five start).1 = Ok out /\ bisect_status out = bisect_succeeded.
Proof.
  eexists. split; [reflexivity|].
  apply (bisect_never_returns_error
           (test_runner (exits [("10.0.0", 0); ("11.0.0", 0);
                                ("12.0.0-nightly.20200101", 0);
                                ("12.0.0-beta.1", 1); ("12.0.0", 1)]))
           (inr "10.0.0") (inr "12.0.0") gist DefaultRunnerOpts start _
           (session_five start).2).
  reflexivity.
Defined.

Lemma bisect_degenerate_range_witness :
  bisect (test_runner (exits [])) (inr "12.0.0") (inr "12.0.1") gist
    DefaultRunnerOpts start
  = (Throw TypeError, {| world := tt; calls := [CallCreate gist] |}).
Proof.
  apply (bisect_degenerate_range (test_runner (exits []))
           (inr "12.0.0") (inr "12.0.1") gist DefaultRunnerOpts start
           {| mainPath := "gist/main.js"; source := "gist" |}).
  - vm_compute. lia.
  - reflexivity.
Defined.

(** ** Finding the executable and starting the child *)

Section SpawnFacts.
Context {World : Type}.
Variable r : Runner World.
Variable child_spawnSync : string -> list string -> World -> SyncReturns * World.
Implicit Types (s : St World) (d : list Call).

(** [getExec] calls the installer only for a name that is not on the
    file system and that the catalog knows, and then its answer is the
    installer's.  In every other case nothing changes: a file is
    returned as it is, a directory gives the executable inside it if
    that exists, and anything else is an unrecognized name, a directory
    without executable too, whether the catalog knows its name or not. *)
Theorem getExec_resolution (electron : string) s (res : Res string) s' :
  getExec r electron s = (res, s') ->
  let on_disk := fs_isDirectory (collab r) electron (world s) in
  let known := isVersion (catalog r) (inr electron) in
  (on_disk = None /\ known = true /\
   calls s' = calls s ++ [CallInstall electron] /\
   world s' = (installer_install (collab r) electron (world s)).2 /\
   res = match (installer_install (collab r) electron (world s)).1 with
         | inl e => Throw e
         | inr path => Ok path
         end) \/
  (s' = s /\ (on_disk = None -> known = false) /\
   match res with
   | Ok path =>
       (on_disk = Some false /\ path = electron) \/
       (on_disk = Some true /\ path = getExecPath (collab r) electron /\
        fs_existsSync (collab r) path (world s) = true)
   | Throw e =>
       e = UnrecognizedElectron electron /\ on_disk <> Some false /\
       (on_disk = Some true ->
        fs_existsSync (collab r) (getExecPath (collab r) electron) (world s) = false)
   | OutOfFuel => False
   end).
Proof.
  intros H on_disk known. subst on_disk known.
  unfold getExec, try_catch, bind, statSync, read, ret, throw, record_call, external in H.
  destruct (fs_isDirectory (collab r) electron (world s)) as [[|]|]; simpl in H.
  - destruct (fs_existsSync _ _ _) eqn:Ex; simpl in H; injection H as <- <-;
      right; split_and!; try done; auto.
  - injection H as <- <-. right. split_and!; try done; auto.
  - destruct (isVersion (catalog r) (inr electron)); simpl in H.
    + left. destruct (installer_install _ _ _) as [[e|path] w]; simpl in H;
        injection H as <- <-; by split_and!.
    + injection H as <- <-. right. by split_and!.
Qed.






End SpawnFacts.

Lemma getExec_resolution_witness :
  getExec (test_runner (exits [])) "12.0.0" start
  = (Ok "12.0.0", {| world := tt; calls := [CallInstall "12.0.0"] |}) /\
  calls (getExec (test_runner (exits [])) "12.0.0" start).2
  = calls start ++ [CallInstall "12.0.0"].
Proof.
  split; [reflexivity|].
  destruct (getExec_resolution (test_runner (exits [])) "12.0.0" start
              (Ok "12.0.0") {| world := tt; calls := [CallInstall "12.0.0"] |}
              eq_refl) as [(_ & _ & H & _)|(H & _)].
  - exact H.
  - discriminate H.
Defined.

(** A child that cannot be started: [spawn] returns it, and it will emit
    [error]; [spawnSync] throws on writing its missing output. *)
Example spawnSync_throws_where_spawn_returns :
  (spawn (test_runner (exits [])) (inr "12.0.0") gist DefaultRunnerOpts start).1
  = Ok ChildError /\
  (spawnSync (test_runner (exits []))
     (fun _ _ w => ({| sync_status := None; stdout := None |}, w))
     (inr "12.0.0") gist {| spawn_opts := DefaultRunnerOpts; out := None |} start).1
  = Throw TypeError /\
  (spawnSync (test_runner (exits []))
     (fun _ _ w => ({| sync_status := None; stdout := None |}, w))
     (inr "12.0.0") gist {| spawn_opts := DefaultRunnerOpts; out := Some false |} start).1
  = Ok {| sync_status := None; stdout := None |}.
Proof. repeat split; reflexivity. Qed.
